(** * mcp-apple-notes-rag: hybrid search, note store and indexer

    A shallow embedding of the TypeScript sources
    - [src/search.ts]  (reciprocal rank fusion, [hybridSearch]),
    - [src/db.ts] and [src/schema.sql] (the note store and the job table),
    - [src/indexer.ts] ([startFullIndexing], [syncNotes], [processNote]),
    with the external collaborators (Apple Notes through JXA, the embedding
    model, the PostgreSQL pool) represented by an explicit [World] of
    oracles and an explicit database state.

    Conventions.
    - JavaScript numbers that hold fusion scores are IEEE 754 binary64
      values, the primitive floating-point numbers ([float]) with their
      rounding; counters and ranks are natural numbers.
    - A JavaScript [Map] is an insertion-ordered association list
      ([JsMap]); a JavaScript [Set] that is only queried with [has] is a
      [gset].
    - An [async] function that can throw is a function from the database
      state to a result ([Ok] or [Err]) and a new state. *)

From Stdlib Require Import Ascii String QArith ZArith Floats.
From stdpp Require Import base list strings gmap sorting.
From Equations Require Import Equations.

Local Open Scope string_scope.
Local Open Scope list_scope.

Set Warnings "-clear-no-such-hyp".

(** ** JavaScript [Map<string, V>]

    Iteration follows insertion order; [set] on a key already present
    replaces the value and keeps the key's position. *)

Module JsMap.

Definition t (V : Type) : Type := list (string * V).

Definition empty {V} : t V := [].

Fixpoint get {V} (m : t V) (key : string) : option V :=
  match m with
  | [] => None
  | (k', v) :: m' => if decide (k' = key) then Some v else get m' key
  end.

Fixpoint set {V} (m : t V) (key : string) (v : V) : t V :=
  match m with
  | [] => [(key, v)]
  | (k', v') :: m' =>
      if decide (k' = key) then (k', v) :: m' else (k', v') :: set m' key v
  end.

Definition keys {V} (m : t V) : list string := m.*1.
Definition values {V} (m : t V) : list V := m.*2.

Lemma get_set_eq {V} (m : t V) key v : get (set m key v) key = Some v.
Proof.
  induction m as [|[k' v'] m IH]; simpl.
  - by rewrite decide_True.
  - destruct (decide (k' = key)) as [->|Hne]; simpl.
    + by rewrite decide_True.
    + by rewrite decide_False.
Qed.

Lemma get_set_ne {V} (m : t V) key key' v :
  key ≠ key' → get (set m key v) key' = get m key'.
Proof.
  intros Hne. induction m as [|[k' v'] m IH]; simpl.
  - by rewrite decide_False.
  - destruct (decide (k' = key)) as [->|Hne']; simpl.
    + by rewrite !decide_False.
    + destruct (decide (k' = key')); [done|apply IH].
Qed.

Lemma get_None {V} (m : t V) key : get m key = None ↔ key ∉ keys m.
Proof.
  unfold keys. induction m as [|[k' v'] m IH]; simpl.
  - split; [intros _; apply not_elem_of_nil|done].
  - rewrite not_elem_of_cons. destruct (decide (k' = key)) as [->|Hne].
    + split; [done|]. intros [? _]. done.
    + rewrite IH. split; [by intros ?; split|by intros [_ ?]].
Qed.

Lemma get_Some_elem {V} (m : t V) key v :
  get m key = Some v → (key, v) ∈ m.
Proof.
  induction m as [|[k' v'] m IH]; simpl; [done|].
  destruct (decide (k' = key)) as [->|Hne].
  - intros [= ->]. apply list_elem_of_here.
  - intros H. apply list_elem_of_further. by apply IH.
Qed.

Lemma elem_get_Some {V} (m : t V) key v :
  NoDup (keys m) → (key, v) ∈ m → get m key = Some v.
Proof.
  unfold keys. induction m as [|[k' v'] m IH]; simpl.
  - intros _ H. by apply elem_of_nil in H.
  - rewrite NoDup_cons. intros [Hk Hnd] Hin.
    apply elem_of_cons in Hin as [[= -> ->]|Hin].
    + by rewrite decide_True.
    + destruct (decide (k' = key)) as [->|Hne]; [|by apply IH].
      exfalso. apply Hk. apply list_elem_of_fmap. by exists (key, v).
Qed.

(** Keys after [set]: unchanged when the key is present, appended at the
    end otherwise. *)
Lemma keys_set_present {V} (m : t V) key v :
  key ∈ keys m → keys (set m key v) = keys m.
Proof.
  unfold keys. induction m as [|[k' v'] m IH]; simpl.
  - intros H. by apply elem_of_nil in H.
  - intros Hin. destruct (decide (k' = key)) as [->|Hne]; simpl; [done|].
    f_equal. apply IH. apply elem_of_cons in Hin as [?|?]; [congruence|done].
Qed.

Lemma keys_set_absent {V} (m : t V) key v :
  key ∉ keys m → keys (set m key v) = keys m ++ [key].
Proof.
  unfold keys. induction m as [|[k' v'] m IH]; simpl; [done|].
  rewrite not_elem_of_cons. intros [Hne Hnin].
  rewrite decide_False by done. simpl. f_equal. by apply IH.
Qed.

End JsMap.

(** ** JavaScript numbers

    A JavaScript number is an IEEE 754 binary64 value: a primitive
    [float].  The facts below are derived from the specification of the
    primitive operations ([SpecFloat], [FloatAxioms]). *)

Module Number.

Local Open Scope Z_scope.

(** The values that fusion scores take: [+0], the positive finite numbers
    and [+Infinity]. *)
Definition nonneg (x : spec_float) : Prop :=
  match x with
  | S754_zero false | S754_finite false _ _ | S754_infinity false => True
  | _ => False
  end.

Definition positive (x : spec_float) : Prop :=
  match x with
  | S754_finite false _ _ | S754_infinity false => True
  | _ => False
  end.

Lemma digits2_size m : digits2_pos m = Pos.size m.
Proof. induction m; simpl; congruence. Qed.

Lemma digits2_log2 m : Zpos (digits2_pos m) = Z.log2 (Zpos m) + 1.
Proof. rewrite digits2_size. destruct m; simpl; lia. Qed.

Lemma digits2_lt m1 m2 :
  Zpos (digits2_pos m1) < Zpos (digits2_pos m2) → Zpos m1 < Zpos m2.
Proof. rewrite !digits2_log2. intros Hlt. apply Z.log2_lt_cancel. lia. Qed.

Lemma digits2_iter_xO m d :
  digits2_pos (Pos.iter xO m d) = (digits2_pos m + d)%positive.
Proof.
  induction d as [|d IH] using Pos.peano_ind.
  - simpl. lia.
  - rewrite Pos.iter_succ. simpl. rewrite IH. lia.
Qed.


(** *** Shifting the mantissa right *)

Lemma iter_pos_nat {A} (f : A → A) p x :
  SpecFloat.iter_pos f p x = Nat.iter (Pos.to_nat p) f x.
Proof.
  revert x. induction p as [p IH|p IH|]; intros x.
  - rewrite Pos2Nat.inj_xI. cbn [SpecFloat.iter_pos]. rewrite !IH.
    rewrite Nat.iter_succ_r.
    replace (2 * Pos.to_nat p)%nat with (Pos.to_nat p + Pos.to_nat p)%nat
      by lia.
    by rewrite Nat.iter_add.
  - rewrite Pos2Nat.inj_xO. cbn [SpecFloat.iter_pos]. rewrite !IH.
    replace (2 * Pos.to_nat p)%nat with (Pos.to_nat p + Pos.to_nat p)%nat
      by lia.
    by rewrite Nat.iter_add.
  - done.
Qed.

Lemma shr_1_digits mrs :
  0 ≤ shr_m mrs →
  0 ≤ shr_m (shr_1 mrs) ∧
  Zdigits2 (shr_m (shr_1 mrs)) = Z.max 0 (Zdigits2 (shr_m mrs) - 1).
Proof.
  destruct mrs as [m r s']. simpl. intros Hm.
  destruct m as [|[p|p|]|p]; simpl; try lia.
Qed.

Lemma iter_shr_1_digits n mrs :
  0 ≤ shr_m mrs →
  0 ≤ shr_m (Nat.iter n shr_1 mrs) ∧
  Zdigits2 (shr_m (Nat.iter n shr_1 mrs)) =
    Z.max 0 (Zdigits2 (shr_m mrs) - Z.of_nat n).
Proof.
  revert mrs. induction n as [|n IH]; intros mrs Hm.
  - simpl. split; [done|]. destruct (shr_m mrs); simpl in *; lia.
  - rewrite Nat.iter_succ_r.
    destruct (shr_1_digits mrs Hm) as [H1 H1d].
    destruct (IH (shr_1 mrs) H1) as [H2 H2d].
    split; [done|]. rewrite H2d, H1d. lia.
Qed.

Lemma Zdigits2_pos z : 0 ≤ z → 0 < Zdigits2 z → 0 < z.
Proof. destruct z; simpl; lia. Qed.

Lemma Zdigits2_nonneg z : 0 ≤ Zdigits2 z.
Proof. destruct z; simpl; lia. Qed.

Lemma shr_digits mrs e n :
  0 ≤ shr_m mrs →
  0 ≤ shr_m (shr mrs e n).1 ∧
  Zdigits2 (shr_m (shr mrs e n).1) =
    Z.max 0 (Zdigits2 (shr_m mrs) - Z.max 0 n) ∧
  (shr mrs e n).2 = e + Z.max 0 n.
Proof.
  intros Hm. pose proof (Zdigits2_nonneg (shr_m mrs)).
  destruct n as [|p|p]; simpl; [lia| |lia].
  rewrite iter_pos_nat.
  destruct (iter_shr_1_digits (Pos.to_nat p) mrs Hm) as [H1 H2].
  rewrite H2. lia.
Qed.

Lemma shr_record_of_loc_m m l : shr_m (shr_record_of_loc m l) = m.
Proof. by destruct l as [|[]]. Qed.

(** The shift that brings a mantissa to the precision of the format
    leaves a non-negative mantissa; it leaves a positive one when the
    exponent is in range. *)
Lemma shr_fexp_sign m e l :
  0 ≤ m →
  0 ≤ shr_m (shr_fexp prec emax m e l).1 ∧
  (0 < m → emin ≤ e →
   0 < shr_m (shr_fexp prec emax m e l).1 ∧
   emin ≤ (shr_fexp prec emax m e l).2).
Proof.
  intros Hm. unfold shr_fexp.
  set (n := fexp prec emax (Zdigits2 m + e) - e).
  destruct (shr_digits (shr_record_of_loc m l) e n) as (H1 & H2 & H3).
  { by rewrite shr_record_of_loc_m. }
  rewrite shr_record_of_loc_m in H2. split; [done|].
  intros Hpos He. rewrite H3. split; [|lia].
  apply Zdigits2_pos; [done|]. rewrite H2.
  assert (0 < Zdigits2 m) by (destruct m; simpl in *; lia).
  unfold n, fexp, SpecFloat.emin, prec, emax in *. lia.
Qed.

Lemma round_nearest_even_sign m l :
  (0 ≤ m → 0 ≤ round_nearest_even m l) ∧
  (0 < m → 0 < round_nearest_even m l).
Proof.
  unfold round_nearest_even.
  destruct l as [|[]]; try destruct (Z.even m); lia.
Qed.

(** Rounding a non-negative mantissa gives [+0], a positive number or
    [+Infinity], never [NaN]. *)
Lemma binary_round_aux_sign m e l :
  0 ≤ m →
  nonneg (binary_round_aux prec emax false m e l) ∧
  (0 < m → emin ≤ e → positive (binary_round_aux prec emax false m e l)).
Proof.
  intros Hm. unfold binary_round_aux.
  destruct (shr_fexp_sign m e l Hm) as [H1 H1'].
  destruct (shr_fexp prec emax m e l) as [mrs' e'] eqn:E1. simpl in *.
  set (m' := round_nearest_even (shr_m mrs') (loc_of_shr_record mrs')).
  destruct (round_nearest_even_sign (shr_m mrs') (loc_of_shr_record mrs'))
    as [Hr Hr'].
  destruct (shr_fexp_sign m' e' loc_Exact (Hr H1)) as [H2 H2'].
  destruct (shr_fexp prec emax m' e' loc_Exact) as [mrs'' e''] eqn:E2.
  simpl in *. split.
  - destruct (shr_m mrs''); [done| |lia]. by destruct (_ <=? _).
  - intros Hpos He. destruct (H1' Hpos He) as [Hp1 He1].
    destruct (H2' (Hr' Hp1) He1) as [Hp2 _].
    destruct (shr_m mrs''); [lia| |lia]. by destruct (_ <=? _).
Qed.

Lemma shl_align_exp mx ex ex' :
  (shl_align mx ex ex').2 = Z.min ex ex'.
Proof.
  unfold shl_align. destruct (ex' - ex) eqn:E; simpl; lia.
Qed.

Lemma binary_round_sign mx ex :
  nonneg (binary_round prec emax false mx ex) ∧
  (emin ≤ ex → positive (binary_round prec emax false mx ex)).
Proof.
  unfold binary_round.
  pose proof (shl_align_exp mx ex
                (fexp prec emax (Zpos (digits2_pos mx) + ex))) as He.
  destruct (shl_align mx ex _) as [mz ez]. simpl in He.
  destruct (binary_round_aux_sign (Zpos mz) ez loc_Exact) as [H1 H2]; [lia|].
  split; [done|]. intros Hex. apply H2; [lia|].
  subst ez. unfold fexp, SpecFloat.emin, prec, emax in *. lia.
Qed.

Lemma binary_normalize_sign m e :
  0 ≤ m →
  nonneg (binary_normalize prec emax m e false) ∧
  (0 < m → emin ≤ e → positive (binary_normalize prec emax m e false)).
Proof.
  intros Hm. destruct m as [|p|p]; simpl; [split; [done|lia]| |lia].
  destruct (binary_round_sign p e). split; [done|]. auto.
Qed.


(** *** Comparison of valid numbers *)

Lemma valid_finite s m e :
  valid_binary (S754_finite s m e) = true →
  emin ≤ e ∧ Zpos (digits2_pos m) ≤ prec ∧
  (emin < e → Zpos (digits2_pos m) = prec).
Proof.
  simpl. unfold bounded, canonical_mantissa, fexp, SpecFloat.emin, prec, emax.
  intros [H1 _]%andb_prop. apply Z.eqb_eq in H1. lia.
Qed.

Lemma shl_align_same mx ex : shl_align mx ex ex = (mx, ex).
Proof. unfold shl_align. by rewrite Z.sub_diag. Qed.

Lemma shl_align_digits mx ex ex' :
  ex' ≤ ex →
  Zpos (digits2_pos (shl_align mx ex ex').1) =
    Zpos (digits2_pos mx) + (ex - ex').
Proof.
  intros Hle. unfold shl_align. destruct (ex' - ex) as [|d|d] eqn:E; simpl.
  - lia.
  - lia.
  - rewrite digits2_iter_xO. lia.
Qed.

(** Two valid positive numbers compare as their mantissas do once
    aligned on the smaller exponent. *)
Lemma compare_aligned ma ea mb eb :
  valid_binary (S754_finite false ma ea) = true →
  valid_binary (S754_finite false mb eb) = true →
  SFcompare (S754_finite false ma ea) (S754_finite false mb eb) =
    Some (Zpos (shl_align ma ea (Z.min eb ea)).1
            ?= Zpos (shl_align mb eb (Z.min eb ea)).1).
Proof.
  intros Ha Hb. cbn [SFcompare]. f_equal.
  destruct (valid_finite _ _ _ Ha) as (Hea & Hda & Hna).
  destruct (valid_finite _ _ _ Hb) as (Heb & Hdb & Hnb).
  destruct (Z.compare_spec ea eb) as [->|Hlt|Hgt].
  - rewrite Z.min_id, !shl_align_same. reflexivity.
  - rewrite Z.min_r by lia. rewrite shl_align_same. cbn [fst].
    symmetry. apply Z.compare_lt_iff, digits2_lt.
    rewrite shl_align_digits by lia. lia.
  - rewrite Z.min_l by lia. rewrite shl_align_same. cbn [fst].
    symmetry. apply Z.compare_gt_iff, digits2_lt.
    rewrite shl_align_digits by lia. lia.
Qed.

Lemma binary_round_aux_shape sx m e l :
  match binary_round_aux prec emax sx m e l with
  | S754_zero s | S754_finite s _ _ | S754_infinity s => s = sx
  | S754_nan => True
  end.
Proof.
  unfold binary_round_aux.
  destruct (shr_fexp prec emax m e l) as [mrs' e'].
  destruct (shr_fexp prec emax _ e' loc_Exact) as [mrs'' e''].
  destruct (shr_m mrs''); [done| |done]. by destruct (_ <=? _).
Qed.

Lemma SFltb_zero_negative x :
  match x with
  | S754_zero _ | S754_nan => True
  | S754_finite s _ _ | S754_infinity s => s = true
  end →
  SFltb (S754_zero false) x = false.
Proof. destruct x as [| | |? ? ?]; try done; by intros ->. Qed.

Lemma SFltb_zero_positive x :
  positive x → SFltb (S754_zero false) x = true.
Proof. by destruct x as [|[]| |[] ? ?]. Qed.

(** The sign of a difference tells the order of its operands. *)
Lemma SFsub_sign a b :
  nonneg a → nonneg b →
  valid_binary a = true → valid_binary b = true →
  SFltb (S754_zero false) (SF64sub b a) = SFltb a b.
Proof.
  intros Ha Hb Hva Hvb.
  destruct a as [[]|[]| |[] ma ea], b as [[]|[]| |[] mb eb]; try done.
  unfold SF64sub, SFsub, SFltb. rewrite compare_aligned by done.
  unfold cond_Zopp.
  set (ma' := (shl_align ma ea (Z.min eb ea)).1).
  set (mb' := (shl_align mb eb (Z.min eb ea)).1).
  destruct (valid_finite _ _ _ Hva) as (Hea & _).
  destruct (valid_finite _ _ _ Hvb) as (Heb & _).
  destruct (Z.compare_spec (Zpos ma') (Zpos mb')) as [Heq|Hlt|Hgt].
  - by rewrite Heq, Z.sub_diag.
  - apply SFltb_zero_positive.
    apply binary_normalize_sign; [lia|lia|]. lia.
  - apply SFltb_zero_negative.
    destruct (Zpos mb' - Zpos ma') as [|p|p] eqn:E; [lia|lia|]. simpl.
    unfold binary_round. destruct (shl_align p _ _) as [mz ez].
    pose proof (binary_round_aux_shape true (Zpos mz) ez loc_Exact) as H.
    by destruct (binary_round_aux _ _ _ _ _ _).
Qed.

(** *** The order on the non-negative numbers *)

Definition code (x : spec_float) : Z * Z * Z :=
  match x with
  | S754_zero _ => (0, 0, 0)
  | S754_finite _ m e => (1, e, Zpos m)
  | S754_infinity _ => (2, 0, 0)
  | S754_nan => (3, 0, 0)
  end.

Definition lex (p q : Z * Z * Z) : comparison :=
  match p.1.1 ?= q.1.1 with
  | Eq => match p.1.2 ?= q.1.2 with
          | Eq => p.2 ?= q.2
          | c => c
          end
  | c => c
  end.

Lemma SFcompare_code a b :
  nonneg a → nonneg b → SFcompare a b = Some (lex (code a) (code b)).
Proof.
  by destruct a as [[]|[]| |[] ma ea], b as [[]|[]| |[] mb eb].
Qed.

Ltac order_by_code :=
  unfold SFltb, SFeqb;
  repeat match goal with
         | Ha : nonneg ?a, Hb : nonneg ?b |- context [SFcompare ?a ?b] =>
             rewrite (SFcompare_code a b Ha Hb)
         | Ha : nonneg ?a, Hb : nonneg ?b,
           H : context [SFcompare ?a ?b] |- _ =>
             rewrite (SFcompare_code a b Ha Hb) in H
         end;
  repeat match goal with
         | H : nonneg ?a |- _ =>
             generalize (code a); clear H; intros [[? ?] ?]
         end;
  unfold lex; simpl;
  repeat match goal with
         | |- context [?x ?= ?y] => destruct (Z.compare_spec x y)
         | H : context [?x ?= ?y] |- _ => destruct (Z.compare_spec x y)
         end;
  try done; try lia; auto.

Lemma SFltb_total a b :
  nonneg a → nonneg b →
  SFltb a b = false → SFltb b a = true ∨ SFeqb a b = true.
Proof. intros Ha Hb. order_by_code. Qed.

Lemma SFltb_le_trans x y z :
  nonneg x → nonneg y → nonneg z →
  SFltb z y = true → SFltb x y = false → SFltb z x = true.
Proof. intros Hx Hy Hz. order_by_code. Qed.

Lemma SFeqb_le_trans x y z :
  nonneg x → nonneg y → nonneg z →
  SFeqb y z = true → SFltb x y = false → SFltb x z = false.
Proof. intros Hx Hy Hz. order_by_code. Qed.


(** *** The numbers of the fusion step *)

Local Open Scope float_scope.

(** [ok x]: [x] is [+0], a positive number or [+Infinity]. *)
Definition ok (x : float) : Prop := nonneg (Prim2SF x).

Lemma ok_of_uint63 i : ok (of_uint63 i).
Proof.
  unfold ok. rewrite FloatAxioms.of_uint63_spec. apply binary_normalize_sign.
  pose proof (Uint63.to_Z_bounded i). lia.
Qed.

Lemma SFdiv_core_nonneg m1 e1 m2 e2 :
  (0 ≤ (SFdiv_core_binary prec emax (Zpos m1) e1 (Zpos m2) e2).1.1)%Z.
Proof.
  unfold SFdiv_core_binary.
  set (s := (e1 - e2 - _)%Z).
  set (m' := match s with
             | 0%Z => Zpos m1 | Zpos _ => Z.shiftl (Zpos m1) s | Zneg _ => 0%Z
             end).
  assert (0 ≤ m')%Z as Hm'.
  { unfold m'. destruct s; [lia| |lia]. apply Z.shiftl_nonneg. lia. }
  pose proof (Z.div_pos m' (Zpos m2) Hm' ltac:(lia)) as Hq.
  unfold Z.div in Hq. by destruct (Z.div_eucl m' (Zpos m2)).
Qed.

Lemma ok_div_one x : ok x → ok (1 / x).
Proof.
  unfold ok. rewrite FloatAxioms.div_spec.
  change (Prim2SF 1) with (S754_finite false 4503599627370496 (-52)).
  destruct (Prim2SF x) as [[]|[]| |[] m e]; try done. intros _.
  unfold SF64div, SFdiv.
  pose proof (SFdiv_core_nonneg 4503599627370496 (-52) m e) as Hq.
  destruct (SFdiv_core_binary _ _ _ _ _ _) as [[mz ez] lz]. simpl in Hq.
  by apply binary_round_aux_sign.
Qed.

Lemma ok_add a b : ok a → ok b → ok (a + b).
Proof.
  unfold ok. rewrite FloatAxioms.add_spec.
  destruct (Prim2SF a) as [[]|[]| |[] ma ea], (Prim2SF b) as [[]|[]| |[] mb eb];
    try done.
  intros _ _. unfold SF64add, SFadd. apply binary_normalize_sign.
  unfold cond_Zopp. lia.
Qed.

(** [0 < b - a] exactly when [a < b]. *)
Lemma sub_sign a b : ok a → ok b → (0 <? b - a) = (a <? b).
Proof.
  intros Ha Hb. rewrite !FloatAxioms.ltb_spec, FloatAxioms.sub_spec.
  change (Prim2SF 0) with (S754_zero false).
  apply SFsub_sign; try done; apply Prim2SF_valid.
Qed.

Lemma ltb_total a b :
  ok a → ok b → (a <? b) = false → (b <? a) = true ∨ (a =? b) = true.
Proof. rewrite !FloatAxioms.ltb_spec, FloatAxioms.eqb_spec. apply SFltb_total. Qed.

Lemma ltb_le_trans x y z :
  ok x → ok y → ok z →
  (z <? y) = true → (x <? y) = false → (z <? x) = true.
Proof. rewrite !FloatAxioms.ltb_spec. apply SFltb_le_trans. Qed.

Lemma eqb_le_trans x y z :
  ok x → ok y → ok z →
  (y =? z) = true → (x <? y) = false → (x <? z) = false.
Proof. rewrite !FloatAxioms.ltb_spec, FloatAxioms.eqb_spec. apply SFeqb_le_trans. Qed.

End Number.

(** ** Hybrid search ([src/search.ts]) *)

(** [SearchResult] of [db.ts]; the native similarity [score] is optional. *)
Module SearchResult.
Record t : Type :=
  mk { title : string; content : string; score : option float }.
End SearchResult.

(** The value type of the [scores] map of [hybridSearch]:
    [{ score: number; title: string; content: string }]. *)
Module Fused.
Record t : Type := mk { score : float; title : string; content : string }.
End Fused.

Module Search.

(** [const k = 60; // RRF parameter] *)
Definition k : nat := 60.

(** [const key = `${result.title}::${result.content}`] *)
Definition fusion_key (result : SearchResult.t) : string :=
  SearchResult.title result +:+ "::" +:+ SearchResult.content result.

(** The number [k + idx]: array indices are below [2^32], and an integer
    below [2^53] is a number without rounding. *)
Definition number_of_nat (n : nat) : float :=
  of_uint63 (Uint63.of_Z (Z.of_nat n)).

(** [const rrfScore = 1 / (k + idx)] *)
Definition rrfScore (idx : nat) : float :=
  (1 / number_of_nat (k + idx))%float.

#[global] Arguments number_of_nat : simpl never.
#[global] Arguments rrfScore : simpl never.

(** The callback passed to [forEach], the same for both result lists:
    add the reciprocal-rank term to the entry stored under the key, or
    create the entry from the current result. *)
Definition accumulate (scores : JsMap.t Fused.t) (result : SearchResult.t)
    (idx : nat) : JsMap.t Fused.t :=
  let key := fusion_key result in
  match JsMap.get scores key with
  | Some existing =>
      JsMap.set scores key
        (Fused.mk (Fused.score existing + rrfScore idx)%float
                  (Fused.title existing) (Fused.content existing))
  | None =>
      JsMap.set scores key
        (Fused.mk (rrfScore idx)
                  (SearchResult.title result) (SearchResult.content result))
  end.

(** [array.forEach((result, idx) => ...)] threading the mutated map. *)
Fixpoint forEach {A St : Type} (f : St → A → nat → St) (l : list A)
    (idx : nat) (s : St) : St :=
  match l with
  | [] => s
  | x :: l' => forEach f l' (S idx) (f s x idx)
  end.

(** The map after both passes (lines "Process vector results" and
    "Process text results"). *)
Definition fused_scores (vectorResults textResults : list SearchResult.t)
    : JsMap.t Fused.t :=
  forEach accumulate textResults 0
    (forEach accumulate vectorResults 0 JsMap.empty).

(** [(a, b) => b.score - a.score] *)
Definition comparator (a b : Fused.t) : float :=
  (Fused.score b - Fused.score a)%float.

(** [Array.prototype.sort] is stable (ECMAScript 2019): [b] goes before
    [a] only when [comparator(a, b)] is positive; elements that the
    comparator does not order ([0], [-0] or [NaN]) keep their relative
    position.  For a consistent comparator the result is unique; it is
    computed here by insertion, each element going before the first one
    it does not follow. *)
Fixpoint insert_by {A} (cmp : A → A → float) (x : A) (l : list A) : list A :=
  match l with
  | [] => [x]
  | y :: l' =>
      if (0 <? cmp x y)%float then y :: insert_by cmp x l' else x :: y :: l'
  end.

Definition sort {A} (cmp : A → A → float) (l : list A) : list A :=
  foldr (insert_by cmp) [] l.

(** [.map(({ title, content, score }) => ({ title, content, score }))] *)
Definition to_result (e : Fused.t) : SearchResult.t :=
  SearchResult.mk (Fused.title e) (Fused.content e) (Some (Fused.score e)).

(** The fusion step of [hybridSearch], from the two awaited result lists
    to the returned array.  [limit] is a natural number: the store
    rejects a negative [LIMIT] before fusion is reached. *)
Definition fuse (vectorResults textResults : list SearchResult.t)
    (limit : nat) : list SearchResult.t :=
  to_result <$>
    take limit (sort comparator
                  (JsMap.values (fused_scores vectorResults textResults))).

(** The collaborators of [hybridSearch]: the embedding model and the two
    store queries; [None] stands for a rejected promise. *)
Record Env : Type := {
  generateEmbedding : string → option (list Q);
  vectorSearch : list Q → nat → option (list SearchResult.t);
  textSearch : string → nat → option (list SearchResult.t);
}.

(** [hybridSearch(query, limit)]: embed, run both searches
    ([Promise.all] rejects when either does), fuse. *)
Definition hybridSearch (env : Env) (query : string) (limit : nat)
    : option (list SearchResult.t) :=
  queryEmbedding ← generateEmbedding env query;
  vectorResults ← vectorSearch env queryEmbedding limit;
  textResults ← textSearch env query limit;
  Some (fuse vectorResults textResults limit).

(** *** Specification vocabulary *)

(** 0-based position of the first element equal to [key]. *)
Fixpoint index_of (keys : list string) (key : string) : option nat :=
  match keys with
  | [] => None
  | k' :: keys' =>
      if decide (k' = key) then Some 0 else S <$> index_of keys' key
  end.

(** Rank of an item (identified by its fusion key) in a result list. *)
Definition rank (l : list SearchResult.t) (key : string) : option nat :=
  index_of (fusion_key <$> l) key.

(** The score the specification gives to an item: one term [1/(60+rank)]
    for each list in which it appears. *)
Definition rrf_spec_score (vectorResults textResults : list SearchResult.t)
    (key : string) : option float :=
  match rank vectorResults key, rank textResults key with
  | Some i, Some j => Some (rrfScore i + rrfScore j)%float
  | Some i, None => Some (rrfScore i)
  | None, Some j => Some (rrfScore j)
  | None, None => None
  end.

(** The tie-break order of the specification: an item of the vector list
    goes by its vector rank and precedes every item absent from it;
    items absent from the vector list go by their lexical rank. *)
Definition tie_before (vectorResults textResults : list SearchResult.t)
    (a b : string) : Prop :=
  match rank vectorResults a, rank vectorResults b with
  | Some i, Some j => i < j
  | Some _, None => True
  | None, Some _ => False
  | None, None =>
      match rank textResults a, rank textResults b with
      | Some i, Some j => i < j
      | _, _ => False
      end
  end.

(** The reciprocal-rank terms a list contributes to a key, in order of
    position, with positions starting at [idx]. *)
Fixpoint terms (l : list SearchResult.t) (idx : nat) (key : string)
    : list float :=
  match l with
  | [] => []
  | result :: l' =>
      if decide (fusion_key result = key)
      then rrfScore idx :: terms l' (S idx) key
      else terms l' (S idx) key
  end.

(** Keys in order of first occurrence. *)
Fixpoint first_occurrences (keys : list string) : list string :=
  match keys with
  | [] => []
  | k' :: keys' => k' :: filter (λ x, x ≠ k') (first_occurrences keys')
  end.

(** The first result of a list that carries a given key. *)
Fixpoint first_with (l : list SearchResult.t) (key : string)
    : option SearchResult.t :=
  match l with
  | [] => None
  | result :: l' =>
      if decide (fusion_key result = key) then Some result
      else first_with l' key
  end.

(** What a pass over [l] makes of the entry stored under [key]. *)
Definition absorb (o : option Fused.t) (l : list SearchResult.t) (idx : nat)
    (key : string) : option Fused.t :=
  match o with
  | Some e =>
      Some (Fused.mk (fold_left PrimFloat.add (terms l idx key) (Fused.score e))
                     (Fused.title e) (Fused.content e))
  | None =>
      match first_with l key, terms l idx key with
      | Some r, t :: ts =>
          Some (Fused.mk (fold_left PrimFloat.add ts t)
                         (SearchResult.title r) (SearchResult.content r))
      | _, _ => None
      end
  end.

(** The key under which an entry of the map is stored. *)
Definition fused_key (e : Fused.t) : string :=
  Fused.title e +:+ "::" +:+ Fused.content e.

Definition push_new (keys : list string) (key : string) : list string :=
  if decide (key ∈ keys) then keys else keys ++ [key].

(** [a] occurs in [keys], and its first occurrence is before that of [b]. *)
Definition occurs_before (keys : list string) (a b : string) : Prop :=
  ∃ i j, index_of keys a = Some i ∧ index_of keys b = Some j ∧ i < j.

(** The order of the returned array: by computed score descending, equal
    computed scores in the tie-break order. *)
Definition ranked_before (vectorResults textResults : list SearchResult.t)
    (a b : SearchResult.t) : Prop :=
  ∃ sa sb,
    SearchResult.score a = Some sa ∧ SearchResult.score b = Some sb ∧
    ((sb <? sa)%float = true ∨
     ((sa =? sb)%float = true ∧
      tie_before vectorResults textResults (fusion_key a) (fusion_key b))).

(** *** Facts about [index_of], [terms] and [first_occurrences] *)

Lemma index_of_lt keys key i : index_of keys key = Some i → i < length keys.
Proof.
  revert i. induction keys as [|k' keys IH]; intros i; simpl; [done|].
  destruct (decide (k' = key)).
  - intros [= <-]. lia.
  - destruct (index_of keys key) as [j|] eqn:E; simpl; [|done].
    intros [= <-]. specialize (IH j eq_refl). lia.
Qed.

Lemma index_of_None keys key : index_of keys key = None ↔ key ∉ keys.
Proof.
  induction keys as [|k' keys IH]; simpl.
  - split; [intros _; apply not_elem_of_nil|done].
  - rewrite not_elem_of_cons. destruct (decide (k' = key)) as [->|Hne].
    + split; [done|]. by intros [? _].
    + destruct (index_of keys key); simpl.
      * split; [done|]. intros [_ Hn]. by apply IH in Hn.
      * split; [|done]. intros _. split; [done|by apply IH].
Qed.

Lemma index_of_is_Some keys key : key ∈ keys → is_Some (index_of keys key).
Proof.
  intros Hin. destruct (index_of keys key) eqn:E; [by eexists|].
  by apply index_of_None in E.
Qed.

Lemma index_of_app keys1 keys2 key :
  index_of (keys1 ++ keys2) key =
    match index_of keys1 key with
    | Some i => Some i
    | None => (λ j, length keys1 + j) <$> index_of keys2 key
    end.
Proof.
  induction keys1 as [|k' keys1 IH]; simpl.
  - by destruct (index_of keys2 key).
  - destruct (decide (k' = key)); [done|]. rewrite IH.
    destruct (index_of keys1 key); simpl; [done|].
    by destruct (index_of keys2 key).
Qed.

Lemma terms_absent l idx key :
  key ∉ fusion_key <$> l → terms l idx key = [].
Proof.
  revert idx. induction l as [|r l IH]; intros idx; simpl; [done|].
  rewrite not_elem_of_cons. intros [Hne Hnin].
  rewrite decide_False by done. by apply IH.
Qed.

(** With distinct keys a list contributes at most one term, the one of
    the key's rank. *)
Lemma terms_NoDup l idx key :
  NoDup (fusion_key <$> l) →
  terms l idx key =
    match rank l key with Some i => [rrfScore (idx + i)] | None => [] end.
Proof.
  unfold rank. revert idx. induction l as [|r l IH]; intros idx; simpl.
  { done. }
  rewrite NoDup_cons. intros [Hnin Hnd].
  destruct (decide (fusion_key r = key)) as [<-|Hne].
  - rewrite terms_absent by done. by rewrite Nat.add_0_r.
  - rewrite IH by done. destruct (index_of _ key); simpl; [|done].
    do 2 f_equal. lia.
Qed.

Lemma first_with_key l key r : first_with l key = Some r → fusion_key r = key.
Proof.
  induction l as [|r' l IH]; simpl; [done|].
  destruct (decide (fusion_key r' = key)); [by intros [= <-]|done].
Qed.

Lemma first_with_None l key :
  first_with l key = None ↔ rank l key = None.
Proof.
  unfold rank. induction l as [|r' l IH]; simpl; [done|].
  destruct (decide (fusion_key r' = key)); [done|].
  rewrite IH. by destruct (index_of _ key).
Qed.

Lemma first_occurrences_elem keys key :
  key ∈ first_occurrences keys ↔ key ∈ keys.
Proof.
  induction keys as [|k' keys IH]; simpl; [done|].
  rewrite !elem_of_cons, list_elem_of_filter, IH.
  destruct (decide (key = k')); naive_solver.
Qed.

Lemma first_occurrences_NoDup keys : NoDup (first_occurrences keys).
Proof.
  induction keys as [|k' keys IH]; simpl; [constructor|].
  apply NoDup_cons. split.
  - rewrite list_elem_of_filter. naive_solver.
  - by apply NoDup_filter.
Qed.
Lemma filter_strongly_sorted {A} (R R' : relation A) (P : A → Prop)
    `{∀ x, Decision (P x)} (l : list A) :
  (∀ a b, R a b → P a → P b → R' a b) →
  StronglySorted R l → StronglySorted R' (filter P l).
Proof.
  intros HR. induction 1 as [|x l Hl IH Hx]; [constructor|].
  rewrite filter_cons. destruct (decide (P x)) as [HP|]; [|done].
  constructor; [done|]. apply Forall_forall. intros y Hy.
  apply list_elem_of_filter in Hy as [HPy Hy].
  rewrite Forall_forall in Hx. by apply HR; [apply Hx| |].
Qed.

Lemma filter_all {A} (P : A → Prop) `{∀ x, Decision (P x)} (l : list A) :
  (∀ x, P x) → filter P l = l.
Proof.
  intros HP. induction l as [|x l IH]; [done|].
  rewrite filter_cons_True by done. by rewrite IH.
Qed.

(** [first_occurrences] lists the keys by increasing first position. *)
Lemma first_occurrences_sorted keys :
  StronglySorted (occurs_before keys) (first_occurrences keys).
Proof.
  induction keys as [|k' keys IH]; simpl; [constructor|].
  constructor.
  - eapply filter_strongly_sorted; [|exact IH].
    intros a b (i & j & Ha & Hb & Hlt) Hak Hbk. exists (S i), (S j).
    simpl. rewrite !decide_False by done. rewrite Ha, Hb. simpl.
    split_and!; [done|done|lia].
  - apply Forall_forall. intros y Hy.
    apply list_elem_of_filter in Hy as [Hne Hy].
    apply (proj1 (first_occurrences_elem _ _)) in Hy.
    apply index_of_is_Some in Hy as [j Hj].
    exists 0, (S j). simpl. rewrite decide_True by done.
    rewrite decide_False by done. rewrite Hj. simpl.
    split_and!; [done|done|lia].
Qed.

Lemma fold_push_new keys ks :
  fold_left push_new keys ks =
    ks ++ filter (λ x, x ∉ ks) (first_occurrences keys).
Proof.
  revert ks. induction keys as [|k' keys IH]; intros ks; simpl.
  { by rewrite app_nil_r. }
  rewrite IH. unfold push_new. rewrite filter_cons.
  destruct (decide (k' ∈ ks)) as [Hin|Hnin].
  - rewrite decide_False by (by intros ?). f_equal.
    rewrite list_filter_filter. apply list_filter_iff.
    intros x. split; [|by intros [? _]]. intros Hx. split; [done|].
    by intros ->.
  - rewrite decide_True by done. rewrite <-app_assoc. simpl. do 2 f_equal.
    rewrite list_filter_filter. apply list_filter_iff.
    intros x. rewrite not_elem_of_app, not_elem_of_cons.
    split; [intros (? & ? & _)|intros [? ?]]; split_and?; try done.
    apply not_elem_of_nil.
Qed.

(** *** The [scores] map after a pass *)

Lemma keys_accumulate scores result idx :
  JsMap.keys (accumulate scores result idx) =
    push_new (JsMap.keys scores) (fusion_key result).
Proof.
  unfold accumulate, push_new.
  destruct (JsMap.get scores (fusion_key result)) as [e|] eqn:E.
  - assert (fusion_key result ∈ JsMap.keys scores) as Hin.
    { destruct (decide (fusion_key result ∈ JsMap.keys scores)); [done|].
      apply JsMap.get_None in n. congruence. }
    rewrite decide_True by done. by apply JsMap.keys_set_present.
  - apply JsMap.get_None in E. rewrite decide_False by done.
    by apply JsMap.keys_set_absent.
Qed.

Lemma keys_forEach l idx scores :
  JsMap.keys (forEach accumulate l idx scores) =
    fold_left push_new (fusion_key <$> l) (JsMap.keys scores).
Proof.
  revert idx scores. induction l as [|r l IH]; intros idx scores; simpl.
  { done. }
  by rewrite IH, keys_accumulate.
Qed.

(** Iteration order of the map: the keys of the vector list, then those
    of the text list, each at its first occurrence. *)
Lemma keys_fused_scores vectorResults textResults :
  JsMap.keys (fused_scores vectorResults textResults) =
    first_occurrences
      ((fusion_key <$> vectorResults) ++ (fusion_key <$> textResults)).
Proof.
  unfold fused_scores. rewrite !keys_forEach.
  rewrite <-fold_left_app, fold_push_new. simpl.
  apply filter_all. intros x. apply not_elem_of_nil.
Qed.

Lemma get_forEach l idx scores key :
  JsMap.get (forEach accumulate l idx scores) key =
    absorb (JsMap.get scores key) l idx key.
Proof.
  revert idx scores. induction l as [|r l IH]; intros idx scores; simpl.
  { unfold absorb. simpl. by destruct (JsMap.get scores key) as [[]|]. }
  rewrite IH. unfold accumulate, absorb. simpl.
  destruct (decide (fusion_key r = key)) as [<-|Hne].
  - destruct (JsMap.get scores (fusion_key r)) as [e|] eqn:E;
      by rewrite JsMap.get_set_eq.
  - destruct (JsMap.get scores (fusion_key r)) as [e|] eqn:E;
      by rewrite JsMap.get_set_ne.
Qed.

Lemma get_fused_scores vectorResults textResults key :
  JsMap.get (fused_scores vectorResults textResults) key =
    absorb (absorb None vectorResults 0 key) textResults 0 key.
Proof. unfold fused_scores. by rewrite !get_forEach. Qed.

(** Every entry is stored under the key built from its own title and
    content. *)
Lemma fused_scores_key vectorResults textResults key e :
  JsMap.get (fused_scores vectorResults textResults) key = Some e →
  fused_key e = key.
Proof.
  rewrite get_fused_scores. unfold absorb, fused_key.
  destruct (first_with vectorResults key) as [r|] eqn:Ev.
  - apply first_with_key in Ev.
    destruct (terms vectorResults 0 key) as [|t ts].
    + destruct (first_with textResults key) as [r'|] eqn:Et; [|done].
      apply first_with_key in Et.
      destruct (terms textResults 0 key); [done|]. by intros [= <-].
    + by intros [= <-].
  - destruct (first_with textResults key) as [r'|] eqn:Et; [|done].
    apply first_with_key in Et.
    destruct (terms textResults 0 key); [done|]. by intros [= <-].
Qed.

Lemma fused_scores_NoDup vectorResults textResults :
  NoDup (JsMap.keys (fused_scores vectorResults textResults)).
Proof. rewrite keys_fused_scores. apply first_occurrences_NoDup. Qed.

Lemma fused_scores_entry vectorResults textResults key e :
  (key, e) ∈ fused_scores vectorResults textResults →
  JsMap.get (fused_scores vectorResults textResults) key = Some e ∧
  fused_key e = key.
Proof.
  intros Hin.
  assert (JsMap.get (fused_scores vectorResults textResults) key = Some e)
    as Hget by (apply JsMap.elem_get_Some;
                [apply fused_scores_NoDup|done]).
  split; [done|]. by eapply fused_scores_key.
Qed.

Lemma keys_values_fused vectorResults textResults :
  JsMap.keys (fused_scores vectorResults textResults) =
    fused_key <$> JsMap.values (fused_scores vectorResults textResults).
Proof.
  unfold JsMap.keys, JsMap.values. rewrite <-list_fmap_compose.
  apply Forall_fmap_ext_1. apply Forall_forall. intros [key e] Hin.
  apply fused_scores_entry in Hin as [_ Hk]. by simpl.
Qed.

(** *** The scores are numbers that the comparator orders *)

Lemma rrfScore_ok idx : Number.ok (rrfScore idx).
Proof. apply Number.ok_div_one, Number.ok_of_uint63. Qed.

Lemma terms_ok l idx key : Forall Number.ok (terms l idx key).
Proof.
  revert idx. induction l as [|r l IH]; intros idx; simpl; [constructor|].
  destruct (decide (fusion_key r = key)); [|apply IH].
  constructor; [apply rrfScore_ok|apply IH].
Qed.

Lemma fold_add_ok ts (a : float) :
  Forall Number.ok ts → Number.ok a → Number.ok (fold_left PrimFloat.add ts a).
Proof.
  revert a. induction ts as [|t ts IH]; intros a Hts Ha; simpl; [done|].
  apply Forall_cons in Hts as [Ht Hts]. apply IH; [done|].
  by apply Number.ok_add.
Qed.

Lemma absorb_ok o l idx key e :
  (∀ e0, o = Some e0 → Number.ok (Fused.score e0)) →
  absorb o l idx key = Some e → Number.ok (Fused.score e).
Proof.
  intros Ho. unfold absorb. pose proof (terms_ok l idx key) as Hts.
  destruct o as [e0|].
  - intros [= <-]. simpl. apply fold_add_ok; [done|by apply Ho].
  - destruct (first_with l key); [|done].
    destruct (terms l idx key) as [|t0 ts]; [done|].
    apply Forall_cons in Hts as [Ht0 Hts]. intros [= <-]. simpl.
    by apply fold_add_ok.
Qed.

Lemma fused_scores_ok vectorResults textResults :
  Forall (λ e, Number.ok (Fused.score e))
         (JsMap.values (fused_scores vectorResults textResults)).
Proof.
  apply Forall_forall. intros e Hin. unfold JsMap.values in Hin.
  apply list_elem_of_fmap in Hin as ([key e'] & -> & Hin). simpl.
  apply fused_scores_entry in Hin as [Hget _].
  rewrite get_fused_scores in Hget.
  eapply absorb_ok; [|exact Hget]. intros e0 He0.
  eapply absorb_ok; [|exact He0]. done.
Qed.

(** *** The stable sort *)

Lemma insert_by_perm {A} (cmp : A → A → float) x l :
  insert_by cmp x l ≡ₚ x :: l.
Proof.
  induction l as [|y l IH]; simpl; [done|].
  destruct (0 <? cmp x y)%float; [|done].
  rewrite IH. apply Permutation_swap.
Qed.

Lemma sort_perm {A} (cmp : A → A → float) l : sort cmp l ≡ₚ l.
Proof.
  induction l as [|x l IH]; simpl; [done|].
  by rewrite insert_by_perm, IH.
Qed.

(** On scores the comparator is positive exactly when its first argument
    has the smaller score. *)
Lemma comparator_positive a b :
  Number.ok (Fused.score a) → Number.ok (Fused.score b) →
  (0 <? comparator a b)%float = (Fused.score a <? Fused.score b)%float.
Proof. intros Ha Hb. unfold comparator. by apply Number.sub_sign. Qed.

Section stable.
Context (before : relation Fused.t).

(** Descending score, ties in the order [before]. *)
Definition sorted_rel (a b : Fused.t) : Prop :=
  (Fused.score b <? Fused.score a)%float = true ∨
  ((Fused.score a =? Fused.score b)%float = true ∧ before a b).

Lemma insert_by_sorted x s :
  Number.ok (Fused.score x) →
  Forall (λ e, Number.ok (Fused.score e)) s →
  Forall (before x) s →
  StronglySorted sorted_rel s →
  StronglySorted sorted_rel (insert_by comparator x s).
Proof.
  intros Hok Hoks Hx Hs. induction Hs as [|y s Hs IH Hy]; simpl.
  { repeat constructor. }
  apply Forall_cons in Hx as [Hxy Hxs].
  apply Forall_cons in Hoks as [Hoky Hoks].
  rewrite comparator_positive by done.
  destruct (Fused.score x <? Fused.score y)%float eqn:E.
  - constructor; [by apply IH|].
    rewrite insert_by_perm. constructor; [by left|done].
  - constructor; [by constructor|].
    constructor.
    + destruct (Number.ltb_total _ _ Hok Hoky E) as [?|?];
        [by left|by right].
    + rewrite Forall_forall in Hy, Hxs, Hoks. apply Forall_forall.
      intros z Hz. specialize (Hy z Hz). specialize (Hxs z Hz).
      specialize (Hoks z Hz). destruct Hy as [Hlt|[Heq _]].
      * left. exact (Number.ltb_le_trans _ _ _ Hok Hoky Hoks Hlt E).
      * pose proof (Number.eqb_le_trans _ _ _ Hok Hoky Hoks Heq E) as E'.
        destruct (Number.ltb_total _ _ Hok Hoks E') as [?|?];
          [by left|by right].
Qed.

Lemma sort_sorted l :
  Forall (λ e, Number.ok (Fused.score e)) l →
  StronglySorted before l → StronglySorted sorted_rel (sort comparator l).
Proof.
  intros Hok. induction 1 as [|x l Hl IH Hx]; simpl; [constructor|].
  apply Forall_cons in Hok as [Hokx Hokl].
  apply insert_by_sorted; [done| | |by apply IH].
  - by rewrite sort_perm.
  - by rewrite sort_perm.
Qed.
End stable.

Lemma strongly_sorted_fmap_inv {A B} (f : A → B) (R : relation B) l :
  StronglySorted R (f <$> l) → StronglySorted (λ a b, R (f a) (f b)) l.
Proof.
  induction l as [|x l IH]; simpl; [constructor|].
  intros [Hx Hl]%StronglySorted_cons. constructor; [by apply IH|].
  rewrite Forall_fmap in Hx. done.
Qed.

Lemma strongly_sorted_take {A} (R : relation A) n l :
  StronglySorted R l → StronglySorted R (take n l).
Proof.
  intros Hl. rewrite <-(take_drop n l) in Hl.
  by apply StronglySorted_app_1_l in Hl.
Qed.

(** First position in the concatenated key lists is the tie-break order
    of the specification. *)
Lemma occurs_before_tie vectorResults textResults a b :
  occurs_before
    ((fusion_key <$> vectorResults) ++ (fusion_key <$> textResults)) a b →
  tie_before vectorResults textResults a b.
Proof.
  intros (i & j & Ha & Hb & Hlt). unfold tie_before, rank.
  rewrite index_of_app in Ha, Hb.
  destruct (index_of (fusion_key <$> vectorResults) a) as [ia|] eqn:Eva;
    destruct (index_of (fusion_key <$> vectorResults) b) as [ib|] eqn:Evb.
  - congruence.
  - done.
  - apply index_of_lt in Evb. injection Hb as ->.
    destruct (index_of (fusion_key <$> textResults) a); simpl in Ha;
      [|done].
    injection Ha as <-. lia.
  - destruct (index_of (fusion_key <$> textResults) a);
      destruct (index_of (fusion_key <$> textResults) b);
      simpl in Ha, Hb; try done.
    injection Ha as <-. injection Hb as <-. lia.
Qed.

(** The whole sorted array, before [slice(0, limit)]. *)
Definition ranking (vectorResults textResults : list SearchResult.t)
    : list SearchResult.t :=
  to_result <$>
    sort comparator (JsMap.values (fused_scores vectorResults textResults)).

Lemma fuse_take vectorResults textResults limit :
  fuse vectorResults textResults limit =
    take limit (ranking vectorResults textResults).
Proof. unfold fuse, ranking. by rewrite fmap_take. Qed.

Lemma ranking_keys vectorResults textResults :
  fusion_key <$> ranking vectorResults textResults ≡ₚ
    first_occurrences
      ((fusion_key <$> vectorResults) ++ (fusion_key <$> textResults)).
Proof.
  unfold ranking. rewrite <-list_fmap_compose.
  rewrite <-keys_fused_scores, keys_values_fused.
  apply fmap_Permutation, sort_perm.
Qed.

Lemma ranking_sorted vectorResults textResults :
  StronglySorted (ranked_before vectorResults textResults)
    (ranking vectorResults textResults).
Proof.
  unfold ranking.
  set (keys := (fusion_key <$> vectorResults) ++
               (fusion_key <$> textResults)).
  eapply (StronglySorted_fmap to_result
            (sorted_rel (λ a b, occurs_before keys (fused_key a)
                                                   (fused_key b))));
    last first.
  - apply sort_sorted; [apply fused_scores_ok|].
    apply (strongly_sorted_fmap_inv fused_key (occurs_before keys)).
    rewrite <-keys_values_fused, keys_fused_scores.
    apply first_occurrences_sorted.
  - intros a b Hab. exists (Fused.score a), (Fused.score b).
    split_and!; [done|done|].
    destruct Hab as [?|[? Hocc]]; [by left|right]. split; [done|].
    by apply occurs_before_tie.
Qed.

(** The native similarity scores of the inputs play no part. *)
Definition strip (r : SearchResult.t) : SearchResult.t :=
  SearchResult.mk (SearchResult.title r) (SearchResult.content r) None.

Lemma forEach_strip l idx scores :
  forEach accumulate (strip <$> l) idx scores =
    forEach accumulate l idx scores.
Proof.
  revert idx scores. induction l as [|r l IH]; intros idx scores; simpl.
  { done. }
  by rewrite IH.
Qed.

(** The score stored for a key once both lists are processed. *)
Definition assigned_score (vectorResults textResults : list SearchResult.t)
    (key : string) : option float :=
  Fused.score <$> JsMap.get (fused_scores vectorResults textResults) key.

Lemma fuse_elem vectorResults textResults limit r :
  r ∈ fuse vectorResults textResults limit →
  ∃ e, r = to_result e ∧
       JsMap.get (fused_scores vectorResults textResults) (fusion_key r)
         = Some e.
Proof.
  unfold fuse. intros (e & -> & He)%list_elem_of_fmap.
  apply subseteq_take in He. rewrite sort_perm in He.
  apply list_elem_of_fmap in He as ([key e'] & -> & Hin).
  apply fused_scores_entry in Hin as [Hget Hkey]. simpl in *.
  exists e'. split; [done|]. by rewrite <-Hkey in Hget.
Qed.

Lemma assigned_score_NoDup vectorResults textResults key :
  NoDup (fusion_key <$> vectorResults) →
  NoDup (fusion_key <$> textResults) →
  assigned_score vectorResults textResults key =
    rrf_spec_score vectorResults textResults key.
Proof.
  intros Hv Ht. unfold assigned_score, rrf_spec_score.
  rewrite get_fused_scores. unfold absorb.
  rewrite !terms_NoDup by done.
  destruct (first_with vectorResults key) as [rv|] eqn:Ev;
    destruct (rank vectorResults key) as [i|] eqn:Rv;
    try (apply first_with_None in Rv; congruence);
    try (apply first_with_None in Ev; congruence);
    destruct (first_with textResults key) as [rt|] eqn:Et;
    destruct (rank textResults key) as [j|] eqn:Rt;
    try (apply first_with_None in Rt; congruence);
    try (apply first_with_None in Et; congruence);
    reflexivity.
Qed.

Lemma first_with_lookup l i r :
  NoDup (fusion_key <$> l) → l !! i = Some r →
  first_with l (fusion_key r) = Some r ∧ rank l (fusion_key r) = Some i.
Proof.
  unfold rank. revert i. induction l as [|r' l IH]; intros i; [done|].
  rewrite fmap_cons, NoDup_cons. intros [Hnin Hnd].
  cbn [first_with index_of]. destruct i as [|i]; simpl.
  - intros [= ->]. by rewrite !decide_True.
  - intros Hl. assert (fusion_key r' ≠ fusion_key r) as Hne.
    { intros Heq. apply Hnin. rewrite Heq.
      apply list_elem_of_fmap_2. by eapply list_elem_of_lookup_2. }
    rewrite !decide_False by done.
    destruct (IH i Hnd Hl) as [-> ->]. done.
Qed.

(** What [hybridSearch] returns is the fusion of what the two searches
    return: the statements about [fuse] below are statements about every
    result of [hybridSearch]. *)
Lemma hybridSearch_fuse env query limit results :
  hybridSearch env query limit = Some results ↔
    ∃ queryEmbedding vectorResults textResults,
      generateEmbedding env query = Some queryEmbedding ∧
      vectorSearch env queryEmbedding limit = Some vectorResults ∧
      textSearch env query limit = Some textResults ∧
      results = fuse vectorResults textResults limit.
Proof.
  unfold hybridSearch. split.
  - destruct (generateEmbedding env query) as [e|] eqn:He; [|done]. simpl.
    destruct (vectorSearch env e limit) as [v|] eqn:Hv; [|done]. simpl.
    destruct (textSearch env query limit) as [t|] eqn:Ht; [|done]. simpl.
    intros [= <-]. by exists e, v, t.
  - intros (e & v & t & -> & Hv & Ht & ->). simpl. rewrite Hv. simpl.
    by rewrite Ht.
Qed.

(** *** Reciprocal rank fusion: scores *)

(** C1 fails as stated: two rows of one result list that carry the same
    title and content are one key, and the item that appears in the
    vector list only is given two terms, [1/60 + 1/61]
    (0.033060109289617487), not the single term of its rank
    (0.016666666666666666). *)
Lemma rrf_score_duplicate_rows :
  let A := SearchResult.mk "A" "a" None in
  fuse [A; A] [] 20 =
    [SearchResult.mk "A" "a" (Some (rrfScore 0 + rrfScore 1)%float)] ∧
  rrf_spec_score [A; A] [] (fusion_key A) = Some (rrfScore 0) ∧
  (rrfScore 0 + rrfScore 1 =? rrfScore 0)%float = false ∧
  (rrfScore 0 <? rrfScore 0 + rrfScore 1)%float = true ∧
  ¬ (∀ r, r ∈ fuse [A; A] [] 20 →
          ∃ s s', SearchResult.score r = Some s ∧
                  rrf_spec_score [A; A] [] (fusion_key r) = Some s' ∧
                  (s =? s')%float = true).
Proof.
  simpl.
  split_and!; [by vm_compute|by vm_compute|by vm_compute|by vm_compute|].
  intros H.
  destruct (H (SearchResult.mk "A" "a" (Some (rrfScore 0 + rrfScore 1)%float)))
    as (s & s' & Hs & Hs' & Heq).
  { vm_compute. apply list_elem_of_here. }
  vm_compute in Hs, Hs'. injection Hs as <-. injection Hs' as <-.
  by vm_compute in Heq.
Qed.

(** C1 (amended): when no two results of the same list share the fusion
    key, the score assigned to an item is the sum, over the lists in
    which it appears, of [1 / (60 + rank)]: one term for an item of one
    list, both terms for an item of both lists, the division and the sum
    being those of the code, on numbers.  This holds for the score
    stored under every key and for every returned item. *)
Theorem rrf_score_distinct_keys vectorResults textResults limit :
  NoDup (fusion_key <$> vectorResults) →
  NoDup (fusion_key <$> textResults) →
  (∀ key, assigned_score vectorResults textResults key =
            rrf_spec_score vectorResults textResults key) ∧
  (∀ r, r ∈ fuse vectorResults textResults limit →
        SearchResult.score r =
          rrf_spec_score vectorResults textResults (fusion_key r)).
Proof.
  intros Hv Ht. split.
  - intros key. by apply assigned_score_NoDup.
  - intros r (e & -> & Hget)%fuse_elem.
    rewrite <-assigned_score_NoDup by done.
    unfold assigned_score. by rewrite Hget.
Qed.

(** The amended C1 at vector list [A, B] and lexical list [B, D]. *)
Lemma rrf_score_distinct_keys_witness :
  let A := SearchResult.mk "A" "a" None in
  let B := SearchResult.mk "B" "b" None in
  let D := SearchResult.mk "D" "d" None in
  assigned_score [A; B] [B; D] "A::a" = Some (rrfScore 0) ∧
  assigned_score [A; B] [B; D] "B::b" = Some (rrfScore 1 + rrfScore 0)%float ∧
  assigned_score [A; B] [B; D] "D::d" = Some (rrfScore 1) ∧
  assigned_score [A; B] [B; D] "C::c" = None.
Proof.
  intros A B D.
  assert (NoDup (fusion_key <$> [A; B])) as Hv
    by (apply (bool_decide_unpack _); by vm_compute).
  assert (NoDup (fusion_key <$> [B; D])) as Ht
    by (apply (bool_decide_unpack _); by vm_compute).
  destruct (rrf_score_distinct_keys [A; B] [B; D] 20 Hv Ht) as [H _].
  rewrite !H. by vm_compute.
Defined.

(** *** Reciprocal rank fusion: order *)

(** The reading of C7 on fractions: the fusion score of an item is the
    exact sum of its reciprocal-rank terms, and two items tie when these
    sums are equal. *)
Definition exact_term (idx : nat) : Q := 1 # Pos.of_nat (k + idx).

Definition exact_score (vectorResults textResults : list SearchResult.t)
    (key : string) : option Q :=
  match rank vectorResults key, rank textResults key with
  | Some i, Some j => Some (exact_term i + exact_term j)%Q
  | Some i, None => Some (exact_term i)
  | None, Some j => Some (exact_term j)
  | None, None => None
  end.

(** The order C7 claims under that reading: exact score descending, exact
    ties in the tie-break order. *)
Definition claimed_before (vectorResults textResults : list SearchResult.t)
    (a b : SearchResult.t) : Prop :=
  ∃ sa sb,
    exact_score vectorResults textResults (fusion_key a) = Some sa ∧
    exact_score vectorResults textResults (fusion_key b) = Some sb ∧
    ((sb < sa)%Q ∨
     ((sa == sb)%Q ∧
      tie_before vectorResults textResults (fusion_key a) (fusion_key b))).

(** Forty vector results with X at rank 12 and Y at rank 39, twenty-nine
    lexical results with Y at rank 6 and X at rank 28; the other rows
    are distinct notes that appear in one list only. *)
Definition filler (content : string) (i : nat) : SearchResult.t :=
  SearchResult.mk (String (ascii_of_nat (48 + i)) "") content None.

Definition tie_vector : list SearchResult.t :=
  <[12 := SearchResult.mk "X" "x" None]>
    (<[39 := SearchResult.mk "Y" "y" None]> (filler "v" <$> seq 0 40)).

Definition tie_text : list SearchResult.t :=
  <[6 := SearchResult.mk "Y" "y" None]>
    (<[28 := SearchResult.mk "X" "x" None]> (filler "t" <$> seq 0 29)).

(** C7 fails as stated when the fusion score is read as a fraction: X
    and Y have the same exact score, [1/72 + 1/88 = 1/99 + 1/66 = 5/198],
    and X has the better vector rank, so C7 puts X before Y.  The code
    adds the rounded terms: X gets 0.025252525252525252 and Y gets
    0.025252525252525256, and Y is returned first.  No key is repeated
    in either list. *)
Lemma exact_tie_ordered_by_rounding :
  NoDup (fusion_key <$> tie_vector) ∧
  NoDup (fusion_key <$> tie_text) ∧
  exact_score tie_vector tie_text "X::x" = Some ((1 # 72) + (1 # 88))%Q ∧
  exact_score tie_vector tie_text "Y::y" = Some ((1 # 99) + (1 # 66))%Q ∧
  ((1 # 72) + (1 # 88) == (1 # 99) + (1 # 66))%Q ∧
  tie_before tie_vector tie_text "X::x" "Y::y" ∧
  take 2 (fuse tie_vector tie_text 40) =
    [SearchResult.mk "Y" "y" (Some (rrfScore 39 + rrfScore 6)%float);
     SearchResult.mk "X" "x" (Some (rrfScore 12 + rrfScore 28)%float)] ∧
  (rrfScore 12 + rrfScore 28 <? rrfScore 39 + rrfScore 6)%float = true ∧
  ¬ StronglySorted (claimed_before tie_vector tie_text)
      (fuse tie_vector tie_text 40).
Proof.
  assert (rank tie_vector "X::x" = Some 12) as HvX by (by vm_compute).
  assert (rank tie_vector "Y::y" = Some 39) as HvY by (by vm_compute).
  assert (rank tie_text "X::x" = Some 28) as HtX by (by vm_compute).
  assert (rank tie_text "Y::y" = Some 6) as HtY by (by vm_compute).
  assert (take 2 (fuse tie_vector tie_text 40) =
    [SearchResult.mk "Y" "y" (Some (rrfScore 39 + rrfScore 6)%float);
     SearchResult.mk "X" "x" (Some (rrfScore 12 + rrfScore 28)%float)])
    as Htake by (by vm_compute).
  split_and!.
  - apply (bool_decide_unpack _). by vm_compute.
  - apply (bool_decide_unpack _). by vm_compute.
  - unfold exact_score. by rewrite HvX, HtX.
  - unfold exact_score. by rewrite HvY, HtY.
  - by vm_compute.
  - unfold tie_before. rewrite HvX, HvY. lia.
  - exact Htake.
  - by vm_compute.
  - intros Hs. apply (strongly_sorted_take _ 2) in Hs.
    rewrite Htake in Hs. apply StronglySorted_inv in Hs as [_ Hs].
    apply Forall_cons in Hs as [(sa & sb & Ha & Hb & Hor) _].
    assert (∀ o, fusion_key (SearchResult.mk "Y" "y" o) = "Y::y") as HkY
      by done.
    assert (∀ o, fusion_key (SearchResult.mk "X" "x" o) = "X::x") as HkX
      by done.
    rewrite HkY in Ha. rewrite HkX in Hb. unfold exact_score in Ha, Hb.
    rewrite HvY, HtY in Ha. rewrite HvX, HtX in Hb.
    injection Ha as <-. injection Hb as <-.
    destruct Hor as [Hlt|[_ Htie]].
    + by vm_compute in Hlt.
    + rewrite HkY, HkX in Htie. unfold tie_before in Htie.
      rewrite HvX, HvY in Htie. lia.
Qed.

(** C7 (amended): the returned array is a function of the two orderings
    of titles and contents alone (the native scores of the inputs are
    ignored).  It is the prefix of length [limit] of a ranking that holds
    every distinct key once, by fusion score descending, the fusion score
    being the number the code computes (reciprocals and sums rounded to
    double precision); items whose computed scores are equal are in the
    order of vector rank for items of the vector list, which precede
    items found by the lexical search only, these by lexical rank.
    Vector list [A, B, C] with lexical list [B, A, D] gives A, B, C, D. *)
Theorem hybridSearch_order vectorResults textResults limit :
  fuse vectorResults textResults limit =
    fuse (strip <$> vectorResults) (strip <$> textResults) limit ∧
  fuse vectorResults textResults limit =
    take limit (ranking vectorResults textResults) ∧
  fusion_key <$> ranking vectorResults textResults ≡ₚ
    first_occurrences
      ((fusion_key <$> vectorResults) ++ (fusion_key <$> textResults)) ∧
  StronglySorted (ranked_before vectorResults textResults)
    (ranking vectorResults textResults) ∧
  StronglySorted (ranked_before vectorResults textResults)
    (fuse vectorResults textResults limit) ∧
  NoDup (fusion_key <$> fuse vectorResults textResults limit) ∧
  (let A := SearchResult.mk "A" "a" None in
   let B := SearchResult.mk "B" "b" None in
   let C := SearchResult.mk "C" "c" None in
   let D := SearchResult.mk "D" "d" None in
   fuse [A; B; C] [B; A; D] 20 =
     [SearchResult.mk "A" "a" (Some (rrfScore 0 + rrfScore 1)%float);
      SearchResult.mk "B" "b" (Some (rrfScore 1 + rrfScore 0)%float);
      SearchResult.mk "C" "c" (Some (rrfScore 2));
      SearchResult.mk "D" "d" (Some (rrfScore 2))]).
Proof.
  split_and!.
  - unfold fuse, fused_scores. by rewrite !forEach_strip.
  - apply fuse_take.
  - apply ranking_keys.
  - apply ranking_sorted.
  - rewrite fuse_take. apply strongly_sorted_take, ranking_sorted.
  - rewrite fuse_take, fmap_take.
    eapply sublist_NoDup; [|apply sublist_take].
    rewrite ranking_keys. apply first_occurrences_NoDup.
  - by vm_compute.
Qed.

(** *** Reciprocal rank fusion: identity of an item *)

(** C9: items are identified by the string [title + "::" + content].
    The results (title "a::b", content "c") and (title "a", content
    "b::c") differ as pairs and are fused into one item.  In general two
    results with the same key, one at position [i] of the vector list
    and one at position [j] of the text list, make a single entry whose
    score is the sum of both reciprocal-rank terms and whose title and
    content are those of the result seen first, the one of the vector
    list. *)
Theorem fusion_identity_is_key_string :
  (let r1 := SearchResult.mk "a::b" "c" None in
   let r2 := SearchResult.mk "a" "b::c" None in
   (SearchResult.title r1, SearchResult.content r1) ≠
     (SearchResult.title r2, SearchResult.content r2) ∧
   fusion_key r1 = fusion_key r2 ∧
   fuse [r1] [r2] 20 =
     [SearchResult.mk "a::b" "c" (Some (rrfScore 0 + rrfScore 0)%float)] ∧
   fuse [r2] [r1] 20 =
     [SearchResult.mk "a" "b::c" (Some (rrfScore 0 + rrfScore 0)%float)] ∧
   fuse [r1; r2] [] 20 =
     [SearchResult.mk "a::b" "c" (Some (rrfScore 0 + rrfScore 1)%float)]) ∧
  (∀ vectorResults textResults i j r1 r2,
     NoDup (fusion_key <$> vectorResults) →
     NoDup (fusion_key <$> textResults) →
     vectorResults !! i = Some r1 →
     textResults !! j = Some r2 →
     fusion_key r1 = fusion_key r2 →
     JsMap.get (fused_scores vectorResults textResults) (fusion_key r1) =
       Some (Fused.mk (rrfScore i + rrfScore j)
                      (SearchResult.title r1) (SearchResult.content r1)) ∧
     NoDup (JsMap.keys (fused_scores vectorResults textResults))).
Proof.
  split.
  - simpl. split_and!; by vm_compute.
  - intros vectorResults textResults i j r1 r2 Hv Ht Hi Hj Hkey.
    split; [|apply fused_scores_NoDup].
    rewrite get_fused_scores. unfold absorb.
    rewrite !terms_NoDup by done.
    destruct (first_with_lookup _ _ _ Hv Hi) as [-> ->].
    rewrite Hkey.
    destruct (first_with_lookup _ _ _ Ht Hj) as [_ ->]. done.
Qed.

(** C9 at a vector list that holds ("a::b", "c") in second position and a
    lexical list that holds ("a", "b::c"). *)
Lemma fusion_identity_is_key_string_witness :
  let r1 := SearchResult.mk "a::b" "c" None in
  let r2 := SearchResult.mk "a" "b::c" None in
  let other := SearchResult.mk "x" "y" None in
  JsMap.get (fused_scores [other; r1] [r2]) "a::b::c" =
    Some (Fused.mk (rrfScore 1 + rrfScore 0) "a::b" "c").
Proof.
  intros r1 r2 other.
  refine (proj1 (proj2 fusion_identity_is_key_string
                   [other; r1] [r2] 1 0 r1 r2 _ _ _ _ _)).
  - apply (bool_decide_unpack _). by vm_compute.
  - apply (bool_decide_unpack _). by vm_compute.
  - reflexivity.
  - reflexivity.
  - reflexivity.
Defined.

End Search.

(** ** Data model ([src/apple-notes.ts], [src/db.ts], [src/schema.sql]) *)

(** [AppleNoteDetails]: a note as returned by the note source. *)
Module AppleNoteDetails.
Record t : Type := mk {
  id : string;
  title : string;
  content : string;   (* HTML content *)
  folder : string;
  creation_date : string;
  modification_date : string;
}.
End AppleNoteDetails.

(** [AppleNoteSummary]: the lightweight listing used by the sync. *)
Module AppleNoteSummary.
Record t : Type := mk {
  id : string;
  title : string;
  folder : string;
  modification_date : string;
}.
End AppleNoteSummary.

(** Timestamps of the store ([NOW()]) and JavaScript [Date] values built
    from the ISO strings of the note source. *)
Definition Time : Type := nat.
Definition Date : Type := string.
Definition new_Date (iso : string) : Date := iso.

(** A row of table [notes]; nullable columns are options. *)
Module NoteRecord.
Record t : Type := mk {
  id : nat;
  apple_note_id : option string;
  title : string;
  content : string;
  html_content : option string;
  folder_path : option string;
  creation_date : option Date;
  modification_date : option Date;
  content_hash : option string;
  embedding : option (list Q);
  indexed_at : Time;
}.
End NoteRecord.

(** The argument object of [upsertNote]; optional properties are options. *)
Module NoteInput.
Record t : Type := mk {
  apple_note_id : string;
  title : string;
  content : string;
  html_content : option string;
  folder_path : option string;
  creation_date : option Date;
  modification_date : option Date;
  content_hash : option string;
  embedding : option (list Q);
}.
End NoteInput.

(** Column [status] of table [indexing_jobs] and its [CHECK] constraint. *)
Inductive JobStatus : Type := pending | running | completed | failed | paused.

Global Instance JobStatus_eq_dec : EqDecision JobStatus.
Proof. solve_decision. Defined.

(** A row of table [indexing_jobs]. *)
Module IndexingJob.
Record t : Type := mk {
  id : nat;
  started_at : Time;
  completed_at : option Time;
  total_notes : nat;
  processed_notes : nat;
  failed_notes : nat;
  status : JobStatus;
}.
End IndexingJob.

(** [IndexingResult] of [indexer.ts], without the elapsed time [timeMs]. *)
Module IndexingResult.
Record t : Type := mk {
  jobId : nat;
  totalNotes : nat;
  processedNotes : nat;
  failedNotes : nat;
  status : JobStatus;
}.
End IndexingResult.

(** ** Effects *)

(** What a rejected promise carries. *)
Inductive Error : Type :=
  | StoreError        (* a statement sent to the pool failed *)
  | EmbeddingError    (* the embedding model threw *)
  | SourceError.      (* the JXA bridge to Apple Notes threw *)

Inductive Result (A : Type) : Type :=
  | Ok (a : A)
  | Err (e : Error).
Arguments Ok {A} a.
Arguments Err {A} e.

(** Calls made to the collaborators. *)
Inductive Call : Type :=
  | CallGetNoteDetailsById (noteId : string)
  | CallGenerateEmbedding (text : string)
  | CallUpsertNote (note : NoteInput.t)
  | CallGetAllNoteHashes
  | CallDeleteNotesByAppleIds (appleNoteIds : list string)
  | CallCreateIndexingJob (totalNotes : nat)
  | CallUpdateJobProgress (jobId processedNotes failedNotes : nat)
  | CallCompleteJob (jobId : nat) (status : JobStatus).

(** Result of [getNoteDetailsById]: the bridge throws, or answers ["null"],
    or answers the note. *)
Inductive Fetched : Type :=
  | FetchThrows
  | FetchNull
  | FetchNote (details : AppleNoteDetails.t).

(** The collaborators, fixed for the duration of a run: what the note
    source answers, what the embedding model computes, and the pure
    library functions.  The store can fail at any statement:
    [pool_query_ok n] tells whether the [n]-th statement sent to the pool
    succeeds, [now n] is the server time at which it runs.  [None] stands
    for a call that throws. *)
Record World : Type := {
  source_all_details : option (list AppleNoteDetails.t);
  source_summaries : option (list AppleNoteSummary.t);
  source_details_by_id : string → Fetched;
  embedding_model : string → option (list Q);
  turndown : string → string;        (* HTML to Markdown, with the fallback *)
  sha256_hex16 : string → string;    (* first 16 hex digits of the SHA-256 *)
  string_trim : string → string;     (* String.prototype.trim *)
  pool_query_ok : nat → bool;
  now : nat → Time;
}.

(** The contents of the database. *)
Record Database : Type := mkDatabase {
  notes : list NoteRecord.t;
  notes_id_seq : nat;
  indexing_jobs : list IndexingJob.t;
  indexing_jobs_id_seq : nat;
}.

(** What an observer of a run can see: the calls made to the
    collaborators, and the database after each statement that succeeded. *)
Inductive Event : Type :=
  | Called (c : Call)
  | Committed (d : Database).

(** The state threaded through a run: the database, the number of
    statements sent to the pool so far, and the events so far, oldest
    first. *)
Record State : Type := mkState {
  db : Database;
  statements : nat;
  trace : list Event;
}.

Definition M (A : Type) : Type := State → Result A * State.

Global Instance M_ret : MRet M := λ A a s, (Ok a, s).

Global Instance M_bind : MBind M := λ A B f m s,
  match m s with
  | (Ok a, s') => f a s'
  | (Err e, s') => (Err e, s')
  end.

Definition throw {A} (e : Error) : M A := λ s, (Err e, s).

Definition log (c : Call) : M unit := λ s,
  (Ok (), mkState (db s) (statements s) (trace s ++ [Called c])).

(** [PromiseSettledResult]: the status of a settled promise. *)
Inductive Settled : Type := fulfilled | rejected (reason : Error).

(** One element of [Promise.allSettled]: a rejection becomes a value. *)
Definition settle {A} (task : M A) : M Settled := λ s,
  match task s with
  | (Ok _, s') => (Ok fulfilled, s')
  | (Err e, s') => (Ok (rejected e), s')
  end.

(** [Promise.allSettled(items.map(task))].  The tasks of a batch are run
    one after the other, in the order of the batch. *)
Fixpoint allSettled {A} (task : A → M unit) (items : list A)
    : M (list Settled) :=
  match items with
  | [] => mret []
  | x :: items' =>
      r ← settle (task x);
      rs ← allSettled task items';
      mret (r :: rs)
  end.

(** [const BATCH_SIZE = 50] *)
Definition BATCH_SIZE : nat := 50.

(** [for (let i = 0; i < items.length; i += BATCH_SIZE) {
       const batch = items.slice(i, i + BATCH_SIZE); ... }]
    with the loop-carried variables in [acc]. *)
Equations? for_batches {A St} (body : list A → St → M St) (items : list A)
    (i : nat) (acc : St) : M St by wf (length items - i) lt :=
  for_batches body items i acc with decide (i < length items) => {
    | left _ =>
        acc' ← body (take BATCH_SIZE (drop i items)) acc;
        for_batches body items (i + BATCH_SIZE) acc'
    | right _ => mret acc }.
Proof. unfold BATCH_SIZE. lia. Qed.

(** [for (const result of batchResults) { if (result.status ===
    "fulfilled") processedNotes++; else failedNotes++; }] *)
Fixpoint tally (batchResults : list Settled) (counters : nat * nat)
    : nat * nat :=
  match batchResults with
  | [] => counters
  | fulfilled :: rest => tally rest (S counters.1, counters.2)
  | rejected _ :: rest => tally rest (counters.1, S counters.2)
  end.

(** ** The note source and the embedding model, as called by the indexer *)

Module AppleNotes.
Section apple_notes.
Context (w : World).

(** [generateContentHash(content)] *)
Definition generateContentHash (content : string) : string :=
  sha256_hex16 w content.

(** [getAllNotesSummary()] *)
Definition getAllNotesSummary : M (list AppleNoteSummary.t) :=
  match source_summaries w with
  | Some summaries => mret summaries
  | None => throw SourceError
  end.

(** [getAllNotesWithDetails()] *)
Definition getAllNotesWithDetails : M (list AppleNoteDetails.t) :=
  match source_all_details w with
  | Some notes => mret notes
  | None => throw SourceError
  end.

(** [getNoteDetailsById(noteId)]: [null] when the note is not found. *)
Definition getNoteDetailsById (noteId : string)
    : M (option AppleNoteDetails.t) :=
  _ ← log (CallGetNoteDetailsById noteId);
  match source_details_by_id w noteId with
  | FetchThrows => throw SourceError
  | FetchNull => mret None
  | FetchNote details => mret (Some details)
  end.

End apple_notes.
End AppleNotes.

Module Embeddings.
Section embeddings.
Context (w : World).

Definition newline : string := String "010"%char EmptyString.

(** [generateEmbedding(text)] *)
Definition generateEmbedding (text : string) : M (list Q) :=
  _ ← log (CallGenerateEmbedding text);
  match embedding_model w text with
  | Some embedding => mret embedding
  | None => throw EmbeddingError
  end.

(** [prepareTextForEmbedding(title, content)]:
    [`${title}\n\n${content}`.trim()] *)
Definition prepareTextForEmbedding (title content : string) : string :=
  string_trim w (title +:+ newline +:+ newline +:+ content).

End embeddings.
End Embeddings.

(** ** The store ([src/db.ts]) *)

Module Db.
Section db.
Context (w : World).

(** [pool.query(sql, params)]: one statement, run atomically at time
    [now], or a rejection that leaves the database as it was. *)
Definition pool_query {A} (stmt : Time → Database → A * Database) : M A :=
  λ s,
    let n := statements s in
    if pool_query_ok w n
    then let '(a, db') := stmt (now w n) (db s) in
         (Ok a, mkState db' (S n) (trace s ++ [Committed db']))
    else (Err StoreError, mkState (db s) (S n) (trace s)).

(** [x || null] for an optional string: the empty string is falsy. *)
Definition or_null (x : option string) : option string :=
  match x with
  | Some s => if decide (s = "") then None else Some s
  | None => None
  end.

(** The row proposed for insertion, [EXCLUDED] in the statement. *)
Definition excluded (id : nat) (note : NoteInput.t) (now : Time)
    : NoteRecord.t :=
  NoteRecord.mk id
    (Some (NoteInput.apple_note_id note))
    (NoteInput.title note)
    (NoteInput.content note)
    (or_null (NoteInput.html_content note))
    (or_null (NoteInput.folder_path note))
    (NoteInput.creation_date note)
    (NoteInput.modification_date note)
    (or_null (NoteInput.content_hash note))
    (NoteInput.embedding note)
    now.

(** The arbiter of [ON CONFLICT (apple_note_id)]. *)
Definition conflicts (apple_note_id : string) (row : NoteRecord.t) : Prop :=
  NoteRecord.apple_note_id row = Some apple_note_id.

Global Instance conflicts_dec apple_note_id row :
  Decision (conflicts apple_note_id row).
Proof. unfold conflicts. apply _. Defined.

(** [INSERT INTO notes (...) VALUES (..., NOW())
     ON CONFLICT (apple_note_id) DO UPDATE SET ... , indexed_at = NOW()
     RETURNING id].
    The sequence behind [id SERIAL] advances whether or not the row
    conflicts. *)
Definition upsert_statement (note : NoteInput.t) (now : Time)
    (d : Database) : nat * Database :=
  let key := NoteInput.apple_note_id note in
  match filter (conflicts key) (notes d) with
  | existing :: _ =>
      (NoteRecord.id existing,
       mkDatabase
         ((λ row, if decide (conflicts key row)
                  then excluded (NoteRecord.id row) note now
                  else row) <$> notes d)
         (S (notes_id_seq d))
         (indexing_jobs d) (indexing_jobs_id_seq d))
  | [] =>
      (notes_id_seq d,
       mkDatabase
         (notes d ++ [excluded (notes_id_seq d) note now])
         (S (notes_id_seq d))
         (indexing_jobs d) (indexing_jobs_id_seq d))
  end.

(** [upsertNote(note)] *)
Definition upsertNote (note : NoteInput.t) : M nat :=
  _ ← log (CallUpsertNote note);
  pool_query (upsert_statement note).

(** [SELECT apple_note_id, content_hash FROM notes
     WHERE apple_note_id IS NOT NULL] *)
Definition select_hashes (rows : list NoteRecord.t)
    : list (string * option string) :=
  omap (λ row, (λ i, (i, NoteRecord.content_hash row))
                 <$> NoteRecord.apple_note_id row) rows.

(** [if (row.content_hash) map.set(row.apple_note_id, row.content_hash)] *)
Definition add_hash (map : JsMap.t string) (row : string * option string)
    : JsMap.t string :=
  match or_null row.2 with
  | Some content_hash => JsMap.set map row.1 content_hash
  | None => map
  end.

Definition note_hashes (rows : list NoteRecord.t) : JsMap.t string :=
  fold_left add_hash (select_hashes rows) JsMap.empty.

(** [getAllNoteHashes()] *)
Definition getAllNoteHashes : M (JsMap.t string) :=
  _ ← log CallGetAllNoteHashes;
  rows ← pool_query (λ _ d, (select_hashes (notes d), d));
  mret (fold_left add_hash rows JsMap.empty).

(** [apple_note_id = ANY($1)] *)
Definition id_any (appleNoteIds : list string) (row : NoteRecord.t)
    : Prop :=
  match NoteRecord.apple_note_id row with
  | Some i => i ∈ appleNoteIds
  | None => False
  end.

Global Instance id_any_dec appleNoteIds row :
  Decision (id_any appleNoteIds row).
Proof. unfold id_any. destruct (NoteRecord.apple_note_id row); apply _. Defined.

(** [DELETE FROM notes WHERE apple_note_id = ANY($1)], returning the
    row count. *)
Definition delete_statement (appleNoteIds : list string) (_ : Time)
    (d : Database) : nat * Database :=
  (length (filter (id_any appleNoteIds) (notes d)),
   mkDatabase (filter (λ row, ¬ id_any appleNoteIds row) (notes d))
              (notes_id_seq d) (indexing_jobs d) (indexing_jobs_id_seq d)).

(** [deleteNotesByAppleIds(appleNoteIds)] *)
Definition deleteNotesByAppleIds (appleNoteIds : list string) : M nat :=
  _ ← log (CallDeleteNotesByAppleIds appleNoteIds);
  if decide (length appleNoteIds = 0) then mret 0
  else pool_query (delete_statement appleNoteIds).

(** [INSERT INTO indexing_jobs (total_notes, status)
     VALUES ($1, 'running') RETURNING id]; the other columns take their
    defaults. *)
Definition create_job_statement (totalNotes : nat) (now : Time)
    (d : Database) : nat * Database :=
  (indexing_jobs_id_seq d,
   mkDatabase (notes d) (notes_id_seq d)
     (indexing_jobs d ++
        [IndexingJob.mk (indexing_jobs_id_seq d) now None totalNotes 0 0
                        running])
     (S (indexing_jobs_id_seq d))).

(** [createIndexingJob(totalNotes)] *)
Definition createIndexingJob (totalNotes : nat) : M nat :=
  _ ← log (CallCreateIndexingJob totalNotes);
  pool_query (create_job_statement totalNotes).

Definition update_job (jobId : nat) (f : IndexingJob.t → IndexingJob.t)
    (d : Database) : Database :=
  mkDatabase (notes d) (notes_id_seq d)
    ((λ job, if decide (IndexingJob.id job = jobId) then f job else job)
       <$> indexing_jobs d)
    (indexing_jobs_id_seq d).

(** [UPDATE indexing_jobs SET processed_notes = $2, failed_notes = $3
     WHERE id = $1] *)
Definition set_progress (processedNotes failedNotes : nat)
    (job : IndexingJob.t) : IndexingJob.t :=
  IndexingJob.mk (IndexingJob.id job) (IndexingJob.started_at job)
    (IndexingJob.completed_at job) (IndexingJob.total_notes job)
    processedNotes failedNotes (IndexingJob.status job).

(** [updateJobProgress(jobId, processedNotes, failedNotes)] *)
Definition updateJobProgress (jobId processedNotes failedNotes : nat)
    : M unit :=
  _ ← log (CallUpdateJobProgress jobId processedNotes failedNotes);
  pool_query
    (λ _ d, ((), update_job jobId (set_progress processedNotes failedNotes) d)).

(** [UPDATE indexing_jobs SET status = $2, completed_at = NOW()
     WHERE id = $1] *)
Definition set_status (status : JobStatus) (now : Time)
    (job : IndexingJob.t) : IndexingJob.t :=
  IndexingJob.mk (IndexingJob.id job) (IndexingJob.started_at job)
    (Some now) (IndexingJob.total_notes job)
    (IndexingJob.processed_notes job) (IndexingJob.failed_notes job)
    status.

(** [completeJob(jobId, status)] *)
Definition completeJob (jobId : nat) (status : JobStatus) : M unit :=
  _ ← log (CallCompleteJob jobId status);
  pool_query (λ now d, ((), update_job jobId (set_status status now) d)).

End db.

(** [SELECT * FROM indexing_jobs WHERE id = $1]: the rows an observer of
    the database gets for a job id. *)
Definition job_rows (jobId : nat) (d : Database) : list IndexingJob.t :=
  filter (λ job, IndexingJob.id job = jobId) (indexing_jobs d).

(** The rows of [notes] stored for an external id. *)
Definition rows_of (apple_note_id : string) (d : Database)
    : list NoteRecord.t :=
  filter (conflicts apple_note_id) (notes d).

(** [apple_note_id TEXT UNIQUE]: no two rows carry the same non-null
    external id. *)
Definition unique_ids (d : Database) : Prop :=
  NoDup (omap NoteRecord.apple_note_id (notes d)).

(** [id SERIAL PRIMARY KEY] on [indexing_jobs]: the sequence is ahead of
    every id in use. *)
Definition jobs_fresh (d : Database) : Prop :=
  Forall (λ job, IndexingJob.id job < indexing_jobs_id_seq d)
         (indexing_jobs d).

End Db.

(** ** The indexer ([src/indexer.ts]) *)

Module Indexer.
Section indexer.
Context (w : World).

(** [htmlToMarkdown(html)]: the conversion and its [catch] fallback never
    throw. *)
Definition htmlToMarkdown (html : string) : string := turndown w html.

(** The object literal passed to [upsertNote] by [processNote]. *)
Definition note_input (note : AppleNoteDetails.t) (embedding : list Q)
    : NoteInput.t :=
  NoteInput.mk
    (AppleNoteDetails.id note)
    (AppleNoteDetails.title note)
    (htmlToMarkdown (AppleNoteDetails.content note))
    (Some (AppleNoteDetails.content note))
    (Some (AppleNoteDetails.folder note))
    (Some (new_Date (AppleNoteDetails.creation_date note)))
    (Some (new_Date (AppleNoteDetails.modification_date note)))
    (Some (AppleNotes.generateContentHash w (AppleNoteDetails.content note)))
    (Some embedding).

(** [processNote(note)]: convert, hash, embed, store. *)
Definition processNote (note : AppleNoteDetails.t) : M unit :=
  let markdownContent := htmlToMarkdown (AppleNoteDetails.content note) in
  let textForEmbedding :=
    Embeddings.prepareTextForEmbedding w
      (AppleNoteDetails.title note) markdownContent in
  embedding ← Embeddings.generateEmbedding w textForEmbedding;
  _ ← Db.upsertNote w (note_input note embedding);
  mret ().

(** The body of the batch loop of [startFullIndexing]; the counters
    [(processedNotes, failedNotes)] are carried from batch to batch. *)
Definition index_batch (jobId : nat) (batch : list AppleNoteDetails.t)
    (counters : nat * nat) : M (nat * nat) :=
  batchResults ← allSettled processNote batch;
  let counters' := tally batchResults counters in
  _ ← Db.updateJobProgress w jobId counters'.1 counters'.2;
  mret counters'.

(** [startFullIndexing()] *)
Definition startFullIndexing : M IndexingResult.t :=
  notes ← AppleNotes.getAllNotesWithDetails w;
  let totalNotes := length notes in
  jobId ← Db.createIndexingJob w totalNotes;
  counters ← for_batches (index_batch jobId) notes 0 (0, 0);
  let processedNotes := counters.1 in
  let failedNotes := counters.2 in
  let status :=
    if decide (failedNotes = 0) then completed else completed in
  _ ← Db.completeJob w jobId status;
  mret (IndexingResult.mk jobId totalNotes processedNotes failedNotes
                          status).

(** "Check for deleted notes": the ids of the hash map that the source no
    longer lists, in the iteration order of the map. *)
Definition deleted_ids (appleNoteIds : gset string)
    (existingHashes : JsMap.t string) : list string :=
  filter (λ dbNoteId, dbNoteId ∉ appleNoteIds) (JsMap.keys existingHashes).

(** "Check for new or modified notes": both branches push the id. *)
Definition update_ids (appleSummaries : list AppleNoteSummary.t)
    (existingHashes : JsMap.t string) : list string :=
  fold_left
    (λ notesToUpdate summary,
       match JsMap.get existingHashes (AppleNoteSummary.id summary) with
       | None => notesToUpdate ++ [AppleNoteSummary.id summary]
       | Some _ => notesToUpdate ++ [AppleNoteSummary.id summary]
       end)
    appleSummaries [].

(** The task of one update candidate in [syncNotes]. *)
Definition sync_task (existingHashes : JsMap.t string) (noteId : string)
    : M unit :=
  details ← AppleNotes.getNoteDetailsById w noteId;
  match details with
  | Some details =>
      let contentHash :=
        AppleNotes.generateContentHash w (AppleNoteDetails.content details) in
      let existingHash := JsMap.get existingHashes noteId in
      if decide (Some contentHash ≠ existingHash)
      then processNote details
      else mret ()
  | None => mret ()
  end.

Definition sync_batch (jobId : nat) (existingHashes : JsMap.t string)
    (batch : list string) (counters : nat * nat) : M (nat * nat) :=
  batchResults ← allSettled (sync_task existingHashes) batch;
  let counters' := tally batchResults counters in
  _ ← Db.updateJobProgress w jobId counters'.1 counters'.2;
  mret counters'.

(** "Delete removed notes" *)
Definition delete_removed (jobId : nat) (notesToDelete : list string)
    (counters : nat * nat) : M (nat * nat) :=
  if decide (0 < length notesToDelete) then
    _ ← Db.deleteNotesByAppleIds w notesToDelete;
    let counters' := (counters.1 + length notesToDelete, counters.2) in
    _ ← Db.updateJobProgress w jobId counters'.1 counters'.2;
    mret counters'
  else mret counters.

(** [syncNotes()] *)
Definition syncNotes : M IndexingResult.t :=
  appleSummaries ← AppleNotes.getAllNotesSummary w;
  let appleNoteIds : gset string :=
    list_to_set (AppleNoteSummary.id <$> appleSummaries) in
  existingHashes ← Db.getAllNoteHashes w;
  let notesToDelete := deleted_ids appleNoteIds existingHashes in
  let notesToUpdate := update_ids appleSummaries existingHashes in
  let totalNotes := length notesToUpdate + length notesToDelete in
  jobId ← Db.createIndexingJob w totalNotes;
  counters ← delete_removed jobId notesToDelete (0, 0);
  counters ← for_batches (sync_batch jobId existingHashes) notesToUpdate 0
               counters;
  _ ← Db.completeJob w jobId completed;
  mret (IndexingResult.mk jobId totalNotes counters.1 counters.2 completed).

End indexer.
End Indexer.


(** ** Reasoning about runs

    [wp m s Q]: running [m] from [s] ends in a result and a state that
    satisfy [Q]. *)

Definition wp {A} (m : M A) (s : State) (Q : Result A → State → Prop) : Prop :=
  Q (m s).1 (m s).2.

(** The postcondition of a computation that is followed by [f]. *)
Definition then_wp {A B} (f : A → M B) (Q : Result B → State → Prop)
    (r : Result A) (s : State) : Prop :=
  match r with
  | Ok a => wp (f a) s Q
  | Err e => Q (Err e) s
  end.

(** The status with which [Promise.allSettled] reports a result. *)
Definition settled {A} (r : Result A) : Settled :=
  match r with
  | Ok _ => fulfilled
  | Err e => rejected e
  end.

Lemma wp_run {A} (m : M A) s r s' Q : m s = (r, s') → wp m s Q → Q r s'.
Proof. unfold wp. by intros ->. Qed.

Lemma wp_ret {A} (a : A) s (Q : Result A → State → Prop) :
  Q (Ok a) s → wp (mret a) s Q.
Proof. done. Qed.

Lemma wp_throw {A} e s (Q : Result A → State → Prop) :
  Q (Err e) s → wp (throw e) s Q.
Proof. done. Qed.

Lemma wp_mono {A} (m : M A) s (Q Q' : Result A → State → Prop) :
  (∀ r s', Q r s' → Q' r s') → wp m s Q → wp m s Q'.
Proof. unfold wp. auto. Qed.

Lemma wp_bind {A B} (m : M A) (f : A → M B) s Q :
  wp m s (then_wp f Q) → wp (m ≫= f) s Q.
Proof.
  unfold wp, then_wp, mbind, M_bind.
  by destruct (m s) as [[a|e] s1].
Qed.

Lemma wp_log c s (Q : Result unit → State → Prop) :
  Q (Ok ()) (mkState (db s) (statements s) (trace s ++ [Called c])) →
  wp (log c) s Q.
Proof. done. Qed.

Lemma wp_settle {A} (task : M A) s (Q : Result Settled → State → Prop) :
  wp task s (λ r s', Q (Ok (settled r)) s') → wp (settle task) s Q.
Proof. unfold wp, settle. by destruct (task s) as [[a|e] s1]. Qed.

(** [Promise.allSettled] never rejects; an invariant over the tasks
    already settled and their statuses holds at the end for the whole
    batch. *)
Lemma wp_allSettled {A} (task : A → M unit) (items : list A)
    (I : list A → list Settled → State → Prop) :
  (∀ pre x post rs s,
     items = pre ++ x :: post → I pre rs s →
     wp (task x) s (λ r s', I (pre ++ [x]) (rs ++ [settled r]) s')) →
  ∀ s, I [] [] s →
  wp (allSettled task items) s
     (λ r s', ∃ rs, r = Ok rs ∧ I items rs s').
Proof.
  intros Htask.
  cut (∀ todo pre rs s,
         I pre rs s → items = pre ++ todo →
         wp (allSettled task todo) s
            (λ r s', ∃ rs', r = Ok rs' ∧ I (pre ++ todo) (rs ++ rs') s')).
  { intros H s Hs. apply (H items [] [] s Hs). done. }
  induction todo as [|x todo IH]; intros pre rs s HI Hitems; simpl.
  - apply wp_ret. exists []. by rewrite !app_nil_r.
  - apply wp_bind, wp_settle.
    eapply wp_mono; [|by apply (Htask pre x todo rs s)].
    intros r s1 HI1. simpl. apply wp_bind.
    eapply wp_mono; [|apply (IH _ _ _ HI1)]; last first.
    { by rewrite <-app_assoc. }
    intros r' s2 (rs' & -> & HI2). simpl. apply wp_ret.
    exists (settled r :: rs'). split; [done|].
    by rewrite <-!app_assoc in HI2.
Qed.

Lemma for_batches_step {A St} (body : list A → St → M St) items i acc :
  for_batches body items i acc =
    if decide (i < length items)
    then acc' ← body (take BATCH_SIZE (drop i items)) acc;
         for_batches body items (i + BATCH_SIZE) acc'
    else mret acc.
Proof.
  rewrite for_batches_equation_1.
  by destruct (decide (i < length items)).
Qed.

(** The loop over batches: [I done acc s] is an invariant over the items
    of the batches already processed (a prefix of [items]), [E] collects
    what holds when a batch aborts the loop. *)
Lemma wp_for_batches {A St} (body : list A → St → M St) (items : list A)
    (I : list A → St → State → Prop) (E : Error → State → Prop) :
  (∀ i acc s,
     i < length items → I (take i items) acc s →
     wp (body (take BATCH_SIZE (drop i items)) acc) s
        (λ r s', match r with
                 | Ok acc' => I (take (i + BATCH_SIZE) items) acc' s'
                 | Err e => E e s'
                 end)) →
  ∀ i acc s, I (take i items) acc s →
  wp (for_batches body items i acc) s
     (λ r s', match r with
              | Ok acc' => I items acc' s'
              | Err e => E e s'
              end).
Proof.
  intros Hbody i acc s. remember (length items - i) as m eqn:Hm.
  revert i acc s Hm. induction m as [m IH] using lt_wf_ind.
  intros i acc s Hm HI. rewrite for_batches_step.
  destruct (decide (i < length items)) as [Hlt|Hge].
  - apply wp_bind. eapply wp_mono; [|by apply Hbody].
    intros [acc'|e] s' H; simpl; [|done].
    eapply (IH (length items - (i + BATCH_SIZE))); [|done|done].
    unfold BATCH_SIZE. lia.
  - apply wp_ret. rewrite take_ge in HI by lia. done.
Qed.

(** ** The store: facts about the statements *)

Lemma filter_fmap_stable {A} (P : A → Prop) `{∀ x, Decision (P x)}
    (f : A → A) (l : list A) :
  (∀ x, P (f x) ↔ P x) → filter P (f <$> l) = f <$> filter P l.
Proof.
  intros Hf. induction l as [|x l IH]; [done|].
  rewrite fmap_cons, !filter_cons.
  destruct (decide (P x)) as [HP|HP].
  - rewrite decide_True by (by apply Hf). by rewrite fmap_cons, IH.
  - rewrite decide_False by (by rewrite Hf). done.
Qed.

Lemma filter_fmap_id {A} (P : A → Prop) `{∀ x, Decision (P x)}
    (f : A → A) (l : list A) :
  (∀ x, P (f x) ↔ P x) → (∀ x, P x → f x = x) →
  filter P (f <$> l) = filter P l.
Proof.
  intros Hf Hid. rewrite filter_fmap_stable by done.
  induction l as [|x l IH]; [done|]. rewrite filter_cons.
  destruct (decide (P x)); [|done]. by rewrite fmap_cons, IH, Hid.
Qed.

Lemma omap_id_cons (row : NoteRecord.t) l :
  omap NoteRecord.apple_note_id (row :: l) =
    match NoteRecord.apple_note_id row with
    | Some i => i :: omap NoteRecord.apple_note_id l
    | None => omap NoteRecord.apple_note_id l
    end.
Proof. done. Qed.

Lemma filter_conflicts_nil i (l : list NoteRecord.t) :
  filter (Db.conflicts i) l = [] ↔ i ∉ omap NoteRecord.apple_note_id l.
Proof.
  induction l as [|row l IH].
  { split; [intros _; apply not_elem_of_nil|done]. }
  rewrite filter_cons, omap_id_cons.
  destruct (decide (Db.conflicts i row)) as [Hc|Hc]; unfold Db.conflicts in Hc.
  - rewrite Hc. split; [done|]. intros Hn. exfalso. apply Hn. left.
  - destruct (NoteRecord.apple_note_id row) as [j|]; [|done].
    rewrite not_elem_of_cons, IH. split; [|by intros [_ ?]].
    intros ?. split; [|done]. intros ->. done.
Qed.

(** Under the uniqueness constraint an external id has at most one row. *)
Lemma filter_conflicts_unique i (l : list NoteRecord.t) :
  NoDup (omap NoteRecord.apple_note_id l) →
  (length (filter (Db.conflicts i) l) ≤ 1)%nat.
Proof.
  induction l as [|row l IH]; [simpl; lia|].
  rewrite filter_cons, omap_id_cons.
  destruct (decide (Db.conflicts i row)) as [Hc|Hc]; unfold Db.conflicts in Hc.
  - rewrite Hc, NoDup_cons. intros [Hnin _].
    apply filter_conflicts_nil in Hnin. rewrite Hnin. simpl. lia.
  - destruct (NoteRecord.apple_note_id row); [|done].
    rewrite NoDup_cons. intros [_ ?]. by apply IH.
Qed.

Lemma rows_of_unique i d :
  Db.unique_ids d → (length (Db.rows_of i d) ≤ 1)%nat.
Proof. apply filter_conflicts_unique. Qed.

Section upsert_statement.
Context (note : NoteInput.t) (now : Time) (d : Database).

Let key := NoteInput.apple_note_id note.
Let replace (row : NoteRecord.t) : NoteRecord.t :=
  if decide (Db.conflicts key row)
  then Db.excluded (NoteRecord.id row) note now
  else row.

Lemma replace_conflicts i row : Db.conflicts i (replace row) ↔ Db.conflicts i row.
Proof.
  unfold replace. destruct (decide (Db.conflicts key row)) as [Hc|Hc]; [|done].
  unfold Db.conflicts in *. simpl. by rewrite Hc.
Qed.

Lemma replace_apple_note_id row :
  NoteRecord.apple_note_id (replace row) = NoteRecord.apple_note_id row.
Proof.
  unfold replace. destruct (decide (Db.conflicts key row)) as [Hc|Hc]; [|done].
  unfold Db.conflicts in Hc. by rewrite Hc.
Qed.

Lemma replace_id row : NoteRecord.id (replace row) = NoteRecord.id row.
Proof. unfold replace. by destruct (decide (Db.conflicts key row)). Qed.

(** Rows of other external ids are not touched. *)
Lemma upsert_rows_other i :
  i ≠ key →
  Db.rows_of i (Db.upsert_statement note now d).2 = Db.rows_of i d.
Proof.
  intros Hne. unfold Db.upsert_statement, Db.rows_of. fold key.
  destruct (filter (Db.conflicts key) (notes d)) as [|existing rest]; simpl.
  - rewrite filter_app, filter_cons, decide_False, app_nil_r; [done|].
    unfold Db.conflicts. simpl. fold key. congruence.
  - apply (filter_fmap_id _ replace); [apply replace_conflicts|].
    intros row Hc. unfold replace. rewrite decide_False; [done|].
    intros Hc'. apply Hne. unfold Db.conflicts in *. congruence.
Qed.

(** The external id of the note has exactly one row afterwards, the
    proposed row under the id that the statement returns. *)
Lemma upsert_rows_same :
  Db.unique_ids d →
  Db.rows_of key (Db.upsert_statement note now d).2 =
    [Db.excluded (Db.upsert_statement note now d).1 note now].
Proof.
  intros Hu. pose proof (rows_of_unique key d Hu) as Hlen.
  unfold Db.upsert_statement, Db.rows_of in *. fold key.
  destruct (filter (Db.conflicts key) (notes d)) as [|existing rest] eqn:E;
    simpl.
  - rewrite filter_app, E, filter_cons, decide_True; [done|].
    unfold Db.conflicts. done.
  - rewrite (filter_fmap_stable _ replace) by apply replace_conflicts.
    rewrite E. destruct rest; [|simpl in Hlen; lia]. simpl.
    unfold replace. rewrite decide_True; [done|].
    assert (existing ∈ filter (Db.conflicts key) (notes d)) as Hin
      by (rewrite E; left).
    by apply list_elem_of_filter in Hin as [? _].
Qed.

Lemma upsert_apple_note_ids :
  omap NoteRecord.apple_note_id (notes (Db.upsert_statement note now d).2) =
    omap NoteRecord.apple_note_id (notes d) ++
    (if decide (Db.rows_of key d = []) then [key] else []).
Proof.
  unfold Db.upsert_statement, Db.rows_of. fold key.
  destruct (filter (Db.conflicts key) (notes d)) as [|existing rest]; simpl.
  - by rewrite omap_app.
  - rewrite app_nil_r.
    induction (notes d) as [|row l IH]; [done|].
    rewrite fmap_cons, !omap_id_cons. fold (replace row).
    rewrite replace_apple_note_id, IH. done.
Qed.

(** The uniqueness constraint is maintained. *)
Lemma upsert_unique :
  Db.unique_ids d → Db.unique_ids (Db.upsert_statement note now d).2.
Proof.
  unfold Db.unique_ids. rewrite upsert_apple_note_ids. intros Hu.
  destruct (decide (Db.rows_of key d = [])) as [Hnil|_].
  - apply NoDup_app. split_and!; [done| |apply NoDup_singleton].
    intros x Hx ->%list_elem_of_singleton.
    by apply filter_conflicts_nil in Hnil.
  - by rewrite app_nil_r.
Qed.

(** A row is added only when the external id had none. *)
Lemma upsert_length :
  length (notes (Db.upsert_statement note now d).2) =
    length (notes d) + (if decide (Db.rows_of key d = []) then 1 else 0).
Proof.
  unfold Db.upsert_statement, Db.rows_of. fold key.
  destruct (filter (Db.conflicts key) (notes d)) as [|existing rest]; simpl.
  - by rewrite length_app.
  - rewrite length_fmap. lia.
Qed.

(** No row disappears: every row keeps its primary key and its external
    id. *)
Lemma upsert_keeps_rows row :
  row ∈ notes d →
  ∃ row', row' ∈ notes (Db.upsert_statement note now d).2 ∧
          NoteRecord.id row' = NoteRecord.id row ∧
          NoteRecord.apple_note_id row' = NoteRecord.apple_note_id row.
Proof.
  intros Hin. unfold Db.upsert_statement. fold key.
  destruct (filter (Db.conflicts key) (notes d)) as [|existing rest]; simpl.
  - exists row. split; [|done]. apply elem_of_app. by left.
  - exists (replace row). split_and!.
    + by apply list_elem_of_fmap_2.
    + apply replace_id.
    + apply replace_apple_note_id.
Qed.

Lemma upsert_jobs :
  indexing_jobs (Db.upsert_statement note now d).2 = indexing_jobs d ∧
  indexing_jobs_id_seq (Db.upsert_statement note now d).2 =
    indexing_jobs_id_seq d.
Proof.
  unfold Db.upsert_statement.
  by destruct (filter _ (notes d)).
Qed.

End upsert_statement.

(** [upsertNote] when the statement reaches the store, and when it does
    not. *)
Lemma upsertNote_run w note s :
  Db.upsertNote w note s =
    if pool_query_ok w (statements s)
    then let r := Db.upsert_statement note (now w (statements s)) (db s) in
         (Ok r.1,
          mkState r.2 (S (statements s))
            (trace s ++ [Called (CallUpsertNote note)] ++ [Committed r.2]))
    else (Err StoreError,
          mkState (db s) (S (statements s))
            (trace s ++ [Called (CallUpsertNote note)])).
Proof.
  unfold Db.upsertNote, Db.pool_query, mbind, M_bind, log. simpl.
  destruct (pool_query_ok w (statements s)); [|done].
  destruct (Db.upsert_statement _ _ _). simpl. by rewrite <-app_assoc.
Qed.

(** *** Idempotent upsert *)

(** C8: [upsertNote] is idempotent on the external id.  Starting from a
    table that satisfies the uniqueness constraint, a first upsert leaves
    exactly one row for the note's external id; a second upsert of a note
    with the same external id (the same note, or changed content) returns
    the same row id, adds no row, leaves exactly one row for that id,
    keeps the uniqueness constraint, and touches no other id.  Each
    upsert sets [indexed_at] to the time of its own statement. *)
Theorem upsert_idempotent w (note note' : NoteInput.t) (s : State) :
  Db.unique_ids (db s) →
  NoteInput.apple_note_id note' = NoteInput.apple_note_id note →
  pool_query_ok w (statements s) = true →
  pool_query_ok w (S (statements s)) = true →
  ∃ id s1 s2 row1 row2,
    Db.upsertNote w note s = (Ok id, s1) ∧
    Db.upsertNote w note' s1 = (Ok id, s2) ∧
    Db.rows_of (NoteInput.apple_note_id note) (db s1) = [row1] ∧
    Db.rows_of (NoteInput.apple_note_id note) (db s2) = [row2] ∧
    row1 = Db.excluded id note (now w (statements s)) ∧
    row2 = Db.excluded id note' (now w (S (statements s))) ∧
    NoteRecord.indexed_at row1 = now w (statements s) ∧
    NoteRecord.indexed_at row2 = now w (S (statements s)) ∧
    length (notes (db s2)) = length (notes (db s1)) ∧
    Db.unique_ids (db s1) ∧ Db.unique_ids (db s2) ∧
    (∀ i, i ≠ NoteInput.apple_note_id note →
          Db.rows_of i (db s2) = Db.rows_of i (db s)).
Proof.
  intros Hu Hkey Hok1 Hok2.
  set (t1 := now w (statements s)). set (t2 := now w (S (statements s))).
  set (r1 := Db.upsert_statement note t1 (db s)).
  set (r2 := Db.upsert_statement note' t2 r1.2).
  assert (Db.unique_ids r1.2) as Hu1 by by apply upsert_unique.
  assert (Db.rows_of (NoteInput.apple_note_id note) r1.2 =
            [Db.excluded r1.1 note t1]) as Hrow1
    by by apply upsert_rows_same.
  assert (r2.1 = r1.1) as Hid.
  { unfold r2, Db.upsert_statement. rewrite Hkey.
    unfold Db.rows_of in Hrow1. by rewrite Hrow1. }
  assert (Db.rows_of (NoteInput.apple_note_id note) r2.2 =
            [Db.excluded r1.1 note' t2]) as Hrow2.
  { rewrite <-Hid, <-Hkey. by apply upsert_rows_same. }
  set (s1 := mkState r1.2 (S (statements s))
               (trace s ++ [Called (CallUpsertNote note)] ++ [Committed r1.2])).
  set (s2 := mkState r2.2 (S (S (statements s)))
               (trace s1 ++ [Called (CallUpsertNote note')] ++
                  [Committed r2.2])).
  exists r1.1, s1, s2, (Db.excluded r1.1 note t1), (Db.excluded r1.1 note' t2).
  split_and!.
  - rewrite upsertNote_run, Hok1. done.
  - rewrite upsertNote_run. cbn [s1 statements db trace]. rewrite Hok2.
    cbv zeta. fold t2 r2. by rewrite Hid.
  - exact Hrow1.
  - exact Hrow2.
  - done.
  - done.
  - done.
  - done.
  - simpl. unfold r2. rewrite upsert_length, Hkey, Hrow1.
    rewrite decide_False by done. lia.
  - done.
  - by apply upsert_unique.
  - intros i Hi. simpl. unfold r2, r1.
    rewrite !upsert_rows_other by congruence. done.
Qed.

(** *** The hash map of [getAllNoteHashes] *)

Lemma get_add_hash_other (m : JsMap.t string) row i :
  row.1 ≠ i → JsMap.get (Db.add_hash m row) i = JsMap.get m i.
Proof.
  intros Hne. unfold Db.add_hash. destruct (Db.or_null row.2); [|done].
  by apply JsMap.get_set_ne.
Qed.

Lemma get_fold_add_hash_other (l : list (string * option string)) m i :
  i ∉ l.*1 →
  JsMap.get (fold_left Db.add_hash l m) i = JsMap.get m i.
Proof.
  revert m. induction l as [|row l IH]; intros m; [done|].
  rewrite fmap_cons, not_elem_of_cons. intros [Hne Hnin]. simpl.
  rewrite IH by done. by apply get_add_hash_other.
Qed.

Lemma get_fold_add_hash (l : list (string * option string)) m i hash :
  NoDup l.*1 → (i, hash) ∈ l →
  JsMap.get (fold_left Db.add_hash l m) i =
    match Db.or_null hash with
    | Some content_hash => Some content_hash
    | None => JsMap.get m i
    end.
Proof.
  revert m. induction l as [|row l IH]; intros m Hnd Hin.
  { by apply elem_of_nil in Hin. }
  rewrite fmap_cons, NoDup_cons in Hnd. destruct Hnd as [Hnin Hnd]. simpl.
  apply elem_of_cons in Hin as [<-|Hin].
  - simpl in Hnin. rewrite get_fold_add_hash_other by done.
    unfold Db.add_hash. simpl. destruct (Db.or_null hash); [|done].
    apply JsMap.get_set_eq.
  - rewrite IH by done. destruct (Db.or_null hash); [done|].
    apply get_add_hash_other. intros Heq. apply Hnin. rewrite Heq.
    apply list_elem_of_fmap. by exists (i, hash).
Qed.

Lemma select_hashes_ids (rows : list NoteRecord.t) :
  (Db.select_hashes rows).*1 = omap NoteRecord.apple_note_id rows.
Proof.
  unfold Db.select_hashes. induction rows as [|row rows IH]; [done|].
  rewrite omap_id_cons. cbn [omap list_omap].
  destruct (NoteRecord.apple_note_id row); simpl; by rewrite <-IH.
Qed.

Lemma select_hashes_elem (rows : list NoteRecord.t) row i :
  row ∈ rows → NoteRecord.apple_note_id row = Some i →
  (i, NoteRecord.content_hash row) ∈ Db.select_hashes rows.
Proof.
  intros Hin Hi. unfold Db.select_hashes. apply list_elem_of_omap.
  exists row. split; [done|]. by rewrite Hi.
Qed.

(** Under the uniqueness constraint the hash map holds, for the external
    id of a row, the content hash of that row when it is not empty. *)
Lemma note_hashes_get d row i :
  Db.unique_ids d → row ∈ notes d →
  NoteRecord.apple_note_id row = Some i →
  JsMap.get (Db.note_hashes (notes d)) i =
    Db.or_null (NoteRecord.content_hash row).
Proof.
  intros Hu Hin Hi. unfold Db.note_hashes.
  rewrite (get_fold_add_hash _ _ i (NoteRecord.content_hash row)).
  - by destruct (Db.or_null _).
  - by rewrite select_hashes_ids.
  - by apply select_hashes_elem.
Qed.

(** ** The collaborators, one step at a time *)

(** The three ways a step changes the state. *)
Definition called (c : Call) (s : State) : State :=
  mkState (db s) (statements s) (trace s ++ [Called c]).

Definition committed (d : Database) (s : State) : State :=
  mkState d (S (statements s)) (trace s ++ [Committed d]).

Definition refused (s : State) : State :=
  mkState (db s) (S (statements s)) (trace s).

Lemma wp_pool_query {A} w (stmt : Time → Database → A * Database) s Q :
  (pool_query_ok w (statements s) = true →
   Q (Ok (stmt (now w (statements s)) (db s)).1)
     (committed (stmt (now w (statements s)) (db s)).2 s)) →
  (pool_query_ok w (statements s) = false → Q (Err StoreError) (refused s)) →
  wp (Db.pool_query w stmt) s Q.
Proof.
  unfold wp, Db.pool_query. intros Hok Hfail.
  destruct (pool_query_ok w (statements s)).
  - destruct (stmt _ _) as [a d'] eqn:E. simpl in *. by apply Hok.
  - by apply Hfail.
Qed.

Lemma wp_upsertNote w note s Q :
  (pool_query_ok w (statements s) = true →
   let r := Db.upsert_statement note (now w (statements s)) (db s) in
   Q (Ok r.1) (committed r.2 (called (CallUpsertNote note) s))) →
  (pool_query_ok w (statements s) = false →
   Q (Err StoreError) (refused (called (CallUpsertNote note) s))) →
  wp (Db.upsertNote w note) s Q.
Proof.
  intros Hok Hfail. unfold Db.upsertNote. apply wp_bind, wp_log. simpl.
  apply wp_pool_query; [apply Hok|apply Hfail].
Qed.

Lemma wp_createIndexingJob w totalNotes s Q :
  (pool_query_ok w (statements s) = true →
   let r := Db.create_job_statement totalNotes (now w (statements s)) (db s) in
   Q (Ok r.1) (committed r.2 (called (CallCreateIndexingJob totalNotes) s))) →
  (pool_query_ok w (statements s) = false →
   Q (Err StoreError) (refused (called (CallCreateIndexingJob totalNotes) s))) →
  wp (Db.createIndexingJob w totalNotes) s Q.
Proof.
  intros Hok Hfail. unfold Db.createIndexingJob. apply wp_bind, wp_log. simpl.
  apply wp_pool_query; [apply Hok|apply Hfail].
Qed.

Lemma wp_updateJobProgress w jobId p f s Q :
  (pool_query_ok w (statements s) = true →
   Q (Ok ())
     (committed (Db.update_job jobId (Db.set_progress p f) (db s))
                (called (CallUpdateJobProgress jobId p f) s))) →
  (pool_query_ok w (statements s) = false →
   Q (Err StoreError) (refused (called (CallUpdateJobProgress jobId p f) s))) →
  wp (Db.updateJobProgress w jobId p f) s Q.
Proof.
  intros Hok Hfail. unfold Db.updateJobProgress. apply wp_bind, wp_log. simpl.
  apply wp_pool_query; [apply Hok|apply Hfail].
Qed.

Lemma wp_completeJob w jobId status s Q :
  (pool_query_ok w (statements s) = true →
   Q (Ok ())
     (committed
        (Db.update_job jobId (Db.set_status status (now w (statements s)))
                       (db s))
        (called (CallCompleteJob jobId status) s))) →
  (pool_query_ok w (statements s) = false →
   Q (Err StoreError) (refused (called (CallCompleteJob jobId status) s))) →
  wp (Db.completeJob w jobId status) s Q.
Proof.
  intros Hok Hfail. unfold Db.completeJob. apply wp_bind, wp_log. simpl.
  apply wp_pool_query; [apply Hok|apply Hfail].
Qed.

Lemma wp_deleteNotesByAppleIds w ids s Q :
  ids ≠ [] →
  (pool_query_ok w (statements s) = true →
   let r := Db.delete_statement ids (now w (statements s)) (db s) in
   Q (Ok r.1) (committed r.2 (called (CallDeleteNotesByAppleIds ids) s))) →
  (pool_query_ok w (statements s) = false →
   Q (Err StoreError) (refused (called (CallDeleteNotesByAppleIds ids) s))) →
  wp (Db.deleteNotesByAppleIds w ids) s Q.
Proof.
  intros Hne Hok Hfail. unfold Db.deleteNotesByAppleIds.
  apply wp_bind, wp_log. simpl.
  rewrite decide_False by (by destruct ids).
  apply wp_pool_query; [apply Hok|apply Hfail].
Qed.

Lemma wp_getAllNoteHashes w s Q :
  (pool_query_ok w (statements s) = true →
   Q (Ok (Db.note_hashes (notes (db s))))
     (committed (db s) (called CallGetAllNoteHashes s))) →
  (pool_query_ok w (statements s) = false →
   Q (Err StoreError) (refused (called CallGetAllNoteHashes s))) →
  wp (Db.getAllNoteHashes w) s Q.
Proof.
  intros Hok Hfail. unfold Db.getAllNoteHashes. apply wp_bind, wp_log. simpl.
  apply wp_bind, wp_pool_query; [apply Hok|apply Hfail].
Qed.

Lemma wp_generateEmbedding w text s Q :
  (∀ e, embedding_model w text = Some e →
        Q (Ok e) (called (CallGenerateEmbedding text) s)) →
  (embedding_model w text = None →
   Q (Err EmbeddingError) (called (CallGenerateEmbedding text) s)) →
  wp (Embeddings.generateEmbedding w text) s Q.
Proof.
  intros Hok Hfail. unfold Embeddings.generateEmbedding.
  apply wp_bind, wp_log. simpl.
  destruct (embedding_model w text) as [e|]; [by apply Hok|by apply Hfail].
Qed.

Lemma wp_getNoteDetailsById w noteId s Q :
  (source_details_by_id w noteId = FetchThrows →
   Q (Err SourceError) (called (CallGetNoteDetailsById noteId) s)) →
  (source_details_by_id w noteId = FetchNull →
   Q (Ok None) (called (CallGetNoteDetailsById noteId) s)) →
  (∀ details, source_details_by_id w noteId = FetchNote details →
     Q (Ok (Some details)) (called (CallGetNoteDetailsById noteId) s)) →
  wp (AppleNotes.getNoteDetailsById w noteId) s Q.
Proof.
  intros H1 H2 H3. unfold AppleNotes.getNoteDetailsById.
  apply wp_bind, wp_log. simpl.
  destruct (source_details_by_id w noteId); [by apply H1|by apply H2|by apply H3].
Qed.

(** The text [processNote] sends to the embedding model. *)
Definition embedding_text (w : World) (note : AppleNoteDetails.t) : string :=
  Embeddings.prepareTextForEmbedding w (AppleNoteDetails.title note)
    (Indexer.htmlToMarkdown w (AppleNoteDetails.content note)).

(** [processNote]: the embedding fails, or the upsert is refused, or the
    row is written. *)
Lemma wp_processNote w note s Q :
  (embedding_model w (embedding_text w note) = None →
   Q (Err EmbeddingError)
     (called (CallGenerateEmbedding (embedding_text w note)) s)) →
  (∀ e, embedding_model w (embedding_text w note) = Some e →
        pool_query_ok w (statements s) = false →
        Q (Err StoreError)
          (refused (called (CallUpsertNote (Indexer.note_input w note e))
             (called (CallGenerateEmbedding (embedding_text w note)) s)))) →
  (∀ e, embedding_model w (embedding_text w note) = Some e →
        pool_query_ok w (statements s) = true →
        Q (Ok ())
          (committed
             (Db.upsert_statement (Indexer.note_input w note e)
                (now w (statements s)) (db s)).2
             (called (CallUpsertNote (Indexer.note_input w note e))
                (called (CallGenerateEmbedding (embedding_text w note)) s)))) →
  wp (Indexer.processNote w note) s Q.
Proof.
  intros Hemb Hfail Hok. unfold Indexer.processNote.
  apply wp_bind, wp_generateEmbedding; [|by apply Hemb].
  intros e He. simpl. apply wp_bind, wp_upsertNote; simpl.
  - intros Hp. by apply Hok.
  - intros Hp. by apply Hfail.
Qed.

(** ** The batch loop shared by both runs *)

Lemma tally_app rs rs' c : tally (rs ++ rs') c = tally rs' (tally rs c).
Proof.
  revert c. induction rs as [|[|e] rs IH]; intros c; simpl; [done|..];
    by rewrite IH.
Qed.

(** Every settled promise is counted once. *)
Lemma tally_sum rs c :
  (tally rs c).1 + (tally rs c).2 = c.1 + c.2 + length rs.
Proof.
  revert c. induction rs as [|[|e] rs IH]; intros c; simpl; [lia|..];
    rewrite IH; simpl; lia.
Qed.

(** The body of the loop, for any per-item task. *)
Definition batch_body {A} (w : World) (task : A → M unit) (jobId : nat)
    (batch : list A) (counters : nat * nat) : M (nat * nat) :=
  batchResults ← allSettled task batch;
  let counters' := tally batchResults counters in
  _ ← Db.updateJobProgress w jobId counters'.1 counters'.2;
  mret counters'.

(** The loop rule.  [B done statuses state] holds between batches, for the
    items settled so far and their statuses; [I] holds inside a batch.
    Every task maintains [I], a progress update that succeeds leads from
    [I] back to [B], and at the end of the loop the counters are the tally
    of all statuses.  When a progress update is refused the loop aborts
    with the store's error, in a state that satisfies [E]. *)
Lemma wp_batches {A} w (task : A → M unit) jobId (items : list A)
    (c0 : nat * nat) (B I : list A → list Settled → State → Prop)
    (E : State → Prop) :
  (∀ pre rs s, B pre rs s → I pre rs s) →
  (∀ pre x post rs s,
     items = pre ++ x :: post → length rs = length pre → I pre rs s →
     wp (task x) s (λ r s', I (pre ++ [x]) (rs ++ [settled r]) s')) →
  (∀ pre post rs s,
     items = pre ++ post → length rs = length pre → I pre rs s →
     let c := tally rs c0 in
     let s1 := called (CallUpdateJobProgress jobId c.1 c.2) s in
     (pool_query_ok w (statements s) = true →
      B pre rs (committed (Db.update_job jobId (Db.set_progress c.1 c.2) (db s))
                          s1)) ∧
     (pool_query_ok w (statements s) = false → E (refused s1))) →
  ∀ s, B [] [] s →
  wp (for_batches (batch_body w task jobId) items 0 c0) s
     (λ r s', match r with
              | Ok c => ∃ rs, c = tally rs c0 ∧ length rs = length items ∧
                              B items rs s'
              | Err e => e = StoreError ∧ E s'
              end).
Proof.
  intros HBI Htask Hprogress s HB.
  apply (wp_for_batches _ items
           (λ done c s, ∃ rs, c = tally rs c0 ∧ length rs = length done ∧
                              B done rs s)
           (λ e s, e = StoreError ∧ E s)); last first.
  { exists []. by rewrite take_0. }
  clear s HB. intros i c s Hi (rs & -> & Hlen & HB). apply HBI in HB.
  unfold batch_body. apply wp_bind.
  set (batch := take BATCH_SIZE (drop i items)).
  assert (items = take i items ++ batch ++ drop BATCH_SIZE (drop i items))
    as Hitems by (unfold batch; by rewrite !take_drop).
  eapply wp_mono; last first.
  { apply (wp_allSettled task batch
             (λ bpre brs s, length brs = length bpre ∧
                            I (take i items ++ bpre) (rs ++ brs) s)).
    - intros bpre x bpost brs s1 Hbatch [Hblen HI1].
      eapply wp_mono; last first.
      { eapply (Htask (take i items ++ bpre) x
                  (bpost ++ drop BATCH_SIZE (drop i items)) (rs ++ brs));
          [|by rewrite !length_app, Hlen, Hblen|done].
        rewrite Hitems at 1. rewrite Hbatch, <-!app_assoc. done. }
      intros r s2 HI2. simpl in HI2. split.
      + rewrite !length_app, Hblen. done.
      + by rewrite <-!app_assoc in HI2.
    - split; [done|]. by rewrite !app_nil_r. }
  intros r s1 (brs & -> & Hblen & HI1). simpl.
  rewrite <-tally_app.
  assert (take i items ++ batch = take (i + BATCH_SIZE) items) as Htake
    by apply take_take_drop.
  rewrite Htake in HI1.
  destruct (Hprogress (take (i + BATCH_SIZE) items)
              (drop (i + BATCH_SIZE) items) (rs ++ brs) s1) as [Hok Hfail].
  { by rewrite take_drop. }
  { rewrite <-Htake, !length_app. lia. }
  { done. }
  apply wp_bind, wp_updateJobProgress.
  - intros Hp. simpl. apply wp_ret. exists (rs ++ brs). split_and!.
    + done.
    + rewrite <-Htake, !length_app. lia.
    + by apply Hok.
  - intros Hp. simpl. split; [done|]. by apply Hfail.
Qed.

Lemma index_batch_body w jobId :
  Indexer.index_batch w jobId = batch_body w (Indexer.processNote w) jobId.
Proof. done. Qed.

Lemma sync_batch_body w jobId existingHashes :
  Indexer.sync_batch w jobId existingHashes =
    batch_body w (Indexer.sync_task w existingHashes) jobId.
Proof. done. Qed.

(** ** Events of a run *)

(** [since s0 s P]: the state [s] extends the trace of [s0] by events that
    all satisfy [P]. *)
Definition since (s0 s : State) (P : Event → Prop) : Prop :=
  ∃ new, trace s = trace s0 ++ new ∧ Forall P new.

Lemma since_refl s P : since s s P.
Proof. exists []. by rewrite app_nil_r. Qed.

Lemma since_called s0 s P c :
  since s0 s P → P (Called c) → since s0 (called c s) P.
Proof.
  intros (new & Hnew & HP) Hc. exists (new ++ [Called c]). simpl.
  rewrite Hnew, <-app_assoc. split; [done|].
  apply Forall_app. split; [done|]. by constructor.
Qed.

Lemma since_committed s0 s P d :
  since s0 s P → P (Committed d) → since s0 (committed d s) P.
Proof.
  intros (new & Hnew & HP) Hc. exists (new ++ [Committed d]). simpl.
  rewrite Hnew, <-app_assoc. split; [done|].
  apply Forall_app. split; [done|]. by constructor.
Qed.

Lemma since_refused s0 s P : since s0 s P → since s0 (refused s) P.
Proof. done. Qed.

Lemma since_trans s0 s1 s2 (P P' : Event → Prop) :
  (∀ ev, P' ev → P ev) →
  since s0 s1 P → since s1 s2 P' → since s0 s2 P.
Proof.
  intros HPP (new1 & H1 & HP1) (new2 & H2 & HP2). exists (new1 ++ new2).
  rewrite H2, H1, <-app_assoc. split; [done|].
  apply Forall_app. split; [done|]. eapply Forall_impl; eauto.
Qed.

Lemma since_mono s0 s (P P' : Event → Prop) :
  (∀ ev, P' ev → P ev) → since s0 s P' → since s0 s P.
Proof.
  intros HPP (new & H & HP). exists new. split; [done|].
  eapply Forall_impl; eauto.
Qed.

(** What a per-note task may do: call the note source and the embedding
    model, upsert notes; the job table stays as it is. *)
Definition task_event (jobs : list IndexingJob.t) (ev : Event) : Prop :=
  match ev with
  | Called (CallGetNoteDetailsById _) => True
  | Called (CallGenerateEmbedding _) => True
  | Called (CallUpsertNote _) => True
  | Called _ => False
  | Committed d => indexing_jobs d = jobs
  end.

Definition task_step (s s' : State) : Prop :=
  indexing_jobs (db s') = indexing_jobs (db s) ∧
  indexing_jobs_id_seq (db s') = indexing_jobs_id_seq (db s) ∧
  since s s' (task_event (indexing_jobs (db s))).

Lemma processNote_task_step w note s :
  wp (Indexer.processNote w note) s (λ _ s', task_step s s').
Proof.
  apply wp_processNote.
  - intros _. split_and!; [done|done|].
    apply since_called; [apply since_refl|done].
  - intros e _ _. split_and!; [done|done|].
    apply since_refused. repeat (apply since_called; [|done]).
    apply since_refl.
  - intros e _ _. pose proof (upsert_jobs (Indexer.note_input w note e)
                                (now w (statements s)) (db s)) as [Hj Hq].
    split_and!; [done|done|].
    apply since_committed; [|done].
    repeat (apply since_called; [|done]). apply since_refl.
Qed.

Lemma sync_task_task_step w existingHashes noteId s :
  wp (Indexer.sync_task w existingHashes noteId) s (λ _ s', task_step s s').
Proof.
  unfold Indexer.sync_task. apply wp_bind, wp_getNoteDetailsById.
  - intros _. split_and!; [done|done|].
    apply since_called; [apply since_refl|done].
  - intros _. simpl. apply wp_ret. split_and!; [done|done|].
    apply since_called; [apply since_refl|done].
  - intros details _. simpl.
    assert (task_step s (called (CallGetNoteDetailsById noteId) s)) as Hstep.
    { split_and!; [done|done|].
      apply since_called; [apply since_refl|done]. }
    destruct (decide _); [|by apply wp_ret].
    eapply wp_mono; [|apply processNote_task_step].
    intros r s' (Hj & Hq & Hs). split_and!; [done|done|].
    eapply since_trans; [|apply Hstep|apply Hs]. done.
Qed.

(** ** The job of a run *)

(** What an observer may find for job [jobId] in a database during or
    after the run that created it. *)
Definition job_seen (jobId total : nat) (d : Database) : Prop :=
  Forall (λ job,
            IndexingJob.total_notes job = total ∧
            (IndexingJob.processed_notes job + IndexingJob.failed_notes job
               ≤ total)%nat ∧
            (IndexingJob.status job = running ∨
             IndexingJob.status job = completed))
         (Db.job_rows jobId d).

(** The events of a run, as far as its job is concerned: every database
    it commits shows the job as above, progress updates stay within the
    total, and the only status ever written at completion is
    [completed]. *)
Definition job_event (jobId total : nat) (ev : Event) : Prop :=
  match ev with
  | Committed d => job_seen jobId total d
  | Called (CallCreateIndexingJob t) => t = total
  | Called (CallUpdateJobProgress j p f) => j = jobId ∧ (p + f ≤ total)%nat
  | Called (CallCompleteJob j status) => j = jobId ∧ status = completed
  | Called _ => True
  end.

(** The job while its run is in progress. *)
Definition job_running (jobId total p f : nat) (d : Database) : Prop :=
  ∃ t0, Db.job_rows jobId d = [IndexingJob.mk jobId t0 None total p f running].

Lemma filter_none {A} (P : A → Prop) `{∀ x, Decision (P x)} (l : list A) :
  (∀ x, x ∈ l → ¬ P x) → filter P l = [].
Proof.
  induction l as [|x l IH]; intros Hl; [done|].
  rewrite filter_cons_False by (apply Hl; left).
  apply IH. intros y Hy. apply Hl. by right.
Qed.

Lemma job_rows_fresh d :
  Db.jobs_fresh d → Db.job_rows (indexing_jobs_id_seq d) d = [].
Proof.
  intros Hf. apply filter_none. intros job Hin Hid.
  unfold Db.jobs_fresh in Hf. rewrite Forall_forall in Hf.
  specialize (Hf job Hin). lia.
Qed.

Lemma job_rows_create total now d :
  Db.jobs_fresh d →
  Db.job_rows (indexing_jobs_id_seq d) (Db.create_job_statement total now d).2
    = [IndexingJob.mk (indexing_jobs_id_seq d) now None total 0 0 running].
Proof.
  intros Hf. unfold Db.job_rows. simpl. rewrite filter_app.
  fold (Db.job_rows (indexing_jobs_id_seq d) d).
  rewrite job_rows_fresh by done. simpl.
  by rewrite filter_cons_True, filter_nil.
Qed.

Lemma job_rows_update jobId (f : IndexingJob.t → IndexingJob.t) d :
  (∀ job, IndexingJob.id (f job) = IndexingJob.id job) →
  Db.job_rows jobId (Db.update_job jobId f d) = f <$> Db.job_rows jobId d.
Proof.
  intros Hid. unfold Db.job_rows, Db.update_job. simpl.
  rewrite filter_fmap_stable.
  - induction (indexing_jobs d) as [|job l IH]; [done|].
    rewrite filter_cons.
    destruct (decide (IndexingJob.id job = jobId)) as [He|He]; [|done].
    rewrite !fmap_cons, IH. by rewrite decide_True.
  - intros job. destruct (decide (IndexingJob.id job = jobId)); [|done].
    by rewrite Hid.
Qed.

Lemma job_running_seen jobId total p f d :
  (p + f ≤ total)%nat → job_running jobId total p f d → job_seen jobId total d.
Proof.
  intros Hle [t0 Hrows]. unfold job_seen. rewrite Hrows.
  repeat constructor; simpl; auto.
Qed.

Lemma job_seen_jobs jobId total d d' :
  indexing_jobs d' = indexing_jobs d →
  job_seen jobId total d → job_seen jobId total d'.
Proof. unfold job_seen, Db.job_rows. by intros ->. Qed.

Lemma job_running_jobs jobId total p f d d' :
  indexing_jobs d' = indexing_jobs d →
  job_running jobId total p f d → job_running jobId total p f d'.
Proof. unfold job_running, Db.job_rows. by intros ->. Qed.

Lemma job_running_progress jobId total p f p' f' d :
  job_running jobId total p f d →
  job_running jobId total p' f'
    (Db.update_job jobId (Db.set_progress p' f') d).
Proof.
  intros [t0 Hrows]. exists t0. rewrite job_rows_update by done.
  by rewrite Hrows.
Qed.

(** A task leaves the job as it is, and all it commits shows the job as
    it is. *)
Lemma task_step_job s0 jobId total p f s s' :
  (p + f ≤ total)%nat →
  since s0 s (job_event jobId total) →
  job_running jobId total p f (db s) →
  task_step s s' →
  since s0 s' (job_event jobId total) ∧ job_running jobId total p f (db s').
Proof.
  intros Hle Hs Hrun (Hj & _ & Hev). split.
  - eapply since_trans; [|exact Hs|exact Hev].
    intros [c|d]; simpl.
    + by destruct c.
    + intros Hd. eapply job_seen_jobs; [exact Hd|].
      by eapply job_running_seen.
  - by eapply job_running_jobs.
Qed.

(** The job facet of the batch loop, for any task that leaves the job
    table alone. *)
Lemma wp_job_loop {A} w (task : A → M unit) jobId total items c0 s0 s :
  (∀ x s, wp (task x) s (λ _ s', task_step s s')) →
  c0.1 + c0.2 + length items = total →
  since s0 s (job_event jobId total) →
  job_running jobId total c0.1 c0.2 (db s) →
  wp (for_batches (batch_body w task jobId) items 0 c0) s
     (λ r s',
        since s0 s' (job_event jobId total) ∧
        match r with
        | Ok c => c.1 + c.2 = total ∧ job_running jobId total c.1 c.2 (db s')
        | Err e => e = StoreError ∧
                   ∃ p f, job_running jobId total p f (db s')
        end).
Proof.
  intros Htask Htotal Hs Hrun.
  eapply wp_mono; last first.
  { apply (wp_batches w task jobId items c0
             (λ pre rs s,
                ((tally rs c0).1 + (tally rs c0).2 ≤ total)%nat ∧
                since s0 s (job_event jobId total) ∧
                job_running jobId total (tally rs c0).1 (tally rs c0).2 (db s))
             (λ pre rs s,
                since s0 s (job_event jobId total) ∧
                ∃ p f, (p + f ≤ total)%nat ∧
                       job_running jobId total p f (db s))
             (λ s,
                since s0 s (job_event jobId total) ∧
                ∃ p f, job_running jobId total p f (db s))).
    - intros pre rs s1 (Hle & Hs1 & Hrun1). split; [done|]. eauto.
    - intros pre x post rs s1 _ _ (Hs1 & p & f & Hle & Hrun1).
      eapply wp_mono; [|apply Htask]. intros r s2 Hstep. simpl in Hstep.
      destruct (task_step_job s0 jobId total p f s1 s2) as [? ?]; eauto.
    - intros pre post rs s1 Hitems Hlen (Hs1 & p & f & Hle & Hrun1) c s1'.
      assert (c.1 + c.2 ≤ total)%nat as Hc.
      { unfold c. rewrite tally_sum, Hlen, <-Htotal, Hitems, length_app. lia. }
      split.
      + intros _. split_and!; [done| |by eapply job_running_progress].
        apply since_committed; [by apply since_called|]. simpl.
        eapply job_running_seen; [exact Hc|].
        by eapply job_running_progress.
      + intros _. split; [by apply since_refused, since_called|eauto].
    - simpl. split_and!; [lia|done|done]. }
  intros [c|e] s'; simpl.
  - intros (rs & -> & Hlen & Hle & Hs' & Hrun'). split; [done|].
    split; [|done]. rewrite tally_sum, Hlen. lia.
  - intros (-> & Hs' & Hrun'). done.
Qed.

(** How the job of a run ends: completed with counters that add up to
    the total, after a completion statement that reached the store; or,
    when the run aborts, absent or still running. *)
Definition job_outcome (w : World) (jobId total : nat)
    (r : Result IndexingResult.t) (s' : State) : Prop :=
  match r with
  | Ok res =>
      IndexingResult.jobId res = jobId ∧
      IndexingResult.totalNotes res = total ∧
      IndexingResult.status res = completed ∧
      IndexingResult.processedNotes res + IndexingResult.failedNotes res
        = total ∧
      pool_query_ok w (pred (statements s')) = true ∧
      ∃ t0 t1,
        Db.job_rows jobId (db s') =
          [IndexingJob.mk jobId t0 (Some t1) total
             (IndexingResult.processedNotes res)
             (IndexingResult.failedNotes res) completed]
  | Err e =>
      Db.job_rows jobId (db s') = [] ∨
      ∃ p f, job_running jobId total p f (db s')
  end.

(** Creating the job. *)
Lemma wp_create_job w total s0 s Q :
  Db.jobs_fresh (db s) →
  let jobId := indexing_jobs_id_seq (db s) in
  since s0 s (job_event jobId total) →
  (∀ s1, since s0 s1 (job_event jobId total) →
         job_running jobId total 0 0 (db s1) →
         notes (db s1) = notes (db s) →
         Q (Ok jobId) s1) →
  (∀ s1, since s0 s1 (job_event jobId total) →
         db s1 = db s → Q (Err StoreError) s1) →
  wp (Db.createIndexingJob w total) s Q.
Proof.
  intros Hf jobId Hs Hok Hfail. apply wp_createIndexingJob.
  - intros _. simpl. apply Hok.
    + apply since_committed; [by apply since_called|]. simpl.
      eapply (job_running_seen _ _ 0 0); [lia|].
      eexists. by apply job_rows_create.
    + eexists. simpl. by apply job_rows_create.
    + done.
  - intros _. apply Hfail; [|done].
    by apply since_refused, since_called.
Qed.

(** Completing the job. *)
Lemma wp_complete_job w jobId total p f s0 s
    (Q : Result IndexingResult.t → State → Prop) :
  p + f = total →
  since s0 s (job_event jobId total) →
  job_running jobId total p f (db s) →
  (∀ r s', since s0 s' (job_event jobId total) →
           job_outcome w jobId total r s' →
           (r = Ok (IndexingResult.mk jobId total p f completed) ∨
            r = Err StoreError) →
           Q r s') →
  wp (_ ← Db.completeJob w jobId completed;
      mret (IndexingResult.mk jobId total p f completed)) s Q.
Proof.
  intros Hsum Hs [t0 Hrun] HQ. apply wp_bind, wp_completeJob.
  - intros Hp. simpl. apply wp_ret.
    assert (Db.job_rows jobId
              (Db.update_job jobId
                 (Db.set_status completed (now w (statements s))) (db s)) =
            [IndexingJob.mk jobId t0 (Some (now w (statements s))) total p f
                            completed]) as Hrows.
    { rewrite job_rows_update by done. by rewrite Hrun. }
    apply HQ; [| |by left].
    + apply since_committed; [by apply since_called|]. simpl.
      unfold job_seen. rewrite Hrows. constructor; [|constructor]. simpl.
      split_and!; [done|lia|by right].
    + simpl. split_and!; try done. eauto.
  - intros Hp. simpl. apply HQ; [| |by right].
    + by apply since_refused, since_called.
    + right. exists p, f, t0. done.
Qed.

Lemma startFullIndexing_job w s notes :
  source_all_details w = Some notes →
  Db.jobs_fresh (db s) →
  wp (Indexer.startFullIndexing w) s
     (λ r s',
        since s s' (job_event (indexing_jobs_id_seq (db s)) (length notes)) ∧
        job_outcome w (indexing_jobs_id_seq (db s)) (length notes) r s' ∧
        (∀ e, r = Err e → e = StoreError)).
Proof.
  intros Hsrc Hf. unfold Indexer.startFullIndexing.
  apply wp_bind. unfold AppleNotes.getAllNotesWithDetails. rewrite Hsrc.
  apply wp_ret. simpl.
  apply wp_bind, (wp_create_job w (length notes) s); [done|apply since_refl|..].
  - intros s1 Hs1 Hrun1 _. simpl. rewrite index_batch_body. apply wp_bind.
    eapply wp_mono; last first.
    { apply (wp_job_loop w (Indexer.processNote w) _ (length notes) notes
               (0, 0) s s1); try done.
      intros x s2. apply processNote_task_step. }
    intros [c|e] s2; simpl.
    + intros (Hs2 & Hsum & Hrun2).
      assert ((if decide (c.2 = 0) then completed else completed) = completed)
        as Hstatus by (destruct (decide (c.2 = 0)); reflexivity).
      rewrite Hstatus.
      apply (wp_complete_job w _ (length notes) c.1 c.2 s s2); try done.
      intros r s3 Hs3 Hout Hr. split_and!; [done|done|].
      intros e ->. by destruct Hr as [?|[= ->]].
    + intros (Hs2 & -> & Hrun2). split_and!; [done|by right|].
      by intros e [= <-].
  - intros s1 Hs1 Hdb. simpl. split_and!; [done| |by intros e [= <-]].
    left. rewrite Hdb. by apply job_rows_fresh.
Qed.

Lemma startFullIndexing_no_source w s :
  source_all_details w = None →
  Indexer.startFullIndexing w s = (Err SourceError, s).
Proof.
  intros Hsrc. unfold Indexer.startFullIndexing, mbind, M_bind,
    AppleNotes.getAllNotesWithDetails. by rewrite Hsrc.
Qed.

(** The counters and the job after "Delete removed notes". *)
Lemma wp_delete_removed_job w jobId total notesToDelete s0 s
    (Q : Result (nat * nat) → State → Prop) :
  (length notesToDelete ≤ total)%nat →
  since s0 s (job_event jobId total) →
  job_running jobId total 0 0 (db s) →
  (∀ s1, since s0 s1 (job_event jobId total) →
         job_running jobId total (length notesToDelete) 0 (db s1) →
         Q (Ok (length notesToDelete, 0)) s1) →
  (∀ s1, since s0 s1 (job_event jobId total) →
         (∃ p f, job_running jobId total p f (db s1)) →
         Q (Err StoreError) s1) →
  wp (Indexer.delete_removed w jobId notesToDelete (0, 0)) s Q.
Proof.
  intros Hle Hs Hrun Hok Hfail. unfold Indexer.delete_removed.
  destruct (decide (0 < length notesToDelete)) as [Hpos|Hzero]; last first.
  { apply wp_ret. assert (length notesToDelete = 0) as Hz by lia.
    rewrite Hz in Hok. by apply Hok. }
  apply wp_bind, wp_deleteNotesByAppleIds.
  - intros ->. simpl in Hpos. lia.
  - intros _. simpl. apply wp_bind, wp_updateJobProgress.
    + intros _. simpl. apply wp_ret. apply Hok.
      * apply since_committed.
        -- apply since_called; [|simpl; split; [done|lia]].
           apply since_committed; [by apply since_called|]. simpl.
           eapply (job_running_seen _ _ 0 0); [lia|done].
        -- simpl. eapply job_running_seen; [|by eapply job_running_progress].
           lia.
      * by eapply job_running_progress.
    + intros _. simpl. apply Hfail; [|eauto].
      apply since_refused, since_called; [|simpl; split; [done|lia]].
      apply since_committed; [by apply since_called|]. simpl.
      eapply (job_running_seen _ _ 0 0); [lia|done].
  - intros _. simpl. apply Hfail; [|eauto].
    by apply since_refused, since_called.
Qed.

(** The deletion set and the update candidates of a sync that starts in
    database [d] when the source lists [summaries]. *)
Definition sync_hashes (d : Database) : JsMap.t string :=
  Db.note_hashes (notes d).

Definition sync_deletions (summaries : list AppleNoteSummary.t)
    (d : Database) : list string :=
  Indexer.deleted_ids (list_to_set (AppleNoteSummary.id <$> summaries))
    (sync_hashes d).

Definition sync_candidates (summaries : list AppleNoteSummary.t)
    (d : Database) : list string :=
  Indexer.update_ids summaries (sync_hashes d).

Definition sync_total (summaries : list AppleNoteSummary.t) (d : Database)
    : nat :=
  length (sync_candidates summaries d) + length (sync_deletions summaries d).

Lemma syncNotes_job w s summaries :
  source_summaries w = Some summaries →
  Db.jobs_fresh (db s) →
  wp (Indexer.syncNotes w) s
     (λ r s',
        since s s' (job_event (indexing_jobs_id_seq (db s))
                              (sync_total summaries (db s))) ∧
        job_outcome w (indexing_jobs_id_seq (db s))
          (sync_total summaries (db s)) r s' ∧
        (∀ e, r = Err e → e = StoreError)).
Proof.
  intros Hsrc Hf. unfold Indexer.syncNotes.
  set (jobId := indexing_jobs_id_seq (db s)).
  set (total := sync_total summaries (db s)).
  assert (job_seen jobId total (db s)) as Hseen.
  { unfold job_seen, jobId. by rewrite job_rows_fresh. }
  apply wp_bind. unfold AppleNotes.getAllNotesSummary. rewrite Hsrc.
  apply wp_ret. simpl. apply wp_bind, wp_getAllNoteHashes; last first.
  { intros _. simpl. split_and!; [|left; by apply job_rows_fresh|].
    - apply since_refused, since_called; [apply since_refl|done].
    - by intros e [= <-]. }
  intros _. simpl.
  set (s1 := committed (db s) (called CallGetAllNoteHashes s)).
  assert (since s s1 (job_event jobId total)) as Hs1.
  { apply since_committed; [|done].
    apply since_called; [apply since_refl|done]. }
  apply wp_bind, (wp_create_job w total s s1); [done|done|..]; last first.
  { intros s2 Hs2 Hdb. simpl. split_and!; [done| |by intros e [= <-]].
    left. rewrite Hdb. by apply job_rows_fresh. }
  intros s2 Hs2 Hrun2 _. simpl. apply wp_bind.
  apply (wp_delete_removed_job w jobId total _ s s2); try done.
  { unfold total, sync_total, sync_deletions, sync_hashes. lia. }
  - intros s3 Hs3 Hrun3. simpl. rewrite sync_batch_body. apply wp_bind.
    eapply wp_mono; last first.
    { apply (wp_job_loop w (Indexer.sync_task w _) jobId total _ _ s s3);
        try done.
      - intros x s4. apply sync_task_task_step.
      - simpl. unfold total, sync_total, sync_candidates, sync_deletions,
          sync_hashes. lia. }
    intros [c|e] s4; simpl.
    + intros (Hs4 & Hsum & Hrun4).
      apply (wp_complete_job w jobId total c.1 c.2 s s4); try done.
      intros r s5 Hs5 Hout Hr. split_and!; [done|done|].
      intros e ->. by destruct Hr as [?|[= ->]].
    + intros (Hs4 & -> & Hrun4). split_and!; [done|by right|].
      by intros e [= <-].
  - intros s3 Hs3 Hrun3. simpl. split_and!; [done|by right|].
    by intros e [= <-].
Qed.

Lemma syncNotes_no_source w s :
  source_summaries w = None →
  Indexer.syncNotes w s = (Err SourceError, s).
Proof.
  intros Hsrc. unfold Indexer.syncNotes, mbind, M_bind,
    AppleNotes.getAllNotesSummary. by rewrite Hsrc.
Qed.

(** ** Both runs *)

Inductive Run : Type := FullIndexing | Sync.

Definition run_indexer (w : World) (k : Run) : M IndexingResult.t :=
  match k with
  | FullIndexing => Indexer.startFullIndexing w
  | Sync => Indexer.syncNotes w
  end.

(** The total with which the job of a run is created: the number of
    notes pulled, or the number of update candidates and deletions. *)
Definition run_total (w : World) (k : Run) (d : Database) : nat :=
  match k with
  | FullIndexing => from_option length 0 (source_all_details w)
  | Sync =>
      from_option (λ summaries, sync_total summaries d) 0 (source_summaries w)
  end.

Lemma run_job w k s :
  Db.jobs_fresh (db s) →
  let jobId := indexing_jobs_id_seq (db s) in
  let total := run_total w k (db s) in
  wp (run_indexer w k) s
     (λ r s', since s s' (job_event jobId total) ∧
              job_outcome w jobId total r s').
Proof.
  intros Hf jobId total. destruct k; simpl in *.
  - destruct (source_all_details w) as [notes|] eqn:Hsrc.
    + eapply wp_mono; [|by apply startFullIndexing_job].
      intros r s' (? & ? & _). done.
    + unfold wp. rewrite startFullIndexing_no_source by done. simpl.
      split; [apply since_refl|]. left. by apply job_rows_fresh.
  - destruct (source_summaries w) as [summaries|] eqn:Hsrc.
    + eapply wp_mono; [|by apply syncNotes_job].
      intros r s' (? & ? & _). done.
    + unfold wp. rewrite syncNotes_no_source by done. simpl.
      split; [apply since_refl|]. left. by apply job_rows_fresh.
Qed.

(** *** Progress counters *)

(** C2: in a run of [startFullIndexing] or of [syncNotes], every database
    state committed during the run shows the job with
    [processed + failed ≤ total], every progress update writes counters
    within the total, and when the run returns the job is [completed]
    with [processed + failed = total], the counters the run reports. *)
Theorem progress_counters_invariant w (k : Run) s r s' :
  Db.jobs_fresh (db s) →
  run_indexer w k s = (r, s') →
  let jobId := indexing_jobs_id_seq (db s) in
  let total := run_total w k (db s) in
  ∃ new,
    trace s' = trace s ++ new ∧
    (∀ d job,
       Committed d ∈ new → job ∈ Db.job_rows jobId d →
       IndexingJob.total_notes job = total ∧
       (IndexingJob.processed_notes job + IndexingJob.failed_notes job
          ≤ IndexingJob.total_notes job)%nat) ∧
    (∀ j p f,
       Called (CallUpdateJobProgress j p f) ∈ new →
       j = jobId ∧ (p + f ≤ total)%nat) ∧
    (∀ res,
       r = Ok res →
       IndexingResult.jobId res = jobId ∧
       IndexingResult.totalNotes res = total ∧
       IndexingResult.processedNotes res + IndexingResult.failedNotes res
         = IndexingResult.totalNotes res ∧
       ∃ job,
         Db.job_rows jobId (db s') = [job] ∧
         IndexingJob.status job = completed ∧
         IndexingJob.total_notes job = total ∧
         IndexingJob.processed_notes job = IndexingResult.processedNotes res ∧
         IndexingJob.failed_notes job = IndexingResult.failedNotes res ∧
         IndexingJob.processed_notes job + IndexingJob.failed_notes job
           = IndexingJob.total_notes job).
Proof.
  intros Hf Hrun jobId total.
  pose proof (run_job w k s Hf) as H. unfold wp in H. rewrite Hrun in H.
  simpl in H. destruct H as [(new & Hnew & Hev) Hout].
  fold jobId total in Hev, Hout. rewrite Forall_forall in Hev.
  exists new. split_and!; [done|..].
  - intros d job Hd Hjob. specialize (Hev _ Hd). simpl in Hev.
    unfold job_seen in Hev. rewrite Forall_forall in Hev.
    destruct (Hev job Hjob) as (Ht & Hle & _). rewrite Ht. done.
  - intros j p f Hc. by specialize (Hev _ Hc).
  - intros res ->. simpl in Hout.
    destruct Hout as (Hid & Htot & _ & Hsum & _ & t0 & t1 & Hrows).
    split_and!; [done|done|lia|]. eexists. split; [exact Hrows|].
    simpl. split_and!; try done.
Qed.

(** ** The statements of a run

    Every statement sent to the pool follows the call that sends it, and
    a statement that the store accepts is followed by the database it
    commits.  The number of a statement in the sequence of statements is
    therefore the number of store calls before it. *)

(** The calls that send a statement to the pool
    ([deleteNotesByAppleIds] returns at once on an empty array). *)
Definition is_store_call (c : Call) : bool :=
  match c with
  | CallGetNoteDetailsById _ | CallGenerateEmbedding _ => false
  | CallDeleteNotesByAppleIds appleNoteIds => bool_decide (appleNoteIds ≠ [])
  | _ => true
  end.

(** The store calls a run makes on its own account, outside the tasks
    that [Promise.allSettled] settles: reading the hashes, deleting the
    removed notes, creating the job, updating its progress, completing
    it. *)
Definition is_job_call (c : Call) : bool :=
  match c with
  | CallUpsertNote _ => false
  | _ => is_store_call c
  end.

Fixpoint store_calls (evs : list Event) : nat :=
  match evs with
  | [] => 0
  | Called c :: rest => (if is_store_call c then 1 else 0) + store_calls rest
  | Committed _ :: rest => store_calls rest
  end.

(** [answered w n evs]: in the events [evs], the first of which comes
    when [n] statements have been sent, the store accepts every statement
    the run sends on its own account. *)
Fixpoint answered (w : World) (n : nat) (evs : list Event) : Prop :=
  match evs with
  | [] => True
  | Committed _ :: rest => answered w n rest
  | Called c :: rest =>
      if is_job_call c
      then pool_query_ok w n = true ∧
           (∃ d rest', rest = Committed d :: rest') ∧
           answered w (S n) rest
      else answered w (if is_store_call c then S n else n) rest
  end.

Definition is_create_call (ev : Event) : bool :=
  match ev with
  | Called (CallCreateIndexingJob _) => true
  | _ => false
  end.

(** Whether the job has been created. *)
Definition has_create (evs : list Event) : bool := existsb is_create_call evs.







Section ledger.
Context (w : World) (s0 : State).
Context (Hfresh : Db.jobs_fresh (db s0)).

(** The job of the run that starts in [s0], as far as the events show:
    not yet created, and then the job table is as it was, or created, and
    then a single row that is [running] and has no completion time. *)
Definition job_kept (evs : list Event) (d : Database) : Prop :=
  if has_create evs
  then ∃ job, Db.job_rows (indexing_jobs_id_seq (db s0)) d = [job] ∧
              IndexingJob.status job = running ∧
              IndexingJob.completed_at job = None
  else indexing_jobs d = indexing_jobs (db s0) ∧
       indexing_jobs_id_seq d = indexing_jobs_id_seq (db s0).

(** The run so far, at a point where it is about to go on. *)
Definition led (s : State) : Prop :=
  ∃ new,
    trace s = trace s0 ++ new ∧
    statements s = statements s0 + store_calls new ∧
    answered w (statements s0) new ∧
    job_kept new (db s).




(** A task maintains [led] however it settles; a step of the run itself
    maintains it or stops the run with the store's error. *)
Definition task_led {A} (m : M A) : Prop :=
  ∀ s, led s → wp m s (λ _ s', led s').




(** *** Steps *)







(** *** Rules *)



Lemma task_led_ret {A} (a : A) : task_led (mret a).
Proof. intros s Hs. by apply wp_ret. Qed.

Lemma task_led_throw {A} e : task_led (throw e : M A).
Proof. intros s Hs. by apply wp_throw. Qed.

Lemma task_led_bind {A B} (m : M A) (f : A → M B) :
  task_led m → (∀ a, task_led (f a)) → task_led (m ≫= f).
Proof.
  intros Hm Hf s Hs. apply wp_bind. eapply wp_mono; [|by apply Hm].
  intros [a|e] s' H; simpl; [by apply Hf|done].
Qed.













End ledger.


(** *** Whole-job faults *)



(** The database after the schema is created, and a state on it. *)
Definition empty_database : Database := mkDatabase [] 1 [] 1.
Definition initial_state : State := mkState empty_database 0 [].



(** ** The notes of a sync *)

Fixpoint count_if {A} (f : A → bool) (l : list A) : nat :=
  match l with
  | [] => 0
  | x :: l' => (if f x then 1 else 0) + count_if f l'
  end.

Lemma count_if_app {A} (f : A → bool) l1 l2 :
  count_if f (l1 ++ l2) = count_if f l1 + count_if f l2.
Proof. induction l1 as [|x l1 IH]; simpl; [done|]. rewrite IH. lia. Qed.

Lemma count_if_le {A} (f : A → bool) l : (count_if f l ≤ length l)%nat.
Proof. induction l as [|x l IH]; simpl; [lia|]. destruct (f x); lia. Qed.

Definition is_rejected (r : Settled) : bool :=
  match r with rejected _ => true | fulfilled => false end.

Definition is_fulfilled (r : Settled) : bool :=
  match r with fulfilled => true | rejected _ => false end.

Lemma tally_counts rs c :
  tally rs c = (c.1 + count_if is_fulfilled rs, c.2 + count_if is_rejected rs).
Proof.
  revert c. induction rs as [|[|e] rs IH]; intros [p f]; simpl.
  - f_equal; lia.
  - rewrite IH. simpl. f_equal; lia.
  - rewrite IH. simpl. f_equal; lia.
Qed.

Definition is_embedding_call (ev : Event) : bool :=
  match ev with Called (CallGenerateEmbedding _) => true | _ => false end.

Definition is_upsert_call (ev : Event) : bool :=
  match ev with Called (CallUpsertNote _) => true | _ => false end.

(** The source answers a request for an id with the note of that id. *)
Definition source_consistent (w : World) : Prop :=
  ∀ noteId details,
    source_details_by_id w noteId = FetchNote details →
    AppleNoteDetails.id details = noteId.

(** An update candidate whose content hash equals the stored one. *)
Definition unchanged (w : World) (existingHashes : JsMap.t string)
    (noteId : string) : Prop :=
  ∃ details,
    source_details_by_id w noteId = FetchNote details ∧
    JsMap.get existingHashes noteId =
      Some (sha256_hex16 w (AppleNoteDetails.content details)).

(** An update candidate that the source no longer finds. *)
Definition not_found (w : World) (noteId : string) : Prop :=
  source_details_by_id w noteId = FetchNull.

(** The candidates for which [sync_task] has nothing to write: the two
    cases above. *)
Definition skipped (w : World) (existingHashes : JsMap.t string)
    (noteId : string) : bool :=
  match source_details_by_id w noteId with
  | FetchThrows => false
  | FetchNull => true
  | FetchNote details =>
      bool_decide (JsMap.get existingHashes noteId =
                     Some (sha256_hex16 w (AppleNoteDetails.content details)))
  end.

Definition written (w : World) (existingHashes : JsMap.t string)
    (noteId : string) : bool :=
  negb (skipped w existingHashes noteId).

Lemma unchanged_skipped w existingHashes noteId :
  unchanged w existingHashes noteId → skipped w existingHashes noteId = true.
Proof.
  intros (details & Hd & Hh). unfold skipped. rewrite Hd.
  by apply bool_decide_eq_true.
Qed.

Lemma not_found_skipped w existingHashes noteId :
  not_found w noteId → skipped w existingHashes noteId = true.
Proof. unfold not_found, skipped. by intros ->. Qed.

(** A candidate is unchanged when the row stored for it carries the hash
    of the content that the source returns. *)
Lemma unchanged_by_row w d row noteId details :
  Db.unique_ids d → row ∈ notes d →
  NoteRecord.apple_note_id row = Some noteId →
  source_details_by_id w noteId = FetchNote details →
  Db.or_null (NoteRecord.content_hash row) =
    Some (sha256_hex16 w (AppleNoteDetails.content details)) →
  unchanged w (Db.note_hashes (notes d)) noteId.
Proof.
  intros Hu Hin Hid Hfetch Hhash. exists details. split; [done|].
  by rewrite (note_hashes_get d row noteId).
Qed.

(** A stored note with a content hash is in the hash map. *)
Lemma hashed_row_in_map d row noteId :
  Db.unique_ids d → row ∈ notes d →
  NoteRecord.apple_note_id row = Some noteId →
  Db.or_null (NoteRecord.content_hash row) ≠ None →
  noteId ∈ JsMap.keys (Db.note_hashes (notes d)).
Proof.
  intros Hu Hin Hid Hhash.
  destruct (decide (noteId ∈ JsMap.keys (Db.note_hashes (notes d))))
    as [|Hnin]; [done|].
  apply JsMap.get_None in Hnin.
  rewrite (note_hashes_get d row noteId) in Hnin by done. done.
Qed.

(** The task of a skipped candidate asks the source for the note and does
    nothing else: no embedding, no statement, and it is fulfilled. *)
Lemma sync_task_skipped w existingHashes noteId s :
  skipped w existingHashes noteId = true →
  Indexer.sync_task w existingHashes noteId s =
    (Ok (), called (CallGetNoteDetailsById noteId) s).
Proof.
  unfold skipped, Indexer.sync_task, AppleNotes.getNoteDetailsById,
    mbind, M_bind, log. simpl.
  destruct (source_details_by_id w noteId) as [| |details]; [done|done|].
  intros Hh%bool_decide_eq_true. simpl.
  unfold AppleNotes.generateContentHash.
  rewrite decide_False; [done|]. intros Hne. by apply Hne.
Qed.

(** What the events of a sync may be, as far as notes are concerned:
    embeddings and upserts only for candidates that are not skipped, an
    upsert only under the id of its candidate. *)
Definition sync_event (w : World) (existingHashes : JsMap.t string)
    (items : list string) (ev : Event) : Prop :=
  match ev with
  | Called (CallUpsertNote note) =>
      NoteInput.apple_note_id note ∈ items ∧
      skipped w existingHashes (NoteInput.apple_note_id note) = false
  | _ => True
  end.

(** The state of the notes while the candidates [items] are processed,
    relative to the state [s1] in which the loop starts, after the
    candidates [pre] have settled with statuses [rs]. *)
Definition sync_inv (w : World) (existingHashes : JsMap.t string)
    (items : list string) (s1 : State)
    (pre : list string) (rs : list Settled) (s : State) : Prop :=
  (∀ i, (i ∈ items → skipped w existingHashes i = true) →
        Db.rows_of i (db s) = Db.rows_of i (db s1)) ∧
  (∀ row, row ∈ notes (db s1) →
          ∃ row', row' ∈ notes (db s) ∧
                  NoteRecord.id row' = NoteRecord.id row ∧
                  NoteRecord.apple_note_id row' =
                    NoteRecord.apple_note_id row) ∧
  (∃ new, trace s = trace s1 ++ new ∧
          Forall (sync_event w existingHashes items) new ∧
          (count_if is_embedding_call new
             ≤ count_if (written w existingHashes) pre)%nat ∧
          (count_if is_upsert_call new
             ≤ count_if (written w existingHashes) pre)%nat) ∧
  (count_if is_rejected rs ≤ count_if (written w existingHashes) pre)%nat.

Lemma sync_inv_step w existingHashes items s1 pre rs s pre' rs' s' evs :
  sync_inv w existingHashes items s1 pre rs s →
  (∀ i, (i ∈ items → skipped w existingHashes i = true) →
        Db.rows_of i (db s') = Db.rows_of i (db s)) →
  (∀ row, row ∈ notes (db s) →
          ∃ row', row' ∈ notes (db s') ∧
                  NoteRecord.id row' = NoteRecord.id row ∧
                  NoteRecord.apple_note_id row' =
                    NoteRecord.apple_note_id row) →
  trace s' = trace s ++ evs →
  Forall (sync_event w existingHashes items) evs →
  (count_if (written w existingHashes) pre + count_if is_embedding_call evs
     ≤ count_if (written w existingHashes) pre')%nat →
  (count_if (written w existingHashes) pre + count_if is_upsert_call evs
     ≤ count_if (written w existingHashes) pre')%nat →
  (count_if is_rejected rs' + count_if (written w existingHashes) pre
     ≤ count_if is_rejected rs + count_if (written w existingHashes) pre')%nat →
  sync_inv w existingHashes items s1 pre' rs' s'.
Proof.
  intros (Hrows & Hkeep & (new & Hnew & Hev & Hemb & Hups) & Hrej)
    Hrows' Hkeep' Htrace Hev' Hemb' Hups' Hrej'.
  split_and!.
  - intros i Hi. rewrite Hrows' by done. by apply Hrows.
  - intros row Hrow. destruct (Hkeep row Hrow) as (row1 & Hin1 & Hid1 & Ha1).
    destruct (Hkeep' row1 Hin1) as (row2 & Hin2 & Hid2 & Ha2).
    exists row2. split_and!; [done|congruence|congruence].
  - exists (new ++ evs). rewrite Htrace, Hnew, <-app_assoc.
    rewrite !count_if_app. split_and!; [done| |lia|lia].
    apply Forall_app. by split.
  - lia.
Qed.

Lemma keeps_rows_refl (rows : list NoteRecord.t) row :
  row ∈ rows →
  ∃ row', row' ∈ rows ∧ NoteRecord.id row' = NoteRecord.id row ∧
          NoteRecord.apple_note_id row' = NoteRecord.apple_note_id row.
Proof. intros ?. by exists row. Qed.

(** A task of the sync maintains the invariant, under the id of its
    candidate. *)
Lemma sync_task_inv w existingHashes items s1 pre x post rs s :
  source_consistent w →
  items = pre ++ x :: post →
  sync_inv w existingHashes items s1 pre rs s →
  wp (Indexer.sync_task w existingHashes x) s
     (λ r s', sync_inv w existingHashes items s1
                (pre ++ [x]) (rs ++ [settled r]) s').
Proof.
  intros Hcons Hitems Hinv.
  assert (x ∈ items) as Hx.
  { rewrite Hitems. apply elem_of_app. right. left. }
  destruct (skipped w existingHashes x) eqn:Hskip.
  { unfold wp. rewrite sync_task_skipped by done. simpl.
    eapply (sync_inv_step _ _ _ _ _ _ _ _ _ _ [_]); [exact Hinv|done|..].
    - apply keeps_rows_refl.
    - done.
    - by repeat constructor.
    - rewrite count_if_app. simpl. lia.
    - rewrite count_if_app. simpl. lia.
    - rewrite !count_if_app. simpl. lia. }
  assert (count_if (written w existingHashes) (pre ++ [x]) =
            count_if (written w existingHashes) pre + 1) as Hcount.
  { rewrite count_if_app. simpl. unfold written at 2. rewrite Hskip. simpl.
    lia. }
  assert (∀ r : Settled,
            (count_if is_rejected (rs ++ [r]) ≤ count_if is_rejected rs + 1)%nat)
    as Hrej.
  { intros r. rewrite count_if_app. simpl. destruct (is_rejected r); lia. }
  unfold Indexer.sync_task. apply wp_bind, wp_getNoteDetailsById.
  - intros _. simpl.
    eapply (sync_inv_step _ _ _ _ _ _ _ _ _ _ [_]); [exact Hinv|done|..].
    + apply keeps_rows_refl.
    + done.
    + by repeat constructor.
    + simpl. lia.
    + simpl. lia.
    + specialize (Hrej (rejected SourceError)). lia.
  - intros Hnull. unfold skipped in Hskip. by rewrite Hnull in Hskip.
  - intros details Hd. simpl.
    assert (AppleNoteDetails.id details = x) as Hid by by apply Hcons.
    destruct (decide _) as [Hne|Heq]; last first.
    { exfalso. unfold skipped in Hskip. rewrite Hd in Hskip.
      apply bool_decide_eq_false in Hskip. apply Hskip.
      unfold AppleNotes.generateContentHash in Heq.
      destruct (decide (JsMap.get existingHashes x =
                  Some (sha256_hex16 w (AppleNoteDetails.content details))));
        [done|]. exfalso. apply Heq. congruence. }
    apply wp_processNote.
    + intros _. simpl.
      eapply (sync_inv_step _ _ _ _ _ _ _ _ _ _ [_; _]); [exact Hinv|done|..].
      * apply keeps_rows_refl.
      * simpl. by rewrite <-app_assoc.
      * by repeat constructor.
      * simpl. lia.
      * simpl. lia.
      * specialize (Hrej (rejected EmbeddingError)). lia.
    + intros e _ _. simpl.
      eapply (sync_inv_step _ _ _ _ _ _ _ _ _ _ [_; _; _]);
        [exact Hinv|done|..].
      * apply keeps_rows_refl.
      * simpl. by rewrite <-!app_assoc.
      * repeat constructor; simpl; by rewrite Hid.
      * simpl. lia.
      * simpl. lia.
      * specialize (Hrej (rejected StoreError)). lia.
    + intros e _ _. simpl.
      eapply (sync_inv_step _ _ _ _ _ _ _ _ _ _ [_; _; _; _]);
        [exact Hinv|..].
      * intros i Hi. simpl. apply upsert_rows_other. simpl. rewrite Hid.
        intros ->. specialize (Hi Hx). congruence.
      * intros row Hrow. simpl. by apply upsert_keeps_rows.
      * simpl. by rewrite <-!app_assoc.
      * repeat constructor; simpl; by rewrite Hid.
      * simpl. lia.
      * simpl. lia.
      * specialize (Hrej fulfilled). lia.
Qed.

Lemma sync_inv_refl w existingHashes items s1 :
  sync_inv w existingHashes items s1 [] [] s1.
Proof.
  split_and!; [done|apply keeps_rows_refl| |done].
  exists []. rewrite app_nil_r. split_and!; [done|constructor|done|done].
Qed.

(** A progress update does not touch the notes. *)
Lemma sync_inv_progress w existingHashes items s1 pre rs s jobId p f d :
  notes d = notes (db s) →
  sync_inv w existingHashes items s1 pre rs s →
  sync_inv w existingHashes items s1 pre rs
    (committed d (called (CallUpdateJobProgress jobId p f) s)).
Proof.
  intros Hnotes Hinv.
  eapply (sync_inv_step _ _ _ _ _ _ _ _ _ _ [_; _]); [exact Hinv|..].
  - intros i _. unfold Db.rows_of. simpl. by rewrite Hnotes.
  - intros row Hrow. simpl. rewrite Hnotes. by apply keeps_rows_refl.
  - simpl. by rewrite <-app_assoc.
  - by repeat constructor.
  - simpl. lia.
  - simpl. lia.
  - lia.
Qed.

(** The notes facet of the batch loop of [syncNotes]. *)
Lemma wp_sync_loop w existingHashes jobId items c0 s1 :
  source_consistent w →
  wp (for_batches (batch_body w (Indexer.sync_task w existingHashes) jobId)
        items 0 c0) s1
     (λ r s',
        ∃ pre post rs,
          items = pre ++ post ∧
          sync_inv w existingHashes items s1 pre rs s' ∧
          ∀ c, r = Ok c →
               pre = items ∧ c = tally rs c0 ∧ length rs = length items).
Proof.
  intros Hcons. eapply wp_mono; last first.
  { apply (wp_batches w _ jobId items c0
             (sync_inv w existingHashes items s1)
             (sync_inv w existingHashes items s1)
             (λ s, ∃ pre post rs,
                     items = pre ++ post ∧
                     sync_inv w existingHashes items s1 pre rs s)).
    - done.
    - intros pre x post rs s Hitems _ Hinv. by eapply sync_task_inv.
    - intros pre post rs s Hitems _ Hinv c s'. split.
      + intros _. by apply sync_inv_progress.
      + intros _. exists pre, post, rs. split; [done|].
        eapply (sync_inv_step _ _ _ _ _ _ _ _ _ _ [_]); [exact Hinv|done|..].
        * apply keeps_rows_refl.
        * done.
        * by repeat constructor.
        * simpl. lia.
        * simpl. lia.
        * lia.
    - apply sync_inv_refl. }
  intros [c|e] s'; simpl.
  - intros (rs & -> & Hlen & Hinv). exists items, [], rs.
    rewrite app_nil_r. split_and!; [done|done|]. by intros c [= <-].
  - intros (_ & pre & post & rs & Hitems & Hinv). exists pre, post, rs.
    split_and!; [done|done|]. by intros c [=].
Qed.

(** What a sync may have done to the notes between two of its states:
    rows of ids that are neither deleted nor candidates to be written
    are as before, rows that are not deleted are still there, and at most
    [n] embeddings were requested and at most [n] upserts sent. *)
Definition sync_frame (w : World) (existingHashes : JsMap.t string)
    (items del : list string) (n : nat) (s s' : State) : Prop :=
  (∀ i, i ∉ del → (i ∈ items → skipped w existingHashes i = true) →
        Db.rows_of i (db s') = Db.rows_of i (db s)) ∧
  (∀ row, row ∈ notes (db s) → ¬ Db.id_any del row →
          ∃ row', row' ∈ notes (db s') ∧
                  NoteRecord.id row' = NoteRecord.id row ∧
                  NoteRecord.apple_note_id row' =
                    NoteRecord.apple_note_id row) ∧
  (∃ new, trace s' = trace s ++ new ∧
          Forall (sync_event w existingHashes items) new ∧
          (count_if is_embedding_call new ≤ n)%nat ∧
          (count_if is_upsert_call new ≤ n)%nat).

Lemma id_any_apple_note_id del (row row' : NoteRecord.t) :
  NoteRecord.apple_note_id row' = NoteRecord.apple_note_id row →
  Db.id_any del row' ↔ Db.id_any del row.
Proof. unfold Db.id_any. by intros ->. Qed.

Lemma sync_frame_refl w existingHashes items del s :
  sync_frame w existingHashes items del 0 s s.
Proof.
  split_and!; [done|intros; by apply keeps_rows_refl|].
  exists []. rewrite app_nil_r. split_and!; [done|constructor|done|done].
Qed.

(** Steps that send no embedding request and no upsert, and that change
    the notes by at most deleting rows of the deletion set. *)
Lemma sync_frame_quiet w existingHashes items del n s s1 s2 evs :
  sync_frame w existingHashes items del n s s1 →
  (notes (db s2) = notes (db s1) ∨
   notes (db s2) = filter (λ row, ¬ Db.id_any del row) (notes (db s1))) →
  trace s2 = trace s1 ++ evs →
  Forall (λ ev, is_embedding_call ev = false ∧ is_upsert_call ev = false)
         evs →
  sync_frame w existingHashes items del n s s2.
Proof.
  intros (Hrows & Hkeep & new & Hnew & Hev & Hemb & Hups) Hnotes Htrace Hq.
  split_and!.
  - intros i Hi Hskip. rewrite <-Hrows by done. unfold Db.rows_of.
    destruct Hnotes as [->| ->]; [done|].
    rewrite list_filter_filter. apply list_filter_iff. intros row.
    split; [by intros [? _]|]. intros Hc. split; [done|].
    unfold Db.id_any. unfold Db.conflicts in Hc. by rewrite Hc.
  - intros row Hrow Hdel. destruct (Hkeep row Hrow Hdel)
      as (row1 & Hin1 & Hid1 & Ha1).
    exists row1. split_and!; [|done|done].
    destruct Hnotes as [->| ->]; [done|].
    apply list_elem_of_filter. split; [|done].
    by rewrite (id_any_apple_note_id del row row1).
  - exists (new ++ evs). rewrite Htrace, Hnew, <-app_assoc.
    split_and!; [done|..].
    + apply Forall_app. split; [done|].
      eapply Forall_impl; [exact Hq|]. intros [c|d]; [|done].
      simpl. destruct c; try done. by intros [_ ?].
    + rewrite count_if_app.
      assert (count_if is_embedding_call evs = 0) as ->; [|lia].
      clear -Hq. induction Hq as [|ev evs [He _] _ IH]; simpl; [done|].
      by rewrite He, IH.
    + rewrite count_if_app.
      assert (count_if is_upsert_call evs = 0) as ->; [|lia].
      clear -Hq. induction Hq as [|ev evs [_ He] _ IH]; simpl; [done|].
      by rewrite He, IH.
Qed.

Lemma sync_frame_inv w existingHashes items del s s1 pre post rs s2 :
  sync_frame w existingHashes items del 0 s s1 →
  items = pre ++ post →
  sync_inv w existingHashes items s1 pre rs s2 →
  sync_frame w existingHashes items del
    (count_if (written w existingHashes) items) s s2.
Proof.
  intros (Hrows & Hkeep & new & Hnew & Hev & Hemb & Hups) Hitems
    (Hrows' & Hkeep' & (new' & Hnew' & Hev' & Hemb' & Hups') & _).
  assert (count_if (written w existingHashes) pre
            ≤ count_if (written w existingHashes) items)%nat as Hle.
  { rewrite Hitems, count_if_app. lia. }
  split_and!.
  - intros i Hi Hskip. rewrite Hrows' by done. by apply Hrows.
  - intros row Hrow Hdel. destruct (Hkeep row Hrow Hdel)
      as (row1 & Hin1 & Hid1 & Ha1).
    destruct (Hkeep' row1 Hin1) as (row2 & Hin2 & Hid2 & Ha2).
    exists row2. split_and!; [done|congruence|congruence].
  - exists (new ++ new'). rewrite Hnew', Hnew, <-app_assoc.
    rewrite !count_if_app. split_and!; [done| |lia|lia].
    apply Forall_app. by split.
Qed.

Lemma sync_frame_mono w existingHashes items del n n' s s' :
  (n ≤ n')%nat →
  sync_frame w existingHashes items del n s s' →
  sync_frame w existingHashes items del n' s s'.
Proof.
  intros Hle (Hrows & Hkeep & new & Hnew & Hev & Hemb & Hups).
  split_and!; [done|done|]. exists new. split_and!; [done|done|lia|lia].
Qed.

(** The update candidates are the ids the source lists, in order. *)
Lemma update_ids_summaries summaries existingHashes :
  Indexer.update_ids summaries existingHashes =
    AppleNoteSummary.id <$> summaries.
Proof.
  unfold Indexer.update_ids.
  cut (∀ acc,
         fold_left
           (λ notesToUpdate summary,
              match JsMap.get existingHashes (AppleNoteSummary.id summary) with
              | None => notesToUpdate ++ [AppleNoteSummary.id summary]
              | Some _ => notesToUpdate ++ [AppleNoteSummary.id summary]
              end) summaries acc = acc ++ (AppleNoteSummary.id <$> summaries)).
  { intros H. by rewrite H. }
  induction summaries as [|summary summaries IH]; intros acc; simpl.
  { by rewrite app_nil_r. }
  destruct (JsMap.get _ _); rewrite IH, <-app_assoc; done.
Qed.

(** The deletion set: the ids of the hash map that the source does not
    list. *)
Lemma sync_deletions_elem summaries d i :
  i ∈ sync_deletions summaries d ↔
    i ∈ JsMap.keys (sync_hashes d) ∧ i ∉ AppleNoteSummary.id <$> summaries.
Proof.
  unfold sync_deletions, Indexer.deleted_ids.
  rewrite list_elem_of_filter, elem_of_list_to_set. tauto.
Qed.

Lemma sync_candidates_elem summaries d i :
  i ∈ sync_candidates summaries d ↔ i ∈ AppleNoteSummary.id <$> summaries.
Proof. unfold sync_candidates. by rewrite update_ids_summaries. Qed.

Lemma rows_of_deleted del i (rows : list NoteRecord.t) :
  i ∈ del →
  filter (Db.conflicts i) (filter (λ row, ¬ Db.id_any del row) rows) = [].
Proof.
  intros Hi. apply filter_none. intros row [Hdel _]%list_elem_of_filter Hc.
  apply Hdel. unfold Db.id_any. unfold Db.conflicts in Hc. by rewrite Hc.
Qed.

(** The notes after "Delete removed notes". *)
Lemma wp_delete_removed_notes w existingHashes items jobId del s s2 :
  sync_frame w existingHashes items del 0 s s2 →
  wp (Indexer.delete_removed w jobId del (0, 0)) s2
     (λ r s3,
        sync_frame w existingHashes items del 0 s s3 ∧
        ∀ c, r = Ok c →
             c = (length del, 0) ∧
             ∀ i, i ∈ del → Db.rows_of i (db s3) = []).
Proof.
  intros Hframe. unfold Indexer.delete_removed.
  destruct (decide (0 < length del)) as [Hpos|Hzero].
  - apply wp_bind, wp_deleteNotesByAppleIds.
    + intros ->. simpl in Hpos. lia.
    + intros _. simpl. apply wp_bind, wp_updateJobProgress.
      * intros _. simpl. apply wp_ret. split.
        -- eapply (sync_frame_quiet _ _ _ _ _ _ _ _ [_; _; _; _]);
             [exact Hframe|by right|simpl; by rewrite <-!app_assoc|by repeat constructor].
        -- intros c [= <-]. split; [done|]. intros i Hi.
           unfold Db.rows_of. simpl. by apply rows_of_deleted.
      * intros _. simpl. split; [|by intros c [=]].
        eapply (sync_frame_quiet _ _ _ _ _ _ _ _ [_; _; _]);
          [exact Hframe|by right|simpl; by rewrite <-!app_assoc|by repeat constructor].
    + intros _. simpl. split; [|by intros c [=]].
      eapply (sync_frame_quiet _ _ _ _ _ _ _ _ [_]);
        [exact Hframe|by left|done|by repeat constructor].
  - apply wp_ret. split; [done|]. intros c [= <-].
    assert (del = []) as -> by (destruct del; [done|simpl in Hzero; lia]).
    split; [done|]. intros i Hi. by apply elem_of_nil in Hi.
Qed.

(** What a sync does to the notes. *)
Lemma syncNotes_notes w s summaries :
  source_summaries w = Some summaries →
  source_consistent w →
  let existingHashes := sync_hashes (db s) in
  let items := sync_candidates summaries (db s) in
  let del := sync_deletions summaries (db s) in
  wp (Indexer.syncNotes w) s
     (λ r s',
        sync_frame w existingHashes items del
          (count_if (written w existingHashes) items) s s' ∧
        ∀ res, r = Ok res →
          (IndexingResult.failedNotes res
             ≤ count_if (written w existingHashes) items)%nat ∧
          IndexingResult.processedNotes res + IndexingResult.failedNotes res
            = length items + length del ∧
          ∀ i, i ∈ del → Db.rows_of i (db s') = []).
Proof.
  intros Hsrc Hcons existingHashes items del.
  set (n := count_if (written w existingHashes) items).
  assert (∀ s1 evs,
            notes (db s1) = notes (db s) → trace s1 = trace s ++ evs →
            Forall (λ ev, is_embedding_call ev = false ∧
                          is_upsert_call ev = false) evs →
            sync_frame w existingHashes items del 0 s s1) as Hquiet.
  { intros s1 evs Hnotes Htrace Hq.
    eapply sync_frame_quiet; [apply sync_frame_refl|by left|done|done]. }
  unfold Indexer.syncNotes.
  apply wp_bind. unfold AppleNotes.getAllNotesSummary. rewrite Hsrc.
  apply wp_ret. simpl. apply wp_bind, wp_getAllNoteHashes; last first.
  { intros _. simpl. split; [|by intros res [=]].
    eapply sync_frame_mono; [|eapply (Hquiet _ [_])];
      [lia|done|done|by repeat constructor]. }
  intros _. simpl. apply wp_bind, wp_createIndexingJob; last first.
  { intros _. simpl. split; [|by intros res [=]].
    eapply sync_frame_mono; [|eapply (Hquiet _ [_; _; _])];
      [lia|done|simpl; by rewrite <-!app_assoc|by repeat constructor]. }
  intros _. simpl.
  set (s2 := committed _ (called (CallCreateIndexingJob _) _)).
  assert (sync_frame w existingHashes items del 0 s s2) as Hs2.
  { eapply (Hquiet _ [_; _; _; _]);
      [done|simpl; by rewrite <-!app_assoc|by repeat constructor]. }
  apply wp_bind.
  eapply wp_mono; [|apply (wp_delete_removed_notes _ _ _ _ _ _ _ Hs2)].
  intros [c0|e] s3 [Hs3 Hc0]; simpl; last first.
  { split; [|by intros res [=]]. eapply sync_frame_mono; [|exact Hs3]. lia. }
  destruct (Hc0 c0 eq_refl) as [-> Hdel]. clear Hc0.
  rewrite sync_batch_body. apply wp_bind.
  eapply wp_mono; [|by apply wp_sync_loop].
  intros [c|e] s4 (pre & post & rs & Hitems & Hinv & Hc); simpl; last first.
  { split; [|by intros res [=]]. by eapply sync_frame_inv. }
  destruct (Hc c eq_refl) as (-> & -> & Hlen). clear Hc.
  assert (sync_frame w existingHashes items del n s s4) as Hs4
    by by eapply sync_frame_inv.
  apply wp_bind, wp_completeJob.
  - intros _. simpl. apply wp_ret. split.
    + eapply (sync_frame_quiet _ _ _ _ _ _ _ _ [_; _]);
        [exact Hs4|by left|simpl; by rewrite <-!app_assoc|by repeat constructor].
    + intros res [= <-]. simpl. rewrite tally_counts. simpl.
      destruct Hinv as (Hrows & _ & _ & Hrej). split_and!.
      * done.
      * pose proof (tally_sum rs (length del, 0)) as Hsum.
        rewrite tally_counts in Hsum. simpl in Hsum.
        change (length rs = length items) in Hlen. lia.
      * intros i Hi. unfold Db.rows_of in *. simpl.
        rewrite Hrows; [by apply Hdel|].
        intros Hin. exfalso.
        apply sync_deletions_elem in Hi as [_ Hi].
        by apply sync_candidates_elem in Hin.
  - intros _. simpl. split; [|by intros res [=]].
    eapply (sync_frame_quiet _ _ _ _ _ _ _ _ [_]);
      [exact Hs4|by left|done|by repeat constructor].
Qed.

Lemma count_if_negb {A} (f : A → bool) l :
  count_if f l + count_if (λ x, negb (f x)) l = length l.
Proof. induction l as [|x l IH]; simpl; [done|]. destruct (f x); simpl; lia. Qed.

Lemma count_if_elem {A} (f : A → bool) l x :
  x ∈ l → f x = true → (1 ≤ count_if f l)%nat.
Proof.
  induction 1 as [y l|y z l _ IH]; intros Hf; simpl.
  - rewrite Hf. lia.
  - specialize (IH Hf). lia.
Qed.

(** A candidate of a sync that is skipped (unchanged, or not found). *)
Lemma skipped_candidate w s summaries noteId r s' :
  source_summaries w = Some summaries →
  source_consistent w →
  noteId ∈ AppleNoteSummary.id <$> summaries →
  skipped w (sync_hashes (db s)) noteId = true →
  Indexer.syncNotes w s = (r, s') →
  let existingHashes := sync_hashes (db s) in
  let items := sync_candidates summaries (db s) in
  let del := sync_deletions summaries (db s) in
  (∀ st, Indexer.sync_task w existingHashes noteId st =
           (Ok (), called (CallGetNoteDetailsById noteId) st)) ∧
  Db.rows_of noteId (db s') = Db.rows_of noteId (db s) ∧
  (∃ new,
     trace s' = trace s ++ new ∧
     (∀ note, Called (CallUpsertNote note) ∈ new →
              NoteInput.apple_note_id note ≠ noteId) ∧
     (count_if is_embedding_call new
        + count_if (skipped w existingHashes) items ≤ length items)%nat ∧
     (count_if is_upsert_call new
        + count_if (skipped w existingHashes) items ≤ length items)%nat) ∧
  (1 ≤ count_if (skipped w existingHashes) items)%nat ∧
  (∀ res, r = Ok res →
     (IndexingResult.failedNotes res
        + count_if (skipped w existingHashes) items ≤ length items)%nat ∧
     (length del + count_if (skipped w existingHashes) items
        ≤ IndexingResult.processedNotes res)%nat).
Proof.
  intros Hsrc Hcons Hcand Hskip Hrun existingHashes items del.
  pose proof (syncNotes_notes w s summaries Hsrc Hcons) as H.
  unfold wp in H. rewrite Hrun in H. simpl in H.
  fold existingHashes items del in H.
  destruct H as [(Hrows & _ & new & Hnew & Hev & Hemb & Hups) Hok].
  assert (noteId ∈ items) as Hin by by apply sync_candidates_elem.
  pose proof (count_if_negb (skipped w existingHashes) items) as Hcount.
  change (λ x, negb (skipped w existingHashes x))
    with (written w existingHashes) in Hcount.
  split_and!.
  - intros st. by apply sync_task_skipped.
  - apply Hrows; [|done]. intros [_ Hdel]%sync_deletions_elem. done.
  - exists new. split_and!; [done| |lia|lia].
    intros note Hcall Heq. rewrite Forall_forall in Hev.
    destruct (Hev _ Hcall) as [_ Hw]. rewrite Heq in Hw.
    fold existingHashes in Hskip. congruence.
  - by eapply count_if_elem.
  - intros res Hres. destruct (Hok res Hres) as (Hfail & Hsum & _).
    split; lia.
Qed.

(** *** Hash short-circuit *)

(** C3: for an update candidate of [syncNotes] whose freshly computed
    content hash equals the stored one, the task of the candidate only
    asks the source for the note: it requests no embedding and sends no
    statement, and it is fulfilled.  Over the whole run the rows stored
    for the note are unchanged, no upsert is sent under its id, the
    numbers of embedding requests and of upserts are bounded by the
    number of candidates that are not skipped, and the note is counted in
    [processed], not in [failed]. *)
Theorem unchanged_note_is_skipped w s summaries noteId r s' :
  source_summaries w = Some summaries →
  source_consistent w →
  noteId ∈ AppleNoteSummary.id <$> summaries →
  unchanged w (sync_hashes (db s)) noteId →
  Indexer.syncNotes w s = (r, s') →
  let existingHashes := sync_hashes (db s) in
  let items := sync_candidates summaries (db s) in
  let del := sync_deletions summaries (db s) in
  (∀ st, Indexer.sync_task w existingHashes noteId st =
           (Ok (), called (CallGetNoteDetailsById noteId) st)) ∧
  Db.rows_of noteId (db s') = Db.rows_of noteId (db s) ∧
  (∃ new,
     trace s' = trace s ++ new ∧
     (∀ note, Called (CallUpsertNote note) ∈ new →
              NoteInput.apple_note_id note ≠ noteId) ∧
     (count_if is_embedding_call new
        + count_if (skipped w existingHashes) items ≤ length items)%nat ∧
     (count_if is_upsert_call new
        + count_if (skipped w existingHashes) items ≤ length items)%nat) ∧
  (1 ≤ count_if (skipped w existingHashes) items)%nat ∧
  (∀ res, r = Ok res →
     (IndexingResult.failedNotes res
        + count_if (skipped w existingHashes) items ≤ length items)%nat ∧
     (length del + count_if (skipped w existingHashes) items
        ≤ IndexingResult.processedNotes res)%nat).
Proof.
  intros Hsrc Hcons Hcand Hunchanged Hrun.
  eapply skipped_candidate; eauto using unchanged_skipped.
Qed.

(** *** Notes that the source no longer finds *)

(** C10: for an update candidate of [syncNotes] that the source answers
    with not-found, the task of the candidate only asks the source for
    the note and is fulfilled: no embedding, no upsert.  Over the whole
    run the rows stored for the note are retained unchanged, and the note
    is counted in [processed], not in [failed]. *)
Theorem not_found_note_is_processed w s summaries noteId r s' :
  source_summaries w = Some summaries →
  source_consistent w →
  noteId ∈ AppleNoteSummary.id <$> summaries →
  not_found w noteId →
  Indexer.syncNotes w s = (r, s') →
  let existingHashes := sync_hashes (db s) in
  let items := sync_candidates summaries (db s) in
  let del := sync_deletions summaries (db s) in
  (∀ st, Indexer.sync_task w existingHashes noteId st =
           (Ok (), called (CallGetNoteDetailsById noteId) st)) ∧
  Db.rows_of noteId (db s') = Db.rows_of noteId (db s) ∧
  (∃ new,
     trace s' = trace s ++ new ∧
     (∀ note, Called (CallUpsertNote note) ∈ new →
              NoteInput.apple_note_id note ≠ noteId) ∧
     (count_if is_embedding_call new
        + count_if (skipped w existingHashes) items ≤ length items)%nat ∧
     (count_if is_upsert_call new
        + count_if (skipped w existingHashes) items ≤ length items)%nat) ∧
  (1 ≤ count_if (skipped w existingHashes) items)%nat ∧
  (∀ res, r = Ok res →
     (IndexingResult.failedNotes res
        + count_if (skipped w existingHashes) items ≤ length items)%nat ∧
     (length del + count_if (skipped w existingHashes) items
        ≤ IndexingResult.processedNotes res)%nat).
Proof.
  intros Hsrc Hcons Hcand Hnull Hrun.
  eapply skipped_candidate; eauto using not_found_skipped.
Qed.

(** *** Deletion *)

(** C4: when [syncNotes] returns, every note id of the store's hash map
    that the source does not list has no row left in the store, and the
    size of the deletion set is counted in [processed].  In every run,
    also one that aborts, a row whose external id the source lists is not
    deleted: a row with the same primary key and the same external id is
    still in the store. *)
Theorem deletion_correctness w s summaries r s' :
  source_summaries w = Some summaries →
  source_consistent w →
  Indexer.syncNotes w s = (r, s') →
  let del := sync_deletions summaries (db s) in
  (∀ i, i ∈ del ↔ i ∈ JsMap.keys (sync_hashes (db s)) ∧
                  i ∉ AppleNoteSummary.id <$> summaries) ∧
  (∀ res, r = Ok res →
     (∀ i, i ∈ del → Db.rows_of i (db s') = []) ∧
     (length del ≤ IndexingResult.processedNotes res)%nat) ∧
  (∀ row i,
     row ∈ notes (db s) → NoteRecord.apple_note_id row = Some i →
     i ∈ AppleNoteSummary.id <$> summaries →
     ∃ row', row' ∈ notes (db s') ∧
             NoteRecord.id row' = NoteRecord.id row ∧
             NoteRecord.apple_note_id row' = Some i).
Proof.
  intros Hsrc Hcons Hrun del.
  pose proof (syncNotes_notes w s summaries Hsrc Hcons) as H.
  unfold wp in H. rewrite Hrun in H. simpl in H.
  fold del in H. destruct H as [(_ & Hkeep & _) Hok].
  split_and!.
  - intros i. apply sync_deletions_elem.
  - intros res Hres. destruct (Hok res Hres) as (Hfail & Hsum & Hdel).
    split; [done|].
    pose proof (count_if_le (written w (sync_hashes (db s)))
                  (sync_candidates summaries (db s))). lia.
  - intros row i Hrow Hi Hlisted.
    destruct (Hkeep row Hrow) as (row' & Hin & Hid & Ha).
    + unfold Db.id_any. rewrite Hi.
      intros [_ Hdel]%sync_deletions_elem. done.
    + exists row'. split_and!; [done|done|congruence].
Qed.

(** ** The notes of a full indexing run *)

(** Whether the embedding model accepts the text of a note. *)
Definition embeds (w : World) (note : AppleNoteDetails.t) : bool :=
  match embedding_model w (embedding_text w note) with
  | Some _ => true
  | None => false
  end.

(** A row that holds what [processNote] writes for a note. *)
Definition indexed_row (w : World) (note : AppleNoteDetails.t)
    (row : NoteRecord.t) : Prop :=
  ∃ embedding rid time,
    embedding_model w (embedding_text w note) = Some embedding ∧
    row = Db.excluded rid (Indexer.note_input w note embedding) time.

(** The statements of a full indexing run that starts in state [s] over
    [notes], by their number in the sequence of statements sent to the
    pool.  The first creates the job.  The note at position [j] is
    upserted, if its embedding succeeds, after one upsert for each
    earlier note whose embedding succeeded and one progress update for
    each earlier batch.  The progress update of batch [b] follows the
    upserts of the notes up to the end of that batch, and the completion
    follows everything. *)
Definition create_index (s : State) : nat := statements s.

Definition upsert_index (w : World) (s : State)
    (notes : list AppleNoteDetails.t) (j : nat) : nat :=
  statements s + 1 + count_if (embeds w) (take j notes) + j / BATCH_SIZE.

Definition progress_index (w : World) (s : State)
    (notes : list AppleNoteDetails.t) (b : nat) : nat :=
  statements s + 1 + count_if (embeds w) (take ((b + 1) * BATCH_SIZE) notes)
    + b.

Definition complete_index (w : World) (s : State)
    (notes : list AppleNoteDetails.t) : nat :=
  statements s + 1 + count_if (embeds w) notes
    + (length notes + (BATCH_SIZE - 1)) / BATCH_SIZE.

(** No whole-job fault: the store accepts the statements that concern
    the job.  The upserts are free to fail. *)
Definition job_statements_accepted (w : World) (s : State)
    (notes : list AppleNoteDetails.t) : Prop :=
  pool_query_ok w (create_index s) = true ∧
  (∀ b, b * BATCH_SIZE < length notes →
        pool_query_ok w (progress_index w s notes b) = true) ∧
  pool_query_ok w (complete_index w s notes) = true.

(** How the task of the note at position [j] settles: rejected by the
    embedding model, rejected by the store at the upsert, or fulfilled. *)
Definition note_status (w : World) (s : State)
    (notes : list AppleNoteDetails.t) (j : nat) (note : AppleNoteDetails.t)
    : Settled :=
  if embeds w note then
    if pool_query_ok w (upsert_index w s notes j) then fulfilled
    else rejected StoreError
  else rejected EmbeddingError.

Definition note_statuses (w : World) (s : State)
    (notes : list AppleNoteDetails.t) : list Settled :=
  imap (note_status w s notes) notes.

(** The notes while a full indexing run processes them: the notes [pre]
    have settled with statuses [rs]. *)
Definition index_inv (w : World) (s0 : State)
    (notes : list AppleNoteDetails.t)
    (pre : list AppleNoteDetails.t) (rs : list Settled) (s : State) : Prop :=
  Db.unique_ids (db s) ∧
  length rs = length pre ∧
  (∀ j x, pre !! j = Some x → rs !! j = Some (note_status w s0 notes j x)) ∧
  (∀ j x, pre !! j = Some x → note_status w s0 notes j x = fulfilled →
          ∃ row, Db.rows_of (AppleNoteDetails.id x) (db s) = [row] ∧
                 indexed_row w x row) ∧
  (∀ i, (∀ j x, pre !! j = Some x → AppleNoteDetails.id x = i →
                note_status w s0 notes j x ≠ fulfilled) →
        Db.rows_of i (db s) = Db.rows_of i (db s0)).

Lemma index_inv_notes w s0 items pre rs s s' :
  notes (db s') = notes (db s) →
  index_inv w s0 items pre rs s → index_inv w s0 items pre rs s'.
Proof.
  intros Hnotes (Hu & Hlen & Hrs & Hrows & Hframe).
  unfold index_inv, Db.unique_ids, Db.rows_of in *. rewrite Hnotes. done.
Qed.

Lemma lookup_snoc_inv {A} (l : list A) (x y : A) j :
  (l ++ [x]) !! j = Some y →
  l !! j = Some y ∨ (j = length l ∧ y = x).
Proof.
  intros H. destruct (decide (j < length l)) as [Hlt|Hge].
  - left. by rewrite lookup_app_l in H.
  - right. rewrite lookup_app_r in H by lia.
    destruct (j - length l) as [|m] eqn:E; simpl in H; [|done].
    split; [lia|congruence].
Qed.

(** One task of the batch loop: the note at position [length pre]. *)
Lemma index_task_inv w s0 items pre x post rs s b :
  NoDup (AppleNoteDetails.id <$> items) →
  items = pre ++ x :: post →
  length pre / BATCH_SIZE = b →
  statements s = statements s0 + 1 + count_if (embeds w) pre + b →
  index_inv w s0 items pre rs s →
  wp (Indexer.processNote w x) s
     (λ r s',
        statements s' =
          statements s0 + 1 + count_if (embeds w) (pre ++ [x]) + b ∧
        index_inv w s0 items (pre ++ [x]) (rs ++ [settled r]) s').
Proof.
  intros Hnd Hitems Hb Hst (Hu & Hlen & Hrs & Hrows & Hframe).
  assert (∀ y, y ∈ pre → AppleNoteDetails.id y ≠ AppleNoteDetails.id x)
    as Hfresh.
  { intros y Hy Heq. rewrite Hitems, fmap_app, fmap_cons in Hnd.
    apply NoDup_app in Hnd as (_ & Hdisj & _).
    apply (Hdisj (AppleNoteDetails.id y)).
    - by apply list_elem_of_fmap_2.
    - rewrite Heq. left. }
  assert (upsert_index w s0 items (length pre) = statements s) as Hidx.
  { unfold upsert_index. rewrite Hb, Hst. do 2 f_equal.
    rewrite Hitems, take_app_length. done. }
  assert (∀ st, note_status w s0 items (length pre) x = st →
            st ≠ fulfilled →
            ∀ s', notes (db s') = notes (db s) →
            index_inv w s0 items (pre ++ [x]) (rs ++ [st]) s') as Hfailed.
  { intros st Hstatus Hne s' Hnotes.
    eapply index_inv_notes; [exact Hnotes|]. split_and!.
    - done.
    - rewrite !length_app. simpl. lia.
    - intros j y [Hy|[-> ->]]%lookup_snoc_inv.
      + rewrite lookup_app_l by (rewrite Hlen; by eapply lookup_lt_Some).
        by apply Hrs.
      + rewrite <-Hlen, list_lookup_middle by done. by rewrite Hlen, Hstatus.
    - intros j y [Hy|[-> ->]]%lookup_snoc_inv Hful.
      + by eapply Hrows.
      + congruence.
    - intros i Hi. apply Hframe. intros j y Hy. apply Hi.
      by apply lookup_app_l_Some. }
  apply wp_processNote.
  - intros Hnone.
    assert (embeds w x = false) as Hx by (unfold embeds; by rewrite Hnone).
    split.
    + rewrite count_if_app. simpl. rewrite Hx. simpl. lia.
    + apply Hfailed; [|done|done]. unfold note_status. by rewrite Hx.
  - intros e He Hdown.
    assert (embeds w x = true) as Hx by (unfold embeds; by rewrite He).
    split.
    + rewrite count_if_app. simpl. rewrite Hx. simpl. lia.
    + apply Hfailed; [|done|done].
      unfold note_status. by rewrite Hx, Hidx, Hdown.
  - intros e He Hup.
    set (input := Indexer.note_input w x e).
    set (t := now w (statements s)).
    assert (embeds w x = true) as Hx by (unfold embeds; by rewrite He).
    assert (note_status w s0 items (length pre) x = fulfilled) as Hstatus.
    { unfold note_status. by rewrite Hx, Hidx, Hup. }
    split.
    { rewrite count_if_app. simpl. rewrite Hx. simpl. lia. }
    split_and!.
    + by apply upsert_unique.
    + rewrite !length_app. simpl. lia.
    + intros j y [Hy|[-> ->]]%lookup_snoc_inv.
      * rewrite lookup_app_l by (rewrite Hlen; by eapply lookup_lt_Some).
        by apply Hrs.
      * rewrite <-Hlen, list_lookup_middle by done. by rewrite Hlen, Hstatus.
    + intros j y [Hy|[-> ->]]%lookup_snoc_inv Hful.
      * simpl. rewrite upsert_rows_other; [by eapply Hrows|].
        simpl. apply Hfresh. by eapply list_elem_of_lookup_2.
      * simpl. eexists. split.
        -- by apply (upsert_rows_same input t (db s)).
        -- by eexists e, _, t.
    + intros i Hi. simpl. rewrite upsert_rows_other.
      * apply Hframe. intros j y Hy. apply Hi. by apply lookup_app_l_Some.
      * simpl. intros ->. apply (Hi (length pre) x); [|done|done].
        by apply list_lookup_middle.
Qed.

(** A full indexing run over distinct notes in which the store accepts
    the statements that concern the job: the run returns, the counters
    are the numbers of fulfilled and of rejected tasks, every fulfilled
    note has its row, and the rows of every other id are as they were. *)
Lemma startFullIndexing_notes w s notes :
  source_all_details w = Some notes →
  NoDup (AppleNoteDetails.id <$> notes) →
  job_statements_accepted w s notes →
  Db.unique_ids (db s) →
  wp (Indexer.startFullIndexing w) s
     (λ r s',
        ∃ res,
          r = Ok res ∧
          IndexingResult.processedNotes res
            = count_if is_fulfilled (note_statuses w s notes) ∧
          IndexingResult.failedNotes res
            = count_if is_rejected (note_statuses w s notes) ∧
          Db.unique_ids (db s') ∧
          (∀ j x, notes !! j = Some x →
                  note_status w s notes j x = fulfilled →
                  ∃ row, Db.rows_of (AppleNoteDetails.id x) (db s') = [row] ∧
                         indexed_row w x row) ∧
          (∀ i, (∀ j x, notes !! j = Some x → AppleNoteDetails.id x = i →
                        note_status w s notes j x ≠ fulfilled) →
                Db.rows_of i (db s') = Db.rows_of i (db s))).
Proof.
  intros Hsrc Hnd (Hcreate & Hprogress & Hcomplete) Hu.
  unfold Indexer.startFullIndexing.
  apply wp_bind. unfold AppleNotes.getAllNotesWithDetails. rewrite Hsrc.
  apply wp_ret. simpl. apply wp_bind, wp_createIndexingJob; last first.
  { intros Hdown. unfold create_index in Hcreate. congruence. }
  intros _. simpl.
  set (s1 := committed _ (called (CallCreateIndexingJob _) s)).
  set (jobId := indexing_jobs_id_seq (db s)).
  apply wp_bind.
  eapply wp_mono; last first.
  { apply (wp_for_batches (Indexer.index_batch w jobId) notes
             (λ done c s2,
                ∃ b rs,
                  length done = Nat.min (b * BATCH_SIZE) (length notes) ∧
                  b * BATCH_SIZE < length notes + BATCH_SIZE ∧
                  c = tally rs (0, 0) ∧
                  statements s2 =
                    statements s + 1 + count_if (embeds w) done + b ∧
                  index_inv w s notes done rs s2)
             (λ _ _, False)); last first.
    { exists 0, []. rewrite take_0. simpl. unfold BATCH_SIZE.
      split_and!; [lia|lia|done|lia|].
      split_and!; [done|done|done|done|done]. }
    intros i c s2 Hi (b & rs & Hlen & Hb & -> & Hst & Hinv).
    rewrite length_take in Hlen.
    assert (i = b * BATCH_SIZE) as -> by lia. clear Hlen.
    unfold Indexer.index_batch. apply wp_bind.
    set (i := b * BATCH_SIZE) in *.
    set (batch := take BATCH_SIZE (drop i notes)).
    assert (notes = take i notes ++ batch ++ drop BATCH_SIZE (drop i notes))
      as Hnotes by (unfold batch; by rewrite !take_drop).
    assert (length batch ≤ BATCH_SIZE)%nat as Hbatch
      by (unfold batch; rewrite length_take; lia).
    eapply wp_mono; last first.
    { apply (wp_allSettled (Indexer.processNote w) batch
               (λ bpre brs s3,
                  statements s3 =
                    statements s + 1
                      + count_if (embeds w) (take i notes ++ bpre) + b ∧
                  index_inv w s notes (take i notes ++ bpre) (rs ++ brs) s3)).
      - intros bpre x bpost brs s3 Hb3 [Hst3 Hinv3].
        eapply wp_mono; last first.
        { eapply (index_task_inv w s notes (take i notes ++ bpre) x
                    (bpost ++ drop BATCH_SIZE (drop i notes)) (rs ++ brs) s3 b);
            [done| | |done|done].
          - rewrite Hnotes at 1. rewrite Hb3, <-!app_assoc. done.
          - rewrite length_app, length_take.
            rewrite Hb3, length_app in Hbatch. simpl in Hbatch.
            rewrite Nat.min_l by lia. unfold i.
            rewrite Nat.div_add_l by (unfold BATCH_SIZE; lia).
            rewrite Nat.div_small by lia. lia. }
        intros r s4 [Hst4 Hinv4]. simpl in *.
        rewrite <-!app_assoc in Hst4, Hinv4.
        rewrite <-(app_assoc rs) in Hinv4. done.
      - rewrite !app_nil_r. done. }
    intros r s3 (brs & -> & Hst3 & Hinv3). simpl.
    rewrite <-tally_app.
    assert (take i notes ++ batch = take (i + BATCH_SIZE) notes) as Htake
      by apply take_take_drop.
    rewrite Htake in Hst3, Hinv3.
    assert (i + BATCH_SIZE = (b + 1) * BATCH_SIZE) as Hnext by (unfold i; lia).
    apply wp_bind, wp_updateJobProgress; last first.
    { intros Hdown. specialize (Hprogress b Hi).
      unfold progress_index in Hprogress.
      rewrite <-Hnext, <-Hst3 in Hprogress. congruence. }
    intros _. simpl. apply wp_ret. exists (b + 1), (rs ++ brs).
    split_and!.
    + rewrite length_take. by rewrite Hnext.
    + unfold i in Hi. lia.
    + done.
    + simpl. rewrite Hst3. lia.
    + by eapply index_inv_notes; [|exact Hinv3]. }
  intros [c|e] s2; simpl; [|done].
  intros (b & rs & Hlen & Hb & -> & Hst & Hu2 & Hlen2 & Hrs & Hrows & Hframe).
  assert (rs = note_statuses w s notes) as ->.
  { apply list_eq. intros j. unfold note_statuses.
    rewrite list_lookup_imap. destruct (notes !! j) as [x|] eqn:E; simpl.
    - by apply Hrs.
    - apply lookup_ge_None. apply lookup_ge_None in E. lia. }
  match goal with
  | |- context [if ?c then completed else completed] =>
      replace (if c then completed else completed) with completed
        by (by destruct c)
  end.
  apply wp_bind, wp_completeJob; last first.
  { intros Hdown. unfold complete_index in Hcomplete.
    assert ((length notes + (BATCH_SIZE - 1)) / BATCH_SIZE = b) as Hdiv.
    { unfold BATCH_SIZE in *. symmetry.
      apply (Nat.div_unique _ 50 b (length notes + 49 - b * 50)); lia. }
    rewrite Hdiv, <-Hst in Hcomplete. congruence. }
  intros _. simpl. apply wp_ret. eexists. split; [done|]. simpl.
  rewrite tally_counts. simpl.
  split_and!; [done|done|done| |].
  - intros j x Hj Hful. by eapply Hrows.
  - intros i Hi. apply Hframe. intros j x Hj. by apply Hi.
Qed.

Lemma count_if_fulfilled_all (g : nat → AppleNoteDetails.t → Settled) l :
  (∀ j x, l !! j = Some x → g j x = fulfilled) →
  count_if is_fulfilled (imap g l) = length l ∧
  count_if is_rejected (imap g l) = 0.
Proof.
  revert g. induction l as [|y l IH]; intros g Hg; [done|].
  rewrite imap_cons. cbn [count_if]. rewrite (Hg 0 y) by done.
  destruct (IH (g ∘ S)) as [-> ->]; [|done].
  intros j x Hj. by apply (Hg (S j)).
Qed.

(** *** Batch failure isolation *)

(** C5: in a run of [startFullIndexing] over distinct notes, a note whose
    processing throws, because the embedding model rejects its text or
    because the store refuses its upsert, aborts neither its batch nor the
    job, as long as no whole-job fault occurs (the store accepts the
    statements that concern the job).  The run returns, the job is
    [completed], every note whose processing does not throw is upserted
    and has its row in the store, every failing note is counted in
    [failed] and the rows stored for it before the run are retained.  With
    exactly one failing note among [l1 ++ n :: l2], [failed = 1] and
    [processed] is the number of the other notes. *)
Theorem batch_failure_isolation w s notes :
  source_all_details w = Some notes →
  NoDup (AppleNoteDetails.id <$> notes) →
  job_statements_accepted w s notes →
  Db.unique_ids (db s) →
  Db.jobs_fresh (db s) →
  ∃ res s' job,
    Indexer.startFullIndexing w s = (Ok res, s') ∧
    IndexingResult.status res = completed ∧
    Db.job_rows (IndexingResult.jobId res) (db s') = [job] ∧
    IndexingJob.status job = completed ∧
    IndexingJob.processed_notes job = IndexingResult.processedNotes res ∧
    IndexingJob.failed_notes job = IndexingResult.failedNotes res ∧
    IndexingResult.processedNotes res
      = count_if is_fulfilled (note_statuses w s notes) ∧
    IndexingResult.failedNotes res
      = count_if is_rejected (note_statuses w s notes) ∧
    IndexingResult.processedNotes res + IndexingResult.failedNotes res
      = length notes ∧
    (∀ j x, notes !! j = Some x →
            note_status w s notes j x = fulfilled →
            ∃ row, Db.rows_of (AppleNoteDetails.id x) (db s') = [row] ∧
                   indexed_row w x row) ∧
    (∀ j x, notes !! j = Some x →
            note_status w s notes j x ≠ fulfilled →
            Db.rows_of (AppleNoteDetails.id x) (db s') =
              Db.rows_of (AppleNoteDetails.id x) (db s)) ∧
    (∀ l1 n l2,
       notes = l1 ++ n :: l2 →
       note_status w s notes (length l1) n ≠ fulfilled →
       (∀ j x, notes !! j = Some x → j ≠ length l1 →
               note_status w s notes j x = fulfilled) →
       IndexingResult.failedNotes res = 1 ∧
       IndexingResult.processedNotes res = length l1 + length l2).
Proof.
  intros Hsrc Hnd Hacc Hu Hf.
  pose proof (startFullIndexing_notes w s notes Hsrc Hnd Hacc Hu) as Hnotes.
  pose proof (startFullIndexing_job w s notes Hsrc Hf) as Hjob.
  unfold wp in Hnotes, Hjob.
  destruct (Indexer.startFullIndexing w s) as [r s'] eqn:Hrun. simpl in *.
  destruct Hnotes as (res & -> & Hp & Hfl & _ & Hrows & Hframe).
  destruct Hjob as (_ & Hout & _). simpl in Hout.
  destruct Hout as (Hid & Htot & Hst & Hsum & _ & t0 & t1 & Hjob).
  eexists res, s', _. split_and!; try done.
  - by rewrite Hid.
  - done.
  - done.
  - done.
  - intros j x Hx Hne. apply Hframe. intros j' y Hy Hid'.
    assert (j' = j) as ->.
    { eapply (NoDup_lookup _ j' j (AppleNoteDetails.id x) Hnd).
      - by rewrite list_lookup_fmap, Hy, <-Hid'.
      - by rewrite list_lookup_fmap, Hx. }
    congruence.
  - intros l1 n l2 Hl Hn Hothers. rewrite Hp, Hfl.
    unfold note_statuses. rewrite Hl at 2 4.
    rewrite imap_app, imap_cons, !count_if_app. cbn [count_if].
    rewrite Nat.add_0_r.
    destruct (count_if_fulfilled_all (note_status w s notes) l1) as [-> ->].
    { intros j x Hj. apply Hothers.
      - rewrite Hl. by apply lookup_app_l_Some.
      - apply lookup_lt_Some in Hj. lia. }
    match goal with
    | |- context [count_if is_fulfilled (imap ?g l2)] =>
        destruct (count_if_fulfilled_all g l2) as [-> ->]
    end.
    { intros j x Hj. simpl. apply Hothers; [|lia].
      rewrite Hl, lookup_app_r by lia.
      replace (length l1 + S j - length l1) with (S j) by lia. done. }
    destruct (note_status w s notes (length l1) n); [done|]. simpl. lia.
Qed.

(** ** A worked example

    Five notes; the embedding model rejects the third.  After the full
    indexing run the source changes: note 1 is as it was, note 2 has new
    content, note 3 still cannot be embedded, note 4 is listed but no
    longer found, note 5 is gone, and note 6 is new. *)

Definition example_note (n : string) (body : string) : AppleNoteDetails.t :=
  AppleNoteDetails.mk ("x-coredata://note/" +:+ n) ("Note " +:+ n) body
    "Notes" "2024-01-01T00:00:00.000Z" "2024-01-02T00:00:00.000Z".

Definition example_summary (n : string) : AppleNoteSummary.t :=
  AppleNoteSummary.mk ("x-coredata://note/" +:+ n) ("Note " +:+ n) "Notes"
    "2024-01-02T00:00:00.000Z".

Definition example_notes : list AppleNoteDetails.t :=
  [example_note "1" "<p>one</p>"; example_note "2" "<p>two</p>";
   example_note "3" "<p>three</p>"; example_note "4" "<p>four</p>";
   example_note "5" "<p>five</p>"].

Definition example_fetch (noteId : string) : Fetched :=
  if decide (noteId = "x-coredata://note/1")
  then FetchNote (example_note "1" "<p>one</p>")
  else if decide (noteId = "x-coredata://note/2")
  then FetchNote (example_note "2" "<p>two, edited</p>")
  else if decide (noteId = "x-coredata://note/3")
  then FetchNote (example_note "3" "<p>three</p>")
  else if decide (noteId = "x-coredata://note/6")
  then FetchNote (example_note "6" "<p>six</p>")
  else FetchNull.

Definition example_world : World := {|
  source_all_details := Some example_notes;
  source_summaries :=
    Some [example_summary "1"; example_summary "2"; example_summary "3";
          example_summary "4"; example_summary "6"];
  source_details_by_id := example_fetch;
  embedding_model := λ text,
    if decide (text = "Note 3" +:+ Embeddings.newline +:+ Embeddings.newline
                        +:+ "<p>three</p>")
    then None else Some [1%Q; 0%Q; 0%Q];
  turndown := λ html, html;
  sha256_hex16 := λ content, "sha256:" +:+ content;
  string_trim := λ text, text;
  pool_query_ok := λ _, true;
  now := λ n, 1000 + n;
|}.

(** The same source with an embedding model that accepts every text and
    a store that refuses one statement only, the fourth: the upsert of
    the third note. *)
Definition upsert_refused_world : World := {|
  source_all_details := Some example_notes;
  source_summaries := source_summaries example_world;
  source_details_by_id := example_fetch;
  embedding_model := λ _, Some [1%Q; 0%Q; 0%Q];
  turndown := λ html, html;
  sha256_hex16 := λ content, "sha256:" +:+ content;
  string_trim := λ text, text;
  pool_query_ok := λ n, bool_decide (n ≠ 3);
  now := λ n, 1000 + n;
|}.

(** The state after the full indexing run, in which the sync starts. *)
Definition indexed_state : State :=
  (Indexer.startFullIndexing example_world initial_state).2.


Definition example_summaries : list AppleNoteSummary.t :=
  [example_summary "1"; example_summary "2"; example_summary "3";
   example_summary "4"; example_summary "6"].

Lemma example_world_consistent : source_consistent example_world.
Proof.
  intros noteId details. simpl. unfold example_fetch.
  repeat case_decide; intros [= <-]; by subst.
Qed.

Lemma pair_eta {A B} (p : A * B) : p = (p.1, p.2).
Proof. by destruct p. Defined.

(** ** The theorems at the example *)

(** C2 at the sync of the example. *)
Lemma progress_counters_invariant_witness :
  let run := Indexer.syncNotes example_world indexed_state in
  ∃ res job,
    run.1 = Ok res ∧
    IndexingResult.processedNotes res + IndexingResult.failedNotes res
      = IndexingResult.totalNotes res ∧
    Db.job_rows 2 (db run.2) = [job] ∧
    IndexingJob.status job = completed ∧
    IndexingJob.processed_notes job + IndexingJob.failed_notes job
      = IndexingJob.total_notes job.
Proof.
  intros run.
  assert (Db.jobs_fresh (db indexed_state)) as Hfresh
    by (apply (bool_decide_unpack _); by vm_compute).
  destruct (progress_counters_invariant example_world Sync indexed_state
              run.1 run.2 Hfresh (pair_eta run))
    as (new & _ & _ & _ & Hok).
  destruct (Hok (IndexingResult.mk 2 6 5 1 completed))
    as (_ & _ & Hsum & job & Hrows & Hst & _ & _ & _ & Hjob).
  { by vm_compute. }
  exists (IndexingResult.mk 2 6 5 1 completed), job.
  split_and!; [by vm_compute|done|done|done|done].
Defined.


(** C3 at note 1 of the example, whose content is as it was indexed. *)
Lemma unchanged_note_is_skipped_witness :
  let run := Indexer.syncNotes example_world indexed_state in
  Db.rows_of "x-coredata://note/1" (db run.2) =
    Db.rows_of "x-coredata://note/1" (db indexed_state) ∧
  ∀ note, Called (CallUpsertNote note) ∈ drop (length (trace indexed_state))
                                              (trace run.2) →
          NoteInput.apple_note_id note ≠ "x-coredata://note/1".
Proof.
  intros run.
  destruct (unchanged_note_is_skipped example_world indexed_state
              example_summaries "x-coredata://note/1" run.1 run.2)
    as (_ & Hrows & (new & Hnew & Hups & _) & _).
  - reflexivity.
  - apply example_world_consistent.
  - apply (bool_decide_unpack _). by vm_compute.
  - exists (example_note "1" "<p>one</p>"). split; by vm_compute.
  - apply pair_eta.
  - split; [done|]. intros note. rewrite Hnew, drop_app_length. apply Hups.
Defined.

(** C10 at note 4 of the example, which the source lists and no longer
    finds. *)
Lemma not_found_note_is_processed_witness :
  let run := Indexer.syncNotes example_world indexed_state in
  Db.rows_of "x-coredata://note/4" (db run.2) =
    Db.rows_of "x-coredata://note/4" (db indexed_state) ∧
  ∃ res, run.1 = Ok res ∧
         (2 ≤ IndexingResult.processedNotes res)%nat.
Proof.
  intros run.
  destruct (not_found_note_is_processed example_world indexed_state
              example_summaries "x-coredata://note/4" run.1 run.2)
    as (_ & Hrows & _ & Hone & Hok).
  - reflexivity.
  - apply example_world_consistent.
  - apply (bool_decide_unpack _). by vm_compute.
  - by vm_compute.
  - apply pair_eta.
  - split; [done|]. exists (IndexingResult.mk 2 6 5 1 completed).
    split; [by vm_compute|]. simpl. lia.
Defined.

(** C4 at note 5 of the example, which the source no longer lists. *)
Lemma deletion_correctness_witness :
  let run := Indexer.syncNotes example_world indexed_state in
  Db.rows_of "x-coredata://note/5" (db indexed_state) ≠ [] ∧
  Db.rows_of "x-coredata://note/5" (db run.2) = [].
Proof.
  intros run.
  destruct (deletion_correctness example_world indexed_state
              example_summaries run.1 run.2)
    as (Hdel & Hok & _).
  - reflexivity.
  - apply example_world_consistent.
  - apply pair_eta.
  - split; [by vm_compute|].
    destruct (Hok (IndexingResult.mk 2 6 5 1 completed)) as [Hgone _].
    { by vm_compute. }
    apply Hgone. apply (bool_decide_unpack _). by vm_compute.
Defined.

(** C5 at the example of the specification: five notes, the third throws
    during embedding, the job ends with four processed and one failed;
    and at the same five notes when every embedding succeeds and the
    store refuses the upsert of the third note, with the same counters
    and no row written for that note. *)
Lemma batch_failure_isolation_witness :
  (∃ res s',
     Indexer.startFullIndexing example_world initial_state = (Ok res, s') ∧
     IndexingResult.status res = completed ∧
     IndexingResult.processedNotes res = 4 ∧
     IndexingResult.failedNotes res = 1) ∧
  (∃ res s',
     Indexer.startFullIndexing upsert_refused_world initial_state
       = (Ok res, s') ∧
     IndexingResult.status res = completed ∧
     IndexingResult.processedNotes res = 4 ∧
     IndexingResult.failedNotes res = 1 ∧
     Db.rows_of "x-coredata://note/3" (db s') = []).
Proof.
  split.
  - destruct (batch_failure_isolation example_world initial_state
                example_notes)
      as (res & s' & job & Hrun & Hst & _ & _ & _ & _ & _ & _ & _ & _ & _
          & Hone).
    + reflexivity.
    + apply (bool_decide_unpack _). by vm_compute.
    + split_and!; [reflexivity|intros b _; reflexivity|reflexivity].
    + apply (bool_decide_unpack _). by vm_compute.
    + apply (bool_decide_unpack _). by vm_compute.
    + destruct (Hone [example_note "1" "<p>one</p>";
                      example_note "2" "<p>two</p>"]
                  (example_note "3" "<p>three</p>")
                  [example_note "4" "<p>four</p>";
                   example_note "5" "<p>five</p>"])
        as [Hfailed Hprocessed].
      * reflexivity.
      * by vm_compute.
      * intros j x Hx Hj.
        do 5 (destruct j as [|j];
              [first [exfalso; apply Hj; reflexivity
                     |injection Hx as <-; vm_compute; reflexivity]|]).
        discriminate Hx.
      * exists res, s'. split_and!; [done|done|done|done].
  - destruct (batch_failure_isolation upsert_refused_world initial_state
                example_notes)
      as (res & s' & job & Hrun & Hst & _ & _ & _ & _ & _ & _ & _ & _ & Hkept
          & Hone).
    + reflexivity.
    + apply (bool_decide_unpack _). by vm_compute.
    + split_and!; [reflexivity| |reflexivity].
      intros b Hb. assert (b = 0) as ->
        by (unfold BATCH_SIZE in Hb; simpl in Hb; lia).
      reflexivity.
    + apply (bool_decide_unpack _). by vm_compute.
    + apply (bool_decide_unpack _). by vm_compute.
    + destruct (Hone [example_note "1" "<p>one</p>";
                      example_note "2" "<p>two</p>"]
                  (example_note "3" "<p>three</p>")
                  [example_note "4" "<p>four</p>";
                   example_note "5" "<p>five</p>"])
        as [Hfailed Hprocessed].
      * reflexivity.
      * by vm_compute.
      * intros j x Hx Hj.
        do 5 (destruct j as [|j];
              [first [exfalso; apply Hj; reflexivity
                     |injection Hx as <-; vm_compute; reflexivity]|]).
        discriminate Hx.
      * exists res, s'. split_and!; [done|done|done|done|].
        apply (Hkept 2 (example_note "3" "<p>three</p>"));
          [reflexivity|by vm_compute].
Defined.

(** C8 at note 1 of the example, upserted twice into the empty store. *)
Lemma upsert_idempotent_witness :
  let note := Indexer.note_input example_world
                (example_note "1" "<p>one</p>") [1%Q; 0%Q; 0%Q] in
  ∃ id s1 s2,
    Db.upsertNote example_world note initial_state = (Ok id, s1) ∧
    Db.upsertNote example_world note s1 = (Ok id, s2) ∧
    length (Db.rows_of (NoteInput.apple_note_id note) (db s2)) = 1 ∧
    length (notes (db s2)) = length (notes (db s1)).
Proof.
  intros note.
  destruct (upsert_idempotent example_world note note initial_state)
    as (id & s1 & s2 & row1 & row2 & H1 & H2 & _ & Hrows & _ & _ & _ & _ &
        Hlen & _).
  - apply (bool_decide_unpack _). by vm_compute.
  - reflexivity.
  - reflexivity.
  - reflexivity.
  - exists id, s1, s2. split_and!; [done|done| |done]. by rewrite Hrows.
Defined.
